(** * GtkTim2SortModel: reconciliation of an incrementally sorted list model

    A shallow embedding of [gtk/gtktim2sortmodel.c].  The model object is a
    record, every C function is a state transformer on a [Machine] (the
    object plus the trace of calls it makes to its collaborators), and
    [guint] arithmetic is carried out on [Z] with the reduction modulo
    [2^32] written out. *)

From Stdlib Require Import ZArith Lia.
From stdpp Require Import base list.

Local Open Scope Z_scope.

(** ** Machine integers *)

(** [guint] is 32 bits wide; [u32] is the reduction every [guint]
    operation and every conversion from [gsize] performs. *)
Definition guint_modulus : Z := 4294967296.

Definition u32 (z : Z) : Z := z mod guint_modulus.

(** ** Objects *)

(** Objects are known by their address; [NULL] is [None]. *)
Definition GObject := Z.
Definition GListModel := Z.
Definition GtkSorter := Z.

Inductive GtkSorterOrder :=
| GTK_SORTER_ORDER_PARTIAL
| GTK_SORTER_ORDER_NONE
| GTK_SORTER_ORDER_TOTAL.

Inductive Property := PROP_MODEL | PROP_SORTER | PROP_SORTING.

(** [struct _SortItem] *)
Record SortItem := {
  si_item : option GObject;
  si_position : Z
}.

(** The sort session kept in [self->sort].

    Modelled from the spec: the engine ([gtktimsort.c]) is not part of this
    file.  The record keeps what [gtk_tim_sort_init] and
    [gtk_tim_sort_set_already_sorted] are given ("begin(store, comparator,
    already_sorted_count)") and the pending runs the engine needs to
    resume. *)
Record GtkTimSort := {
  ts_size : Z;
  ts_data : option GtkSorter;
  ts_already_sorted : Z;
  ts_runs : list Z
}.

(** [struct _GtkTim2SortModel]; [start_time] and [steps] only feed the
    profiler and are left out. *)
Record GtkTim2SortModel := {
  model : option GListModel;
  sorter : option GtkSorter;
  sort : GtkTimSort;
  sort_cb : Z;
  items : list SortItem
}.

(** Calls that leave this file, in program order, together with the
    writes to the [SortArray]. *)
Inductive Event :=
| EvItemsChanged (position removed added : Z)
| EvNotify (p : Property)
| EvRef (o : GObject)
| EvUnref (o : GObject)
| EvConnect (o : Z)
| EvDisconnect (o : Z)
| EvIdleAdd (id : Z)
| EvSourceRemove (id : Z)
| EvSortInit (size : Z)
| EvSortSetAlreadySorted (n : Z)
| EvSortFinish
| EvSortStep
| EvStoreAppend
| EvStoreClear
| EvStoreWrite (i : Z)
| EvStoreSetSize (n : Z).

(** Modelled from the spec: the collaborators are not part of this file.
    The backing sequence ([GListModel]: "length()", "item_at(index)",
    absent out of range) is what each list model holds; the comparator
    ([GtkSorter]: "order()") is the order each sorter reports; the sort
    engine's "step()" ([gtk_tim_sort_step] of [gtktimsort.c]) is a function
    of the session and the array that returns them updated, with the
    boolean the callback tests. *)
Record Env := {
  g_list_model_contents : GListModel → list GObject;
  gtk_sorter_get_order : GtkSorter → GtkSorterOrder;
  gtk_tim_sort_step : GtkTimSort → list SortItem → bool * GtkTimSort * list SortItem
}.

(** The object, the trace so far, and the next id [g_idle_add] hands out. *)
Record Machine := {
  self : GtkTim2SortModel;
  trace : list Event;
  next_source : positive
}.

Definition emit (e : Event) (w : Machine) : Machine :=
  {| self := self w; trace := trace w ++ [e]; next_source := next_source w |}.

Definition emits (es : list Event) (w : Machine) : Machine :=
  {| self := self w; trace := trace w ++ es; next_source := next_source w |}.

Definition with_self (f : GtkTim2SortModel → GtkTim2SortModel) (w : Machine) : Machine :=
  {| self := f (self w); trace := trace w; next_source := next_source w |}.

Definition set_model_field (m : option GListModel) (s : GtkTim2SortModel) :=
  {| model := m; sorter := sorter s; sort := sort s; sort_cb := sort_cb s; items := items s |}.

Definition set_sorter_field (o : option GtkSorter) (s : GtkTim2SortModel) :=
  {| model := model s; sorter := o; sort := sort s; sort_cb := sort_cb s; items := items s |}.

Definition set_sort_field (t : GtkTimSort) (s : GtkTim2SortModel) :=
  {| model := model s; sorter := sorter s; sort := t; sort_cb := sort_cb s; items := items s |}.

Definition set_sort_cb_field (id : Z) (s : GtkTim2SortModel) :=
  {| model := model s; sorter := sorter s; sort := sort s; sort_cb := id; items := items s |}.

Definition set_items_field (l : list SortItem) (s : GtkTim2SortModel) :=
  {| model := model s; sorter := sorter s; sort := sort s; sort_cb := sort_cb s; items := l |}.

(** ** The array of sort items *)

(** Modelled from the spec: [gtkvectorimpl.c], instantiated at [SortItem]
    with [sort_item_clear] as free function, is not part of this file.
    The array is a list; its operations follow the contract of the
    Indexed Value Store: "append, random-access read, random-access
    write, truncate-to-size, reserve-capacity, clear-with-release". *)
Definition sort_array_get_size (l : list SortItem) : Z := Z.of_nat (length l).

(** Modelled from the spec: the store is empty when it has no entry. *)
Definition sort_array_is_empty (l : list SortItem) : bool :=
  match l with [] => true | _ => false end.

(** [sort_item_clear]: [g_clear_object] drops the reference unless the
    pointer is already [NULL]. *)
Definition sort_item_clear_events (si : SortItem) : list Event :=
  match si_item si with
  | Some o => [EvUnref o]
  | None => []
  end.

Definition sort_item_cleared (si : SortItem) : SortItem :=
  {| si_item := None; si_position := si_position si |}.

(** Modelled from the spec: "append" adds the entry at the end. *)
Definition sort_array_append (si : SortItem) (w : Machine) : Machine :=
  emit EvStoreAppend (with_self (λ s, set_items_field (items s ++ [si]) s) w).

(** Modelled from the spec: "clearing releases every owned item reference
    before shrinking to zero", that is, [sort_array_clear] runs the free
    function on every element. *)
Definition sort_array_clear (w : Machine) : Machine :=
  emit EvStoreClear
    (with_self (set_items_field [])
       (emits (items (self w) ≫= sort_item_clear_events) w)).

(** Modelled from the spec: "truncate-to-size"; the free function runs
    on the tail that [sort_array_set_size] cuts off. *)
Definition sort_array_set_size (new_size : Z) (w : Machine) : Machine :=
  let l := items (self w) in
  emit (EvStoreSetSize new_size)
    (with_self (set_items_field (take (Z.to_nat new_size) l))
       (emits (drop (Z.to_nat new_size) l ≫= sort_item_clear_events) w)).

(** ** The sort engine's entry points other than the step *)

(** Modelled from the spec: [gtk_tim_sort_init] opens a session over the
    array with the sorter as comparison data and nothing known sorted. *)
Definition gtk_tim_sort_init (size : Z) (data : option GtkSorter) (w : Machine) : Machine :=
  emit (EvSortInit size)
    (with_self (set_sort_field
       {| ts_size := size; ts_data := data; ts_already_sorted := 0; ts_runs := [] |}) w).

(** Modelled from the spec: [gtk_tim_sort_set_already_sorted] declares the
    known-sorted prefix of the session. *)
Definition gtk_tim_sort_set_already_sorted (already_sorted : Z) (w : Machine) : Machine :=
  emit (EvSortSetAlreadySorted already_sorted)
    (with_self (λ s, set_sort_field
       {| ts_size := ts_size (sort s); ts_data := ts_data (sort s);
          ts_already_sorted := already_sorted; ts_runs := ts_runs (sort s) |} s) w).

(** Modelled from the spec: [gtk_tim_sort_finish] releases the engine's
    scratch state; the array is left as it is. *)
Definition gtk_tim_sort_finish (w : Machine) : Machine := emit EvSortFinish w.

(** ** The model *)

Section Model.

Context (E : Env).

(** Modelled from the spec: "length()" of the backing sequence. *)
Definition g_list_model_get_n_items (m : GListModel) : Z :=
  Z.of_nat (length (g_list_model_contents E m)).

(** Modelled from the spec: "item_at(index)", absent out of range. *)
Definition g_list_model_get_item (m : GListModel) (position : Z) : option GObject :=
  g_list_model_contents E m !! Z.to_nat position.

Definition gtk_tim2_sort_model_get_n_items (s : GtkTim2SortModel) : Z :=
  match model s with
  | None => 0
  | Some m => g_list_model_get_n_items m
  end.

(** The result and the reference taken for it. *)
Definition gtk_tim2_sort_model_get_item (s : GtkTim2SortModel) (position : Z)
  : option GObject * list Event :=
  match model s with
  | None => (None, [])
  | Some m =>
    if sort_array_is_empty (items s) then (g_list_model_get_item m position, [])
    else if sort_array_get_size (items s) <=? position then (None, [])
    else
      let o := items s !! Z.to_nat position ≫= si_item in
      (o, match o with Some x => [EvRef x] | None => [] end)
  end.

Definition gtk_tim2_sort_model_is_sorting (s : GtkTim2SortModel) : bool :=
  negb (sort_cb s =? 0).

Definition gtk_tim2_sort_model_stop_sorting (w : Machine) : Machine :=
  if sort_cb (self w) =? 0 then w
  else
    let w1 := gtk_tim_sort_finish w in
    let w2 := with_self (set_sort_cb_field 0) (emit (EvSourceRemove (sort_cb (self w1))) w1) in
    emit (EvNotify PROP_SORTING) w2.

(** [TRUE] is [G_SOURCE_CONTINUE], [FALSE] is [G_SOURCE_REMOVE]. *)
Definition gtk_tim2_sort_model_sort_cb (w : Machine) : Machine * bool :=
  match gtk_tim_sort_step E (sort (self w)) (items (self w)) with
  | (true, t, l) =>
    let w1 := emit EvSortStep (with_self (λ s, set_items_field l (set_sort_field t s)) w) in
    let n_items := u32 (sort_array_get_size (items (self w1))) in
    (emit (EvItemsChanged 0 n_items n_items) w1, true)
  | (false, t, l) =>
    let w1 := emit EvSortStep (with_self (λ s, set_items_field l (set_sort_field t s)) w) in
    (gtk_tim2_sort_model_stop_sorting w1, false)
  end.

(** Modelled from the spec: the scheduler's "schedule_step(callback) ->
    handle"; GLib hands out source ids that are not 0. *)
Definition g_idle_add (w : Machine) : Machine * Z :=
  let id := Z.pos (next_source w) in
  (emit (EvIdleAdd id)
     {| self := self w; trace := trace w; next_source := Pos.succ (next_source w) |}, id).

Definition gtk_tim2_sort_model_start_sorting (w : Machine) : Machine :=
  if negb (sort_cb (self w) =? 0) then w
  else
    let '(w1, id) := g_idle_add w in
    emit (EvNotify PROP_SORTING) (with_self (set_sort_cb_field id) w1).

Definition gtk_tim2_sort_model_clear_items (w : Machine) : Machine :=
  sort_array_clear (gtk_tim2_sort_model_stop_sorting w).

Definition gtk_tim2_sort_model_should_sort (s : GtkTim2SortModel) : bool :=
  match sorter s, model s with
  | Some srt, Some _ =>
    match gtk_sorter_get_order E srt with
    | GTK_SORTER_ORDER_NONE => false
    | _ => true
    end
  | _, _ => false
  end.

(** The entry appended for backing position [i]. *)
Definition backing_entry (m : option GListModel) (i : Z) : SortItem :=
  {| si_item := m ≫= λ m', g_list_model_get_item m' i; si_position := i |}.

Definition gtk_tim2_sort_model_create_items (w : Machine) : Machine :=
  if negb (gtk_tim2_sort_model_should_sort (self w)) then w
  else
    (* [self->model] is not [NULL] past [should_sort]: this is its length *)
    let n_items := gtk_tim2_sort_model_get_n_items (self w) in
    foldl (λ w' i, sort_array_append (backing_entry (model (self w')) i) w')
      w (seqZ 0 n_items).

Definition gtk_tim2_sort_model_resort (already_sorted : Z) (w : Machine) : Machine :=
  let '(already_sorted, w1) :=
    if gtk_tim2_sort_model_is_sorting (self w)
    then (0, gtk_tim2_sort_model_stop_sorting w)
    else (already_sorted, w) in
  let w2 := gtk_tim_sort_init (sort_array_get_size (items (self w1))) (sorter (self w1)) w1 in
  let w3 := gtk_tim_sort_set_already_sorted already_sorted w2 in
  gtk_tim2_sort_model_start_sorting w3.

(** *** [gtk_tim2_sort_model_remove_items] *)

(** A write through the pointer [sort_array_index] returns. *)
Definition store_write (i : Z) (si : SortItem) (w : Machine) : Machine :=
  emit (EvStoreWrite i)
    (with_self (λ s, set_items_field (<[Z.to_nat i := si]> (items s)) s) w).

(** The locals of the scan next to the object: [valid], [start], [end]. *)
Record Scan := {
  sc_w : Machine;
  sc_valid : Z;
  sc_start : Z;
  sc_end : Z
}.

(** The tail of the loop body: move the entry down to [valid] when a hole
    precedes it, and count it. *)
Definition remove_items_keep (i : Z) (si : SortItem) (w : Machine) (acc : Scan) : Scan :=
  {| sc_w := if sc_valid acc <? i then store_write (sc_valid acc) si w else w;
     sc_valid := u32 (sc_valid acc + 1);
     sc_start := sc_start acc;
     sc_end := sc_end acc |}.

Definition shifted_entry (removed added : Z) (si : SortItem) : SortItem :=
  {| si_item := si_item si;
     si_position := u32 (u32 (si_position si - removed) + added) |}.

(** One iteration of the [for] loop, at index [i]. *)
Definition remove_items_body (n_items position removed added : Z)
    (acc : Scan) (i : Z) : Scan :=
  match items (self (sc_w acc)) !! Z.to_nat i with
  | None => acc
  | Some si =>
    if u32 (position + removed) <=? si_position si then
      let si' := shifted_entry removed added si in
      remove_items_keep i si' (store_write i si' (sc_w acc)) acc
    else if position <=? si_position si then
      {| sc_w := store_write i (sort_item_cleared si)
                   (emits (sort_item_clear_events si) (sc_w acc));
         sc_valid := sc_valid acc;
         sc_start := Z.min (sc_start acc) (sc_valid acc);
         sc_end := u32 (u32 (n_items - i) - 1) |}
    else remove_items_keep i si (sc_w acc) acc
  end.

Definition zero_item : SortItem := {| si_item := None; si_position := 0 |}.

(** [memset (sort_array_index (&self->items, from), 0, sizeof (SortItem) * count)] *)
Definition memset_zero (from count : Z) (w : Machine) : Machine :=
  emit (EvStoreWrite from)
    (with_self (λ s, set_items_field
       (take (Z.to_nat from) (items s) ++ replicate (Z.to_nat count) zero_item
          ++ drop (Z.to_nat from + Z.to_nat count) (items s)) s) w).

(** [None] is the abort of [g_assert]; otherwise the machine and the two
    out parameters [unmodified_start], [unmodified_end]. *)
Definition gtk_tim2_sort_model_remove_items (position removed added : Z) (w : Machine)
  : option (Machine * Z * Z) :=
  let n_items := u32 (sort_array_get_size (items (self w))) in
  let acc := foldl (remove_items_body n_items position removed added)
               {| sc_w := w; sc_valid := 0; sc_start := n_items; sc_end := n_items |}
               (seqZ 0 n_items) in
  if sc_valid acc =? u32 (n_items - removed) then
    let w1 := memset_zero (sc_valid acc) removed (sc_w acc) in
    let w2 := sort_array_set_size (sc_valid acc) w1 in
    Some (w2, sc_start acc, sc_end acc)
  else None.

(** *** [gtk_tim2_sort_model_items_changed_cb] *)

Definition gtk_tim2_sort_model_items_changed_cb (position removed added : Z) (w : Machine)
  : option Machine :=
  if (removed =? 0) && (added =? 0) then Some w
  else if negb (gtk_tim2_sort_model_should_sort (self w)) then
    Some (emit (EvItemsChanged position removed added) w)
  else
    let was_sorting := gtk_tim2_sort_model_is_sorting (self w) in
    let w1 := gtk_tim2_sort_model_stop_sorting w in
    match gtk_tim2_sort_model_remove_items position removed added w1 with
    | None => None
    | Some (w2, start, end_) =>
      let w3 :=
        if 0 <? added then
          let w' := foldl (λ w' i, sort_array_append (backing_entry (model (self w')) i) w')
                      w2 (seqZ position (u32 (position + added) - position)) in
          gtk_tim2_sort_model_resort
            (if was_sorting then 0
             else u32 (sort_array_get_size (items (self w')) - added)) w'
        else if was_sorting then gtk_tim2_sort_model_resort 0 w2
        else w2 in
      let n_items := u32 (sort_array_get_size (items (self w3)) - start - end_) in
      Some (emit (EvItemsChanged start (u32 (u32 (n_items - added) + removed)) n_items) w3)
    end.

(** *** Sorter and model changes *)

Definition gtk_tim2_sort_model_sorter_changed_cb (changed : GtkSorter) (w : Machine) : Machine :=
  let w1 :=
    match gtk_sorter_get_order E changed with
    | GTK_SORTER_ORDER_NONE => gtk_tim2_sort_model_clear_items w
    | _ =>
      if sort_array_is_empty (items (self w)) then gtk_tim2_sort_model_create_items w
      else w
    end in
  let w2 := gtk_tim2_sort_model_resort 0 w1 in
  let n_items := gtk_tim2_sort_model_get_n_items (self w2) in
  if 1 <? n_items then emit (EvItemsChanged 0 n_items n_items) w2 else w2.

Definition gtk_tim2_sort_model_clear_model (w : Machine) : Machine :=
  match model (self w) with
  | None => w
  | Some m =>
    gtk_tim2_sort_model_clear_items
      (with_self (set_model_field None) (emits [EvDisconnect m; EvUnref m] w))
  end.

Definition gtk_tim2_sort_model_clear_sorter (w : Machine) : Machine :=
  match sorter (self w) with
  | None => w
  | Some srt =>
    gtk_tim2_sort_model_clear_items
      (with_self (set_sorter_field None) (emits [EvDisconnect srt; EvUnref srt] w))
  end.

Definition gtk_tim2_sort_model_dispose (w : Machine) : Machine :=
  gtk_tim2_sort_model_clear_sorter (gtk_tim2_sort_model_clear_model w).

Definition gtk_tim2_sort_model_set_model (new_model : option GListModel) (w : Machine)
  : Machine :=
  if decide (model (self w) = new_model) then w
  else
    let removed := gtk_tim2_sort_model_get_n_items (self w) in
    let w1 := gtk_tim2_sort_model_clear_model w in
    let '(w2, added) :=
      match new_model with
      | Some m =>
        let w' := with_self (set_model_field (Some m)) (emits [EvRef m; EvConnect m] w1) in
        let added := g_list_model_get_n_items m in
        (gtk_tim2_sort_model_resort 0 (gtk_tim2_sort_model_create_items w'), added)
      | None => (w1, 0)
      end in
    let w3 :=
      if (0 <? removed) || (0 <? added) then emit (EvItemsChanged 0 removed added) w2
      else w2 in
    emit (EvNotify PROP_MODEL) w3.

Definition gtk_tim2_sort_model_set_sorter (new_sorter : option GtkSorter) (w : Machine)
  : Machine :=
  let w1 := gtk_tim2_sort_model_clear_sorter w in
  let w2 :=
    match new_sorter with
    | Some srt =>
      let w' := with_self (set_sorter_field (Some srt)) (emits [EvRef srt; EvConnect srt] w1) in
      gtk_tim2_sort_model_sorter_changed_cb srt w'
    | None =>
      let n_items := gtk_tim2_sort_model_get_n_items (self w1) in
      if 1 <? n_items then emit (EvItemsChanged 0 n_items n_items) w1 else w1
    end in
  emit (EvNotify PROP_SORTER) w2.

(** [gtk_tim2_sort_model_init] leaves the zero-filled instance as it is. *)
Definition gtk_tim2_sort_model_init : Machine :=
  {| self := {| model := None; sorter := None;
                sort := {| ts_size := 0; ts_data := None; ts_already_sorted := 0; ts_runs := [] |};
                sort_cb := 0; items := [] |};
     trace := [];
     next_source := 1%positive |}.

(** [g_object_new] sets the two properties in the order they are given. *)
Definition gtk_tim2_sort_model_new (new_model : option GListModel)
    (new_sorter : option GtkSorter) : Machine :=
  gtk_tim2_sort_model_set_sorter new_sorter
    (gtk_tim2_sort_model_set_model new_model gtk_tim2_sort_model_init).

End Model.

(** ** Untouched bands *)

(** The number of leading, respectively trailing, elements of a list that
    satisfy [P]. *)
Fixpoint prefix_length {A} (P : A → Prop) (dec : ∀ x, Decision (P x)) (l : list A) : nat :=
  match l with
  | [] => O
  | x :: l' => if dec x then S (prefix_length P dec l') else O
  end.

Definition suffix_length {A} (P : A → Prop) (dec : ∀ x, Decision (P x)) (l : list A) : nat :=
  prefix_length P dec (reverse l).

(** ** What the scan computes, as the loop has it *)

(** The loop keeps an entry unless its position lies between [position]
    and the (wrapped) sum [position + removed]. *)
Definition scan_keeps (position removed : Z) (si : SortItem) : Prop :=
  u32 (position + removed) ≤ si_position si ∨ si_position si < position.

Definition scan_adjust (position removed added : Z) (si : SortItem) : SortItem :=
  if decide (u32 (position + removed) ≤ si_position si)
  then shifted_entry removed added si else si.

(** Events of the scan: references dropped and array writes. *)
Definition quiet_event (e : Event) : Prop :=
  match e with
  | EvUnref _ | EvStoreWrite _ | EvStoreSetSize _ | EvStoreAppend | EvStoreClear => True
  | _ => False
  end.

(** ** Projections of a trace *)

Definition notifications (tr : list Event) : list (Z * Z * Z) :=
  omap (λ e, match e with EvItemsChanged p r a => Some (p, r, a) | _ => None end) tr.

Definition released (tr : list Event) : list GObject :=
  omap (λ e, match e with EvUnref o => Some o | _ => None end) tr.

Definition sessions_started (tr : list Event) : list Z :=
  omap (λ e, match e with EvSortSetAlreadySorted n => Some n | _ => None end) tr.

(** The events a machine added on the way from [w] to [w']. *)
Definition events_since (w w' : Machine) : list Event :=
  drop (length (trace w)) (trace w').

(** Everything but the array and the trace is left alone. *)
Definition frame (w w' : Machine) : Prop :=
  model (self w') = model (self w) ∧ sorter (self w') = sorter (self w) ∧
  sort (self w') = sort (self w) ∧ sort_cb (self w') = sort_cb (self w) ∧
  next_source w' = next_source w.

(** ** The reconciliation scan, in the words of the specification *)

(** A populated store over a backing sequence of [n] items: one entry per
    backing position, every position in range and none twice. *)
Definition store_ok (n : Z) (l : list SortItem) : Prop :=
  Z.of_nat (length l) = n ∧
  NoDup (si_position <$> l) ∧
  Forall (λ si, 0 ≤ si_position si < n) l.

(** An edit the backing sequence can report when it held [n] items: the
    removed range lies inside it, and both lengths are [guint]s. *)
Definition edit_ok (n position removed added : Z) : Prop :=
  0 ≤ position ∧ 0 ≤ removed ∧ 0 ≤ added ∧
  position + removed ≤ n ∧ n < guint_modulus ∧
  n - removed + added < guint_modulus.

Definition in_removed_range (position removed : Z) (si : SortItem) : Prop :=
  position ≤ si_position si < position + removed.

(** Entries at or past the end of the removed range move by
    [added - removed]; entries before the edit stay. *)
Definition reconcile_entry (position removed added : Z) (si : SortItem) : SortItem :=
  if decide (position + removed ≤ si_position si)
  then {| si_item := si_item si; si_position := si_position si - removed + added |}
  else si.

(** Drop the removed entries, shift the others, keep the order. *)
Definition reconciled (position removed added : Z) (l : list SortItem) : list SortItem :=
  reconcile_entry position removed added
    <$> filter (λ si, ¬ in_removed_range position removed si) l.

(** The longest prefix, respectively suffix, of the store in which no
    entry is removed by the edit. *)
Definition untouched_prefix (position removed : Z) (l : list SortItem) : Z :=
  Z.of_nat (prefix_length (λ si, ¬ in_removed_range position removed si)
              (λ si, decide (¬ in_removed_range position removed si)) l).

Definition untouched_suffix (position removed : Z) (l : list SortItem) : Z :=
  Z.of_nat (suffix_length (λ si, ¬ in_removed_range position removed si)
              (λ si, decide (¬ in_removed_range position removed si)) l).

(** ** Event lists of the building blocks *)

(** What [gtk_tim2_sort_model_stop_sorting] does when a session is
    registered, and nothing otherwise. *)
Definition stop_events (s : GtkTim2SortModel) : list Event :=
  if sort_cb s =? 0 then []
  else [EvSortFinish; EvSourceRemove (sort_cb s); EvNotify PROP_SORTING].

(** The hint [gtk_tim2_sort_model_resort] passes on. *)
Definition resort_hint (s : GtkTim2SortModel) (already_sorted : Z) : Z :=
  if gtk_tim2_sort_model_is_sorting s then 0 else already_sorted.

Definition resort_events (w : Machine) (already_sorted : Z) : list Event :=
  stop_events (self w) ++
  [EvSortInit (sort_array_get_size (items (self w)));
   EvSortSetAlreadySorted (resort_hint (self w) already_sorted);
   EvIdleAdd (Z.pos (next_source w));
   EvNotify PROP_SORTING].

(** The store after an edit: the reconciled entries, then one entry per
    added backing item, in backing order. *)
Definition store_after (E : Env) (s : GtkTim2SortModel) (position removed added : Z)
  : list SortItem :=
  reconciled position removed added (items s)
    ++ (backing_entry E (model s) <$> seqZ position added).

(** An edit restarts the sort when it adds items or interrupts a sort. *)
Definition edit_restarts (s : GtkTim2SortModel) (added : Z) : bool :=
  (0 <? added) || gtk_tim2_sort_model_is_sorting s.

(** ** Invariant of the object *)

(** While sorting is enabled the store is populated over the backing
    sequence; otherwise it is empty. *)
Definition model_inv (E : Env) (s : GtkTim2SortModel) : Prop :=
  if gtk_tim2_sort_model_should_sort E s
  then store_ok (gtk_tim2_sort_model_get_n_items E s) (items s)
  else items s = [].

(** The store is empty, or it has one entry per backing item with
    distinct positions in range. *)
Definition store_consistent (E : Env) (s : GtkTim2SortModel) : Prop :=
  items s = [] ∨ store_ok (gtk_tim2_sort_model_get_n_items E s) (items s).

(** ** Public operations *)

Inductive Op :=
| OpNew (new_model : option GListModel) (new_sorter : option GtkSorter)
| OpSetModel (new_model : option GListModel)
| OpSetSorter (new_sorter : option GtkSorter)
| OpSorterChanged
| OpItemsChanged (position removed added : Z).

(** The "changed" handler is connected to the sorter the object holds. *)
Definition run_op (E : Env) (op : Op) (w : Machine) : option Machine :=
  match op with
  | OpNew m srt => Some (gtk_tim2_sort_model_new E m srt)
  | OpSetModel m => Some (gtk_tim2_sort_model_set_model E m w)
  | OpSetSorter srt => Some (gtk_tim2_sort_model_set_sorter E srt w)
  | OpSorterChanged =>
    match sorter (self w) with
    | Some srt => Some (gtk_tim2_sort_model_sorter_changed_cb E srt w)
    | None => Some w
    end
  | OpItemsChanged position removed added =>
    gtk_tim2_sort_model_items_changed_cb E position removed added w
  end.

(** The machine an operation starts from: construction starts afresh. *)
Definition op_start (op : Op) (w : Machine) : Machine :=
  match op with
  | OpNew _ _ => gtk_tim2_sort_model_init
  | _ => w
  end.

Definition same_lists (E0 E : Env) : Prop :=
  ∀ m, g_list_model_contents E0 m = g_list_model_contents E m.

Definition same_orders (E0 E : Env) : Prop :=
  ∀ srt, gtk_sorter_get_order E0 srt = gtk_sorter_get_order E srt.

(** How the collaborators may have changed from [E0] when the operation
    runs in [E]: the accessors are called out of the blue, "changed"
    follows a change of the sorter, "items-changed" follows an edit of the
    backing sequence. *)
Definition env_step (E0 E : Env) (op : Op) (s : GtkTim2SortModel) : Prop :=
  match op with
  | OpNew _ _ => True
  | OpSetModel _ | OpSetSorter _ => same_lists E0 E ∧ same_orders E0 E
  | OpSorterChanged => same_lists E0 E
  | OpItemsChanged position removed added =>
    same_orders E0 E ∧
    edit_ok (gtk_tim2_sort_model_get_n_items E0 s) position removed added ∧
    gtk_tim2_sort_model_get_n_items E s
      = gtk_tim2_sort_model_get_n_items E0 s - removed + added
  end.

(** The invariant held before the collaborators changed. *)
Definition op_pre (E : Env) (op : Op) (w : Machine) : Prop :=
  match op with
  | OpNew _ _ => True
  | _ => ∃ E0, env_step E0 E op (self w) ∧ model_inv E0 (self w)
  end.

(** ** Sort sessions along a trace *)

(** No session, a session over the array as it is, or a session whose
    array has grown since it was initialised. *)
Inductive Session := Idle | Running | Outdated.

(** One event.  [None] breaks the discipline: a session registered or
    initialised over another one, the array cleared, overwritten or cut
    under a session, a step of a session that is out of date.  With
    [strict], appending under a session breaks it too. *)
Definition session_step (strict : bool) (st : Session) (e : Event) : option Session :=
  match e with
  | EvIdleAdd _ =>
    match st with Idle => Some Running | _ => None end
  | EvSortInit _ =>
    match st with Idle => Some Idle | _ => None end
  | EvSourceRemove _ => Some Idle
  | EvStoreAppend =>
    match st with
    | Idle => Some Idle
    | _ => if strict then None else Some Outdated
    end
  | EvStoreClear | EvStoreWrite _ | EvStoreSetSize _ =>
    match st with Idle => Some Idle | _ => None end
  | EvSortStep =>
    match st with Outdated => None | _ => Some st end
  | _ => Some st
  end.

Fixpoint session_run (strict : bool) (st : Session) (tr : list Event) : option Session :=
  match tr with
  | [] => Some st
  | e :: tr' =>
    match session_step strict st e with
    | Some st' => session_run strict st' tr'
    | None => None
    end
  end.

Definition session_of (s : GtkTim2SortModel) : Session :=
  if gtk_tim2_sort_model_is_sorting s then Running else Idle.

(** The session state agrees with [self->sort_cb]. *)
Definition tracks (st : Session) (s : GtkTim2SortModel) : Prop :=
  st = Idle ↔ sort_cb s = 0.

(** Events that start, stop or drive a sort session. *)
Definition session_event (e : Event) : Prop :=
  match e with
  | EvIdleAdd _ | EvSourceRemove _ | EvSortInit _ | EvSortSetAlreadySorted _
  | EvSortFinish | EvSortStep => True
  | _ => False
  end.

(** Events that neither touch the array nor a session's registration. *)
Definition neutral_event (e : Event) : Prop :=
  match e with
  | EvItemsChanged _ _ _ | EvNotify _ | EvRef _ | EvUnref _ | EvConnect _
  | EvDisconnect _ | EvSortSetAlreadySorted _ | EvSortFinish => True
  | _ => False
  end.

(** The way from [w] to [w'] keeps the discipline, taking the session
    from [st] to [st'], and [st'] agrees with [w']. *)
Definition run_from (strict : bool) (w w' : Machine) (st st' : Session) : Prop :=
  ∃ es, trace w' = trace w ++ es ∧
        session_run strict st es = Some st' ∧
        tracks st' (self w').

(** ** The view and its notifications *)

(** What a consumer reads through [get_n_items] and [get_item]. *)
Definition view (E : Env) (s : GtkTim2SortModel) : list (option GObject) :=
  (λ i, (gtk_tim2_sort_model_get_item E s i).1)
    <$> seqZ 0 (gtk_tim2_sort_model_get_n_items E s).

(** A notification [(position, removed, added)] accounts for the step
    from [old] to [new] when everything outside the range it names is
    where it was. *)
Definition notification_covers {A} (old new : list A) (position removed added : Z) : Prop :=
  take (Z.to_nat position) new = take (Z.to_nat position) old ∧
  drop (Z.to_nat (position + added)) new = drop (Z.to_nat (position + removed)) old.

(** The item a backing sequence holds at a position, if any. *)
Definition backing_item (E : Env) (s : GtkTim2SortModel) (position : Z) : option GObject :=
  model s ≫= λ m, g_list_model_get_item E m position.

(** Pass-through forwarding of an edit: the object is untouched and the
    edit is the one notification sent on. *)
Definition forwards_unchanged (E : Env) (position removed added : Z) (w : Machine) : Prop :=
  ∃ w', gtk_tim2_sort_model_items_changed_cb E position removed added w = Some w' ∧
        self w' = self w ∧
        events_since w w' = [EvItemsChanged position removed added].

(** ** A sample environment *)

(** A sort engine for the examples: insertion sort by item address, one
    element per step, starting after the prefix declared sorted. *)
Definition item_key (si : SortItem) : Z := default 0 (si_item si).

Fixpoint insert_sorted (x : SortItem) (l : list SortItem) : list SortItem :=
  match l with
  | [] => [x]
  | y :: l' =>
    if item_key x <? item_key y then x :: y :: l' else y :: insert_sorted x l'
  end.

Definition sample_step (t : GtkTimSort) (l : list SortItem)
  : bool * GtkTimSort * list SortItem :=
  let k := Z.to_nat (ts_already_sorted t) in
  match l !! k with
  | None => (false, t, l)
  | Some x =>
    (true,
     {| ts_size := ts_size t; ts_data := ts_data t;
        ts_already_sorted := ts_already_sorted t + 1; ts_runs := ts_runs t |},
     insert_sorted x (take k l) ++ drop (S k) l)
  end.

(** Every list model holds [l], every sorter reports [o]. *)
Definition sample_env (l : list GObject) (o : GtkSorterOrder) : Env :=
  {| g_list_model_contents := λ _, l;
     gtk_sorter_get_order := λ _, o;
     gtk_tim_sort_step := sample_step |}.

(** The idle source: the callback is dispatched until it asks to be
    removed. *)
Fixpoint run_idle (E : Env) (fuel : nat) (w : Machine) : Machine :=
  match fuel with
  | O => w
  | S fuel' =>
    if sort_cb (self w) =? 0 then w
    else
      let '(w', continue) := gtk_tim2_sort_model_sort_cb E w in
      if continue then run_idle E fuel' w' else w'
  end.

Definition sample_backing : list GObject := [30; 10; 20].

Definition sample_total : Env := sample_env sample_backing GTK_SORTER_ORDER_TOTAL.

(** Model 100 sorted by sorter 200, just constructed. *)
Definition sample_new : Machine := gtk_tim2_sort_model_new sample_total (Some 100) (Some 200).

(** The same once the sort has run to its end. *)
Definition sample_sorted : Machine := run_idle sample_total 8 sample_new.

(** Model 100 without a sorter: pass-through. *)
Definition sample_passthrough : Machine :=
  gtk_tim2_sort_model_new sample_total (Some 100) None.

(** Closed decidable facts, by evaluation. *)
Ltac decide_now := apply (bool_decide_unpack _); vm_compute; exact I.

(** ** The properties and the getters *)

(** The ids of the property enumeration: [PROP_0] is 0 and
    [NUM_PROPERTIES] is 4, and neither names a property. *)
Definition property_of_id (prop_id : Z) : option Property :=
  if prop_id =? 1 then Some PROP_MODEL
  else if prop_id =? 2 then Some PROP_SORTER
  else if prop_id =? 3 then Some PROP_SORTING
  else None.

(** What the [GValue] of one of the three properties holds. *)
Inductive GValue :=
| GValueObject (o : option Z)
| GValueBoolean (b : bool).

Definition gtk_tim2_sort_model_get_model (s : GtkTim2SortModel) : option GListModel :=
  model s.

Definition gtk_tim2_sort_model_get_sorter (s : GtkTim2SortModel) : option GtkSorter :=
  sorter s.

(** [value] is what [g_value_get_object] reads; the [default:] branch
    only warns and leaves the object as it is. *)
Definition gtk_tim2_sort_model_set_property (E : Env) (prop_id : Z) (value : option Z)
    (w : Machine) : Machine :=
  match property_of_id prop_id with
  | Some PROP_MODEL => gtk_tim2_sort_model_set_model E value w
  | Some PROP_SORTER => gtk_tim2_sort_model_set_sorter E value w
  | _ => w
  end.

(** [None]: the [default:] branch warns and writes no value. *)
Definition gtk_tim2_sort_model_get_property (s : GtkTim2SortModel) (prop_id : Z)
  : option GValue :=
  match property_of_id prop_id with
  | Some PROP_MODEL => Some (GValueObject (model s))
  | Some PROP_SORTER => Some (GValueObject (sorter s))
  | Some PROP_SORTING => Some (GValueBoolean (negb (sort_cb s =? 0)))
  | None => None
  end.

(** ** The store against the backing sequence *)

(** What the backing sequence of the object holds; nothing without a
    model. *)
Definition backing_list (E : Env) (s : GtkTim2SortModel) : list GObject :=
  match model s with
  | Some m => g_list_model_contents E m
  | None => []
  end.

(** Every entry holds the item the backing sequence has at the entry's
    position. *)
Definition store_matches (E : Env) (s : GtkTim2SortModel) : Prop :=
  Forall (λ si, si_item si = backing_item E s (si_position si)) (items s).

(** What "items-changed" promises about the backing sequence: outside the
    range it names, every item is where it was. *)
Definition env_edit (E0 E : Env) (op : Op) (s : GtkTim2SortModel) : Prop :=
  match op with
  | OpItemsChanged position removed added =>
    notification_covers (backing_list E0 s) (backing_list E s) position removed added
  | _ => True
  end.

(** Before the collaborators changed the invariant held and the entries
    matched the backing sequence. *)
Definition op_pre_matching (E : Env) (op : Op) (w : Machine) : Prop :=
  match op with
  | OpNew _ _ => True
  | _ => ∃ E0, env_step E0 E op (self w) ∧ env_edit E0 E op (self w) ∧
               model_inv E0 (self w) ∧ store_matches E0 (self w)
  end.

(** ** Sessions and their owner *)

(** An idle source is registered only while the object holds a model or a
    sorter. *)
Definition session_held (s : GtkTim2SortModel) : Prop :=
  sort_cb s ≠ 0 → model s ≠ None ∨ sorter s ≠ None.

(** The session is the one [gtk_tim2_sort_model_resort] opens over the
    store as it is now: its size and sorter are the current ones, the
    declared prefix lies inside the array and no run is pending. *)
Definition session_fresh (s : GtkTim2SortModel) : Prop :=
  ts_size (sort s) = sort_array_get_size (items s) ∧
  ts_data (sort s) = sorter s ∧
  0 ≤ ts_already_sorted (sort s) ≤ ts_size (sort s) ∧
  ts_runs (sort s) = [].

(** The session, its registration and the store are as they were. *)
Definition session_untouched (s s' : GtkTim2SortModel) : Prop :=
  sort s' = sort s ∧ sort_cb s' = sort_cb s ∧ items s' = items s.

(** ** More projections of a trace *)

Definition properties_notified (tr : list Event) : list Property :=
  omap (λ e, match e with EvNotify p => Some p | _ => None end) tr.

Definition sources_removed (tr : list Event) : list Z :=
  omap (λ e, match e with EvSourceRemove id => Some id | _ => None end) tr.

(** Everything but a notification of the consumers. *)
Definition silent_event (e : Event) : Prop :=
  match e with
  | EvItemsChanged _ _ _ => False
  | _ => True
  end.

(** The way from [w] to [w'] notifies no consumer. *)
Definition silently (w w' : Machine) : Prop :=
  ∃ es, trace w' = trace w ++ es ∧ Forall silent_event es.

(** The store holds one entry per backing item, in backing order, while
    sorting is enabled, and nothing otherwise. *)
Definition store_in_backing_order (E : Env) (s : GtkTim2SortModel) : Prop :=
  items s = if gtk_tim2_sort_model_should_sort E s
            then backing_entry E (model s) <$> seqZ 0 (gtk_tim2_sort_model_get_n_items E s)
            else [].

(** ** The "sorting" property as a consumer follows it *)

(** The value a consumer holds for "sorting" after a run of events, when
    it held [b] before and flips it on every notification of the
    property (a boolean has nowhere else to go). *)
Definition sorting_after (b : bool) (tr : list Event) : bool :=
  foldl (λ b e, match e with EvNotify PROP_SORTING => negb b | _ => b end) b tr.

(** Every event but the notification of "sorting". *)
Definition plain_event (e : Event) : Prop :=
  match e with
  | EvNotify PROP_SORTING => False
  | _ => True
  end.

(** On the way from [w] to [w'] the notifications of "sorting" account
    for every change of its value. *)
Definition announces_sorting (w w' : Machine) : Prop :=
  ∃ es, trace w' = trace w ++ es ∧
        sorting_after (gtk_tim2_sort_model_is_sorting (self w)) es
        = gtk_tim2_sort_model_is_sorting (self w').

(** The sample backing sequence with its middle item replaced. *)
Definition sample_replaced : Env := sample_env [30; 40; 20] GTK_SORTER_ORDER_TOTAL.

(** ** References and signal connections *)

(** The calls of a trace that take or drop a reference or a signal
    connection, in program order. *)
Definition bookkeeping (tr : list Event) : list Event :=
  omap (λ e, match e with
             | EvRef _ | EvUnref _ | EvConnect _ | EvDisconnect _ => Some e
             | _ => None
             end) tr.

(** Letting go of a collaborator: its handler is disconnected and its
    reference dropped, then every item of the store is released. *)
Definition let_go (o : option Z) (s : GtkTim2SortModel) : list Event :=
  match o with
  | Some x => [EvDisconnect x; EvUnref x] ++ (EvUnref <$> omap si_item (items s))
  | None => []
  end.

(** Taking hold of a collaborator: a reference, then the connection. *)
Definition take_hold (o : option Z) : list Event :=
  match o with
  | Some x => [EvRef x; EvConnect x]
  | None => []
  end.

(** The way from [w] to [w'] touches no reference and no connection. *)
Definition unbound (w w' : Machine) : Prop :=
  ∃ es, trace w' = trace w ++ es ∧ bookkeeping es = [].

(** * Proofs *)

(** ** Arithmetic *)

Lemma u32_small z : 0 ≤ z < guint_modulus → u32 z = z.
Proof. intros H. unfold u32. apply Z.mod_small. exact H. Qed.

Lemma u32_sub_add z r a :
  0 ≤ z - r + a < guint_modulus → u32 (u32 (z - r) + a) = z - r + a.
Proof.
  intros H. unfold u32. rewrite Zplus_mod_idemp_l. apply Z.mod_small. exact H.
Qed.

(** ** Lists as arrays *)

Lemma lookup_middle_app {A} (l1 l2 : list A) x :
  (l1 ++ x :: l2) !! length l1 = Some x.
Proof. induction l1 as [|y l1 IH]; simpl; auto. Qed.

Lemma insert_middle_app {A} (l1 l2 : list A) x y :
  <[length l1 := y]> (l1 ++ x :: l2) = l1 ++ y :: l2.
Proof. induction l1 as [|z l1 IH]; simpl; [reflexivity | by rewrite IH]. Qed.

Lemma filter_length_fmap {A B} (f : A → B) (P : A → Prop) (Q : B → Prop)
    `{∀ x, Decision (P x)} `{∀ y, Decision (Q y)} (l : list A) :
  (∀ x, P x ↔ Q (f x)) →
  length (filter P l) = length (filter Q (f <$> l)).
Proof.
  intros HPQ. induction l as [|x l IH]; [reflexivity|].
  rewrite fmap_cons, !filter_cons.
  destruct (decide (P x)) as [HP|HP], (decide (Q (f x))) as [HQ|HQ]; simpl.
  - by rewrite IH.
  - by apply HPQ in HP.
  - by apply HPQ in HQ.
  - exact IH.
Qed.

Lemma filter_all {A} (P : A → Prop) `{∀ x, Decision (P x)} (l : list A) :
  Forall P l → filter P l = l.
Proof.
  induction 1 as [|x l Hx _ IH]; [reflexivity|].
  by rewrite filter_cons_True, IH.
Qed.

Lemma filter_none {A} (P : A → Prop) `{∀ x, Decision (P x)} (l : list A) :
  Forall (λ x, ¬ P x) l → filter P l = [].
Proof.
  induction 1 as [|x l Hx _ IH]; [reflexivity|].
  by rewrite filter_cons_False, IH.
Qed.

(** ** Traces *)

Lemma events_since_app w w' es :
  trace w' = trace w ++ es → events_since w w' = es.
Proof. intros H. unfold events_since. rewrite H. apply drop_app_length. Qed.

Lemma quiet_sessions es : Forall quiet_event es → sessions_started es = [].
Proof.
  induction 1 as [|e es He _ IH]; [reflexivity|].
  unfold sessions_started in *. destruct e; simpl in *; try contradiction; exact IH.
Qed.

Lemma quiet_notifications es : Forall quiet_event es → notifications es = [].
Proof.
  induction 1 as [|e es He _ IH]; [reflexivity|].
  unfold notifications in *. destruct e; simpl in *; try contradiction; exact IH.
Qed.

Lemma released_app es1 es2 : released (es1 ++ es2) = released es1 ++ released es2.
Proof. unfold released. apply omap_app. Qed.

Lemma released_clear_events si : released (sort_item_clear_events si) = option_list (si_item si).
Proof. unfold sort_item_clear_events. by destruct (si_item si). Qed.

Lemma quiet_clear_events si : Forall quiet_event (sort_item_clear_events si).
Proof.
  unfold sort_item_clear_events. destruct (si_item si); repeat constructor.
Qed.

(** ** Leading and trailing runs *)

Section Runs.

Context {A : Type} (P : A → Prop) (dec : ∀ x, Decision (P x)).

Lemma prefix_length_le l : (prefix_length P dec l ≤ length l)%nat.
Proof.
  induction l as [|x l IH]; simpl; [lia|]. destruct (dec x); simpl; lia.
Qed.

Lemma prefix_length_all l : Forall P l → prefix_length P dec l = length l.
Proof.
  induction 1 as [|x l Hx _ IH]; simpl; [reflexivity|].
  destruct (dec x); [by rewrite IH | contradiction].
Qed.

Lemma prefix_length_cons x l :
  prefix_length P dec (x :: l) = if dec x then S (prefix_length P dec l) else O.
Proof. reflexivity. Qed.

Lemma prefix_length_app l1 l2 :
  prefix_length P dec (l1 ++ l2)
  = if decide (Forall P l1) then (length l1 + prefix_length P dec l2)%nat
    else prefix_length P dec l1.
Proof.
  induction l1 as [|x l1 IH].
  - destruct (decide (Forall P [])) as [_|Hn]; [reflexivity|]. by destruct Hn.
  - rewrite <- app_comm_cons, !prefix_length_cons, IH.
    destruct (dec x) as [Hx|Hx], (decide (Forall P l1)) as [Hl|Hl],
      (decide (Forall P (x :: l1))) as [Hxl|Hxl]; try reflexivity.
    + exfalso. apply Hxl. by constructor.
    + exfalso. apply Hl. by apply Forall_cons in Hxl as [_ ?].
    + exfalso. apply Hx. by apply Forall_cons in Hxl as [? _].
    + exfalso. apply Hx. by apply Forall_cons in Hxl as [? _].
Qed.

Lemma suffix_length_le l : (suffix_length P dec l ≤ length l)%nat.
Proof.
  unfold suffix_length. rewrite <- (length_reverse l). apply prefix_length_le.
Qed.

Lemma suffix_length_all l : Forall P l → suffix_length P dec l = length l.
Proof.
  intros Hl. unfold suffix_length. rewrite <- (length_reverse l).
  by apply prefix_length_all, Forall_reverse.
Qed.

Lemma suffix_length_cons x l :
  suffix_length P dec (x :: l)
  = if decide (Forall P l)
    then (if dec x then S (length l) else length l)
    else suffix_length P dec l.
Proof.
  unfold suffix_length. rewrite reverse_cons, prefix_length_app.
  destruct (decide (Forall P (reverse l))) as [Hr|Hr], (decide (Forall P l)) as [Hl|Hl].
  - rewrite length_reverse, prefix_length_cons. destruct (dec x); simpl; lia.
  - exfalso. by apply Hl, Forall_reverse.
  - exfalso. by apply Hr, Forall_reverse.
  - reflexivity.
Qed.

(** How the two bands the scan tracks move over one more entry. *)
Lemma start_over_kept x l (s0 : Z) (lp : nat) :
  P x →
  (if decide (Forall P l) then s0
   else Z.min s0 (Z.of_nat (S lp + prefix_length P dec l)))
  = (if decide (Forall P (x :: l)) then s0
     else Z.min s0 (Z.of_nat (lp + prefix_length P dec (x :: l)))).
Proof.
  intros Hx. rewrite prefix_length_cons.
  destruct (dec x) as [_|Hn]; [|contradiction].
  destruct (decide (Forall P l)) as [Hl|Hl], (decide (Forall P (x :: l))) as [Hxl|Hxl].
  - reflexivity.
  - exfalso. apply Hxl. by constructor.
  - exfalso. apply Hl. by apply Forall_cons in Hxl as [_ ?].
  - f_equal. lia.
Qed.

Lemma end_over_kept x l (e0 : Z) :
  P x →
  (if decide (Forall P l) then e0 else Z.of_nat (suffix_length P dec l))
  = (if decide (Forall P (x :: l)) then e0
     else Z.of_nat (suffix_length P dec (x :: l))).
Proof.
  intros Hx. rewrite suffix_length_cons.
  destruct (decide (Forall P l)) as [Hl|Hl], (decide (Forall P (x :: l))) as [Hxl|Hxl].
  - reflexivity.
  - exfalso. apply Hxl. by constructor.
  - exfalso. apply Hl. by apply Forall_cons in Hxl as [_ ?].
  - reflexivity.
Qed.

Lemma start_over_dropped x l (s0 : Z) (lp : nat) :
  ¬ P x →
  (if decide (Forall P l) then Z.min s0 (Z.of_nat lp)
   else Z.min (Z.min s0 (Z.of_nat lp)) (Z.of_nat (lp + prefix_length P dec l)))
  = (if decide (Forall P (x :: l)) then s0
     else Z.min s0 (Z.of_nat (lp + prefix_length P dec (x :: l)))).
Proof.
  intros Hx. rewrite prefix_length_cons.
  destruct (dec x) as [Hp|_]; [contradiction|].
  destruct (decide (Forall P (x :: l))) as [Hxl|_].
  { exfalso. apply Hx. by apply Forall_cons in Hxl as [? _]. }
  destruct (decide (Forall P l)); lia.
Qed.

Lemma end_over_dropped x l (e0 : Z) :
  ¬ P x →
  (if decide (Forall P l) then Z.of_nat (length l)
   else Z.of_nat (suffix_length P dec l))
  = (if decide (Forall P (x :: l)) then e0
     else Z.of_nat (suffix_length P dec (x :: l))).
Proof.
  intros Hx. rewrite suffix_length_cons.
  destruct (dec x) as [Hp|_]; [contradiction|].
  destruct (decide (Forall P (x :: l))) as [Hxl|_].
  { exfalso. apply Hx. by apply Forall_cons in Hxl as [? _]. }
  by destruct (decide (Forall P l)).
Qed.

End Runs.

Lemma prefix_length_iff {A} (P Q : A → Prop) (dP : ∀ x, Decision (P x))
    (dQ : ∀ x, Decision (Q x)) (l : list A) :
  (∀ x, P x ↔ Q x) → prefix_length P dP l = prefix_length Q dQ l.
Proof.
  intros HPQ. induction l as [|x l IH]; simpl; [reflexivity|].
  destruct (dP x) as [Hp|Hp], (dQ x) as [Hq|Hq]; try (by rewrite IH); try reflexivity.
  - by apply HPQ in Hp.
  - by apply HPQ in Hq.
Qed.

Lemma suffix_length_iff {A} (P Q : A → Prop) (dP : ∀ x, Decision (P x))
    (dQ : ∀ x, Decision (Q x)) (l : list A) :
  (∀ x, P x ↔ Q x) → suffix_length P dP l = suffix_length Q dQ l.
Proof. intros HPQ. unfold suffix_length. by apply prefix_length_iff. Qed.

Section Bands.

Context {A B : Type} (P : A → Prop) (dec : ∀ x, Decision (P x)) (f : A → B).

Lemma prefix_length_filter l :
  (prefix_length P dec l ≤ length (filter P l))%nat.
Proof.
  induction l as [|x l IH]; [reflexivity|].
  rewrite prefix_length_cons, filter_cons.
  destruct (dec x) as [Hx|Hx], (decide (P x)) as [Hx'|Hx']; simpl; try lia; contradiction.
Qed.

Lemma suffix_length_filter l :
  (suffix_length P dec l ≤ length (filter P l))%nat.
Proof.
  unfold suffix_length. rewrite <- (length_reverse (filter P l)), <- filter_reverse.
  apply prefix_length_filter.
Qed.

(** The first element that fails [P], after the leading run. *)
Lemma prefix_split l :
  ¬ Forall P l →
  ∃ pre x rest, l = pre ++ x :: rest ∧ Forall P pre ∧ ¬ P x ∧
                prefix_length P dec l = length pre.
Proof.
  induction l as [|y l IH]; intros Hn; [by destruct Hn|].
  rewrite prefix_length_cons. destruct (dec y) as [Hy|Hy].
  - destruct IH as (pre & x & rest & -> & Hpre & Hx & Hk).
    { intros Hl. apply Hn. by constructor. }
    exists (y :: pre), x, rest. split_and!; [done | by constructor | done |].
    simpl. by rewrite Hk.
  - by exists [], y, l.
Qed.

(** The last element that fails [P], before the trailing run. *)
Lemma suffix_split l :
  ¬ Forall P l →
  ∃ rest y suf, l = rest ++ y :: suf ∧ Forall P suf ∧ ¬ P y ∧
                suffix_length P dec l = length suf.
Proof.
  intros Hn.
  destruct (prefix_split (reverse l)) as (pre & x & rest & Hrev & Hpre & Hx & Hk).
  { intros Hl. by apply Hn, Forall_reverse. }
  exists (reverse rest), x, (reverse pre). split_and!.
  - rewrite <- (reverse_involutive l), Hrev, reverse_app, reverse_cons.
    by rewrite <- app_assoc.
  - by apply Forall_reverse.
  - exact Hx.
  - unfold suffix_length. by rewrite Hk, length_reverse.
Qed.

(** When some element fails [P], the two runs are apart, filtering
    leaves them in place at both ends, and they are what [l] and its
    filtering share there. *)
Lemma bands_cover l :
  ¬ Forall P l →
  (prefix_length P dec l + suffix_length P dec l ≤ length (filter P l))%nat ∧
  take (prefix_length P dec l) (f <$> filter P l)
    = take (prefix_length P dec l) (f <$> l) ∧
  drop (length (filter P l) - suffix_length P dec l) (f <$> filter P l)
    = drop (length l - suffix_length P dec l) (f <$> l).
Proof.
  intros Hn. split_and!.
  - destruct (prefix_split l Hn) as (pre & x & rest & -> & Hpre & Hx & Hk).
    rewrite Hk, filter_app, (filter_all P pre Hpre), filter_cons_False, length_app
      by exact Hx.
    assert (suffix_length P dec (pre ++ x :: rest) ≤ length (filter P rest))%nat; [|lia].
    unfold suffix_length. rewrite reverse_app, prefix_length_app.
    destruct (decide (Forall P (reverse (x :: rest)))) as [Hall|_].
    { exfalso. apply Forall_reverse, Forall_cons in Hall as [? _]. contradiction. }
    fold (suffix_length P dec (x :: rest)). rewrite suffix_length_cons.
    destruct (decide (Forall P rest)) as [Hr|_].
    + destruct (dec x); [contradiction|]. by rewrite (filter_all P rest Hr).
    + apply suffix_length_filter.
  - destruct (prefix_split l Hn) as (pre & x & rest & -> & Hpre & Hx & Hk).
    rewrite Hk, filter_app, (filter_all P pre Hpre), !fmap_app.
    by rewrite !take_app_length' by (by rewrite length_fmap).
  - destruct (suffix_split l Hn) as (rest & y & suf & -> & Hsuf & Hy & He).
    rewrite He, filter_app, filter_cons_False, (filter_all P suf Hsuf) by exact Hy.
    rewrite !length_app, !fmap_app. simpl length.
    rewrite drop_app_length' by (rewrite length_fmap; lia).
    rewrite fmap_cons, cons_middle, app_assoc.
    by rewrite drop_app_length' by (rewrite length_app, length_fmap; simpl; lia).
Qed.

End Bands.

(** ** The scan of [gtk_tim2_sort_model_remove_items] *)

Lemma frame_refl w : frame w w.
Proof. by repeat split. Qed.

Lemma frame_trans w1 w2 w3 : frame w1 w2 → frame w2 w3 → frame w1 w3.
Proof.
  intros (?&?&?&?&?) (?&?&?&?&?). repeat split; congruence.
Qed.

Lemma remove_items_keep_spec i x w acc pre junk rest :
  items (self w) = pre ++ junk ++ x :: rest →
  i = Z.of_nat (length pre + length junk) →
  sc_valid acc = Z.of_nat (length pre) →
  Z.of_nat (length pre) + 1 < guint_modulus →
  ∃ junk' es,
    items (self (sc_w (remove_items_keep i x w acc))) = (pre ++ [x]) ++ junk' ++ rest ∧
    length junk' = length junk ∧
    sc_valid (remove_items_keep i x w acc) = Z.of_nat (length (pre ++ [x])) ∧
    trace (sc_w (remove_items_keep i x w acc)) = trace w ++ es ∧
    Forall quiet_event es ∧ released es = [] ∧
    frame w (sc_w (remove_items_keep i x w acc)).
Proof.
  intros Hitems -> Hvalid Hbound.
  assert (Hv : u32 (Z.of_nat (length pre) + 1) = Z.of_nat (length (pre ++ [x]))).
  { rewrite length_app, u32_small; simpl; lia. }
  unfold remove_items_keep. simpl. rewrite Hvalid.
  destruct (Z.ltb_spec (Z.of_nat (length pre)) (Z.of_nat (length pre + length junk)))
    as [Hlt|Hge].
  - destruct junk as [|j0 jt]; [simpl in Hlt; lia|].
    exists (jt ++ [x]), [EvStoreWrite (Z.of_nat (length pre))]. simpl.
    rewrite Nat2Z.id, Hitems. simpl. rewrite insert_middle_app.
    split_and!; try done.
    + rewrite <- ?app_assoc. simpl. by rewrite <- ?app_assoc.
    + rewrite length_app. simpl. lia.
    + repeat constructor.
  - destruct junk as [|j0 jt]; [|simpl in Hge; lia].
    exists [], []. simpl. rewrite Hitems, app_nil_r. simpl.
    split_and!; try done.
    by rewrite <- app_assoc.
Qed.

Lemma remove_items_scan n_items position removed added rest :
  ∀ pre junk acc,
  items (self (sc_w acc)) = pre ++ junk ++ rest →
  sc_valid acc = Z.of_nat (length pre) →
  Z.of_nat (length pre + length junk + length rest) < guint_modulus →
  n_items = Z.of_nat (length pre + length junk + length rest) →
  let acc' := foldl (remove_items_body n_items position removed added) acc
                (seqZ (Z.of_nat (length pre + length junk)) (Z.of_nat (length rest))) in
  ∃ junk' es,
    items (self (sc_w acc')) =
      (pre ++ (scan_adjust position removed added
                 <$> filter (scan_keeps position removed) rest)) ++ junk' ∧
    length junk' =
      (length junk + length (filter (λ si, ¬ scan_keeps position removed si) rest))%nat ∧
    sc_valid acc' =
      Z.of_nat (length pre + length (filter (scan_keeps position removed) rest)) ∧
    trace (sc_w acc') = trace (sc_w acc) ++ es ∧
    Forall quiet_event es ∧
    released es = omap si_item (filter (λ si, ¬ scan_keeps position removed si) rest) ∧
    frame (sc_w acc) (sc_w acc') ∧
    sc_start acc' =
      (if decide (Forall (scan_keeps position removed) rest) then sc_start acc
       else Z.min (sc_start acc)
              (Z.of_nat (length pre + prefix_length (scan_keeps position removed) _ rest))) ∧
    sc_end acc' =
      (if decide (Forall (scan_keeps position removed) rest) then sc_end acc
       else Z.of_nat (suffix_length (scan_keeps position removed) _ rest)).
Proof.
  induction rest as [|si rest IH]; intros pre junk acc Hitems Hvalid Hbound Htot acc'.
  - subst acc'. simpl. exists junk, []. rewrite !app_nil_r in *.
    split_and!; try done; simpl; lia.
  - subst acc'. rewrite seqZ_cons by (simpl; lia).
    replace (Z.pred (Z.of_nat (length (si :: rest)))) with (Z.of_nat (length rest))
      by (simpl; lia).
    change (foldl ?f ?a (?x :: ?l)) with (foldl f (f a x) l).
    set (i := Z.of_nat (length pre + length junk)).
    assert (Hlook : items (self (sc_w acc)) !! Z.to_nat i = Some si).
    { subst i. rewrite Nat2Z.id, Hitems, app_assoc, <- length_app.
      apply lookup_middle_app. }
    assert (Hto : Z.to_nat i = length (pre ++ junk)).
    { subst i. by rewrite Nat2Z.id, length_app. }
    destruct (Z.leb_spec (u32 (position + removed)) (si_position si)) as [Hshift|Hnoshift].
    + (* shifted and kept *)
      set (si' := shifted_entry removed added si).
      assert (Hbody : remove_items_body n_items position removed added acc i
                      = remove_items_keep i si' (store_write i si' (sc_w acc)) acc).
      { unfold remove_items_body. rewrite Hlook.
        destruct (Z.leb_spec (u32 (position + removed)) (si_position si)); [done | lia]. }
      rewrite Hbody.
      destruct (remove_items_keep_spec i si' (store_write i si' (sc_w acc)) acc pre junk rest)
        as (junk1 & es1 & Hit1 & Hlen1 & Hv1 & Htr1 & Hq1 & Hrel1 & Hfr1).
      { simpl. rewrite Hto, Hitems, app_assoc, insert_middle_app.
        by rewrite <- app_assoc. }
      { reflexivity. }
      { exact Hvalid. }
      { simpl in Hbound. lia. }
      destruct (IH (pre ++ [si']) junk1 _ Hit1 Hv1)
        as (junk2 & es2 & H1 & H2 & H3 & H4 & H5 & H6 & H7 & H8 & H9).
      { rewrite length_app, Hlen1. simpl in *. lia. }
      { rewrite Htot, length_app, Hlen1. simpl. lia. }
      replace (Z.succ i) with (Z.of_nat (length (pre ++ [si']) + length junk1))
        by (subst i; rewrite length_app, Hlen1; simpl; lia).
      exists junk2, ((EvStoreWrite i :: es1) ++ es2).
      rewrite filter_cons_True by (left; exact Hshift).
      rewrite filter_cons_False by (intros Hn; apply Hn; left; exact Hshift).
      rewrite fmap_cons. unfold scan_adjust at 1. rewrite decide_True by exact Hshift.
      fold si'. split_and!.
      * rewrite H1. by rewrite <- ?app_assoc.
      * rewrite H2, Hlen1. lia.
      * rewrite H3, length_app. simpl. lia.
      * rewrite H4, Htr1. simpl. rewrite <- !app_assoc. reflexivity.
      * apply Forall_app. split; [constructor; [exact I | exact Hq1] | exact H5].
      * rewrite released_app. change (released (EvStoreWrite i :: es1)) with (released es1).
        by rewrite Hrel1, H6.
      * eapply frame_trans; [|exact H7]. eapply frame_trans; [|exact Hfr1].
        by split_and!.
      * rewrite H8. change (sc_start (remove_items_keep _ _ _ acc)) with (sc_start acc).
        replace (length (pre ++ [si'])) with (S (length pre))
          by (rewrite length_app; simpl; lia).
        apply start_over_kept. by left.
      * rewrite H9. change (sc_end (remove_items_keep _ _ _ acc)) with (sc_end acc).
        apply end_over_kept. by left.
    + destruct (Z.leb_spec position (si_position si)) as [Hdrop|Hbelow].
      * (* dropped *)
        set (w1 := store_write i (sort_item_cleared si)
                     (emits (sort_item_clear_events si) (sc_w acc))).
        set (acc1 := {| sc_w := w1; sc_valid := sc_valid acc;
                        sc_start := Z.min (sc_start acc) (sc_valid acc);
                        sc_end := u32 (u32 (n_items - i) - 1) |}).
        assert (Hbody : remove_items_body n_items position removed added acc i = acc1).
        { unfold remove_items_body. rewrite Hlook.
          destruct (Z.leb_spec (u32 (position + removed)) (si_position si)); [lia|].
          destruct (Z.leb_spec position (si_position si)); [done | lia]. }
        rewrite Hbody.
        destruct (IH pre (junk ++ [sort_item_cleared si]) acc1)
          as (junk2 & es2 & H1 & H2 & H3 & H4 & H5 & H6 & H7 & H8 & H9).
        { simpl. rewrite Hto, Hitems, app_assoc, insert_middle_app.
          by rewrite <- ?app_assoc. }
        { exact Hvalid. }
        { rewrite length_app. simpl in *. lia. }
        { rewrite Htot, length_app. simpl. lia. }
        replace (Z.succ i) with
          (Z.of_nat (length pre + length (junk ++ [sort_item_cleared si])))
          by (subst i; rewrite length_app; simpl; lia).
        exists junk2, ((sort_item_clear_events si ++ [EvStoreWrite i]) ++ es2).
        assert (Hnk : ¬ scan_keeps position removed si) by (unfold scan_keeps; lia).
        rewrite filter_cons_False by exact Hnk.
        rewrite filter_cons_True by exact Hnk.
        split_and!.
        -- exact H1.
        -- rewrite H2, length_app. simpl. lia.
        -- exact H3.
        -- rewrite H4. simpl. by rewrite <- ?app_assoc.
        -- apply Forall_app. split; [|exact H5].
           apply Forall_app. split; [apply quiet_clear_events | repeat constructor].
        -- rewrite !released_app, released_clear_events, H6. simpl.
           destruct (si_item si); simpl; by rewrite ?app_nil_r.
        -- eapply frame_trans; [|exact H7]. by repeat split.
        -- rewrite H8. subst acc1. simpl sc_start. rewrite Hvalid.
           by apply start_over_dropped.
        -- rewrite H9. subst acc1. simpl sc_end.
           replace (u32 (u32 (n_items - i) - 1)) with (Z.of_nat (length rest)).
           ++ by apply end_over_dropped.
           ++ subst i. rewrite Htot. simpl length in *.
              replace (Z.of_nat (length pre + length junk + S (length rest))
                       - Z.of_nat (length pre + length junk))
                with (Z.of_nat (S (length rest))) by lia.
              rewrite (u32_small (Z.of_nat (S (length rest)))) by lia.
              rewrite u32_small by lia. lia.
      * (* below the edit: kept as it is *)
        assert (Hbody : remove_items_body n_items position removed added acc i
                        = remove_items_keep i si (sc_w acc) acc).
        { unfold remove_items_body. rewrite Hlook.
          destruct (Z.leb_spec (u32 (position + removed)) (si_position si)); [lia|].
          destruct (Z.leb_spec position (si_position si)); [lia | done]. }
        rewrite Hbody.
        destruct (remove_items_keep_spec i si (sc_w acc) acc pre junk rest)
          as (junk1 & es1 & Hit1 & Hlen1 & Hv1 & Htr1 & Hq1 & Hrel1 & Hfr1).
        { exact Hitems. }
        { reflexivity. }
        { exact Hvalid. }
        { simpl in Hbound. lia. }
        destruct (IH (pre ++ [si]) junk1 _ Hit1 Hv1)
          as (junk2 & es2 & H1 & H2 & H3 & H4 & H5 & H6 & H7 & H8 & H9).
        { rewrite length_app, Hlen1. simpl in *. lia. }
        { rewrite Htot, length_app, Hlen1. simpl. lia. }
        replace (Z.succ i) with (Z.of_nat (length (pre ++ [si]) + length junk1))
          by (subst i; rewrite length_app, Hlen1; simpl; lia).
        exists junk2, (es1 ++ es2).
        rewrite filter_cons_True by (right; exact Hbelow).
        rewrite filter_cons_False by (intros Hn; apply Hn; right; exact Hbelow).
        rewrite fmap_cons. unfold scan_adjust at 1. rewrite decide_False by lia.
        split_and!.
        -- rewrite H1. by rewrite <- ?app_assoc.
        -- rewrite H2, Hlen1. lia.
        -- rewrite H3, length_app. simpl. lia.
        -- rewrite H4, Htr1. by rewrite <- ?app_assoc.
        -- apply Forall_app. by split.
        -- rewrite released_app. by rewrite Hrel1, H6.
        -- eapply frame_trans; [exact Hfr1|exact H7].
        -- rewrite H8. change (sc_start (remove_items_keep _ _ _ acc)) with (sc_start acc).
           replace (length (pre ++ [si])) with (S (length pre))
             by (rewrite length_app; simpl; lia).
           apply start_over_kept. by right.
        -- rewrite H9. change (sc_end (remove_items_keep _ _ _ acc)) with (sc_end acc).
           apply end_over_kept. by right.
Qed.

Lemma zero_items_no_events k :
  replicate k zero_item ≫= sort_item_clear_events = [].
Proof. induction k as [|k IH]; [reflexivity | exact IH]. Qed.

(** When the count the assertion checks is right, the function returns
    with the kept entries, adjusted, as the whole array. *)
Lemma remove_items_run position removed added w :
  let l := items (self w) in
  Z.of_nat (length l) < guint_modulus →
  0 ≤ removed ≤ Z.of_nat (length l) →
  Z.of_nat (length (filter (scan_keeps position removed) l))
    = Z.of_nat (length l) - removed →
  ∃ w' start end_ es,
    gtk_tim2_sort_model_remove_items position removed added w = Some (w', start, end_) ∧
    items (self w') =
      scan_adjust position removed added <$> filter (scan_keeps position removed) l ∧
    trace w' = trace w ++ es ∧
    Forall quiet_event es ∧
    released es = omap si_item (filter (λ si, ¬ scan_keeps position removed si) l) ∧
    frame w w' ∧
    start = Z.of_nat (prefix_length (scan_keeps position removed) _ l) ∧
    end_ = Z.of_nat (suffix_length (scan_keeps position removed) _ l).
Proof.
  intros l Hlen Hrem Hcount.
  unfold gtk_tim2_sort_model_remove_items, sort_array_get_size. fold l.
  rewrite (u32_small (Z.of_nat (length l))) by lia.
  set (acc0 := {| sc_w := w; sc_valid := 0;
                  sc_start := Z.of_nat (length l); sc_end := Z.of_nat (length l) |}).
  destruct (remove_items_scan (Z.of_nat (length l)) position removed added l [] [] acc0)
    as (junk & es & Hit & Hjunk & Hvalid & Htr & Hq & Hrel & Hfr & Hstart & Hend);
    [done | done | simpl; lia | simpl; lia |].
  simpl in Hit, Hjunk, Hvalid, Htr, Hfr, Hstart, Hend.
  set (acc := foldl _ acc0 _) in *.
  set (kept := filter (scan_keeps position removed) l) in *.
  rewrite u32_small by lia.
  rewrite Hvalid, Hcount, Z.eqb_refl.
  assert (Hjl : Z.of_nat (length junk) = removed).
  { assert (Hsame : length (items (self (sc_w acc))) = length l).
    { rewrite Hit, length_app, length_fmap, Hjunk.
      pose proof (Permutation_length (filter_app_complement (scan_keeps position removed) l))
        as Hp.
      rewrite length_app in Hp. fold kept in Hp. lia. }
    rewrite Hit, length_app, length_fmap in Hsame. lia. }
  assert (Hv : Z.to_nat (Z.of_nat (length l) - removed)
               = length (scan_adjust position removed added <$> kept)).
  { rewrite length_fmap. lia. }
  eexists _, _, _, (es ++ [EvStoreWrite (Z.of_nat (length l) - removed);
                           EvStoreSetSize (Z.of_nat (length l) - removed)]).
  split; [reflexivity|].
  unfold sort_array_set_size, memset_zero. simpl. rewrite Hit, Hv.
  rewrite !take_app_length.
  rewrite drop_app_length.
  rewrite (drop_ge (_ ++ junk)) by (rewrite length_app; lia).
  rewrite app_nil_r, zero_items_no_events, app_nil_r.
  split_and!.
  - reflexivity.
  - rewrite Htr. by rewrite <- !app_assoc.
  - apply Forall_app. split; [exact Hq | repeat constructor].
  - rewrite released_app, Hrel. simpl. by rewrite app_nil_r.
  - destruct Hfr as (?&?&?&?&?). by split_and!.
  - rewrite Hstart. destruct (decide (Forall (scan_keeps position removed) l)) as [Hall|_].
    + by rewrite prefix_length_all.
    + pose proof (prefix_length_le (scan_keeps position removed) _ l). lia.
  - rewrite Hend. destruct (decide (Forall (scan_keeps position removed) l)) as [Hall|_].
    + by rewrite suffix_length_all.
    + reflexivity.
Qed.

(** ** The scan against the specification *)

(** The positions of a populated store are exactly [0 .. n-1]. *)
Lemma store_positions_Permutation n l :
  store_ok n l → si_position <$> l ≡ₚ seqZ 0 n.
Proof.
  intros (Hlen & Hnd & Hrange).
  apply submseteq_length_Permutation.
  - apply NoDup_submseteq; [exact Hnd|].
    intros x (si & -> & Hsi)%list_elem_of_fmap.
    rewrite Forall_forall in Hrange. apply elem_of_seqZ. specialize (Hrange si Hsi). lia.
  - rewrite length_seqZ, length_fmap. lia.
Qed.

(** Hence an edit inside the sequence hits exactly [removed] entries. *)
Lemma removed_range_count n position removed l :
  store_ok n l → 0 ≤ position → 0 ≤ removed → position + removed ≤ n →
  Z.of_nat (length (filter (in_removed_range position removed) l)) = removed.
Proof.
  intros Hok Hp Hr Hn.
  rewrite (filter_length_fmap si_position _ (λ x, position ≤ x < position + removed))
    by reflexivity.
  rewrite (store_positions_Permutation n l Hok).
  replace n with (position + (removed + (n - position - removed))) by lia.
  rewrite seqZ_app, seqZ_app, !filter_app by lia.
  rewrite (filter_none _ (seqZ 0 position)) by (apply Forall_seqZ; lia).
  rewrite (filter_all _ (seqZ (0 + position) removed)) by (apply Forall_seqZ; lia).
  rewrite (filter_none _ (seqZ _ (n - position - removed))) by (apply Forall_seqZ; lia).
  rewrite app_nil_r. simpl. rewrite length_seqZ. lia.
Qed.

Lemma kept_count n position removed l :
  store_ok n l → 0 ≤ position → 0 ≤ removed → position + removed ≤ n →
  Z.of_nat (length (filter (λ si, ¬ in_removed_range position removed si) l))
    = n - removed.
Proof.
  intros Hok Hp Hr Hn.
  pose proof (removed_range_count n position removed l Hok Hp Hr Hn) as Hc.
  pose proof (Permutation_length
    (filter_app_complement (in_removed_range position removed) l)) as Hperm.
  rewrite length_app in Hperm. destruct Hok as (Hlen & _). lia.
Qed.

Lemma scan_keeps_spec n position removed added si :
  edit_ok n position removed added →
  scan_keeps position removed si ↔ ¬ in_removed_range position removed si.
Proof.
  intros (?&?&?&?&?&?). unfold scan_keeps, in_removed_range.
  rewrite u32_small by lia. lia.
Qed.

Lemma scan_adjust_spec n position removed added si :
  edit_ok n position removed added → 0 ≤ si_position si < n →
  scan_adjust position removed added si = reconcile_entry position removed added si.
Proof.
  intros (?&?&?&?&?&?) Hsi. unfold scan_adjust, reconcile_entry, shifted_entry.
  rewrite (u32_small (position + removed)) by lia.
  destruct (decide (position + removed ≤ si_position si)); [|reflexivity].
  f_equal. apply u32_sub_add. lia.
Qed.

Lemma scan_result_spec n position removed added l :
  store_ok n l → edit_ok n position removed added →
  scan_adjust position removed added <$> filter (scan_keeps position removed) l
    = reconciled position removed added l.
Proof.
  intros Hok Hedit. unfold reconciled.
  rewrite (list_filter_iff (scan_keeps position removed)
             (λ si, ¬ in_removed_range position removed si))
    by (intros si; eapply scan_keeps_spec; exact Hedit).
  apply Forall_fmap_ext_1.
  destruct Hok as (_ & _ & Hrange).
  rewrite Forall_forall in Hrange |- *.
  intros si (_ & Hsi)%list_elem_of_filter.
  eapply scan_adjust_spec; [exact Hedit | auto].
Qed.

Lemma scan_dropped_spec n position removed added (l : list SortItem) :
  edit_ok n position removed added →
  filter (λ si, ¬ scan_keeps position removed si) l
    = filter (in_removed_range position removed) l.
Proof.
  intros Hedit. apply list_filter_iff. intros si.
  rewrite (scan_keeps_spec n position removed added si Hedit).
  unfold in_removed_range. lia.
Qed.

(** The function on a populated store and an edit of the backing
    sequence: it returns, and the store is the reconciled one. *)
Lemma remove_items_reconciles n position removed added w :
  store_ok n (items (self w)) → edit_ok n position removed added →
  ∃ w' start end_ es,
    gtk_tim2_sort_model_remove_items position removed added w = Some (w', start, end_) ∧
    items (self w') = reconciled position removed added (items (self w)) ∧
    trace w' = trace w ++ es ∧
    Forall quiet_event es ∧
    released es = omap si_item (filter (in_removed_range position removed) (items (self w))) ∧
    frame w w' ∧
    start = untouched_prefix position removed (items (self w)) ∧
    end_ = untouched_suffix position removed (items (self w)).
Proof.
  intros Hok Hedit.
  pose proof Hok as (Hlen & _ & _). pose proof Hedit as (?&?&?&?&?&?).
  destruct (remove_items_run position removed added w)
    as (w' & start & end_ & es & Hrun & Hit & Htr & Hq & Hrel & Hfr & Hstart & Hend).
  - lia.
  - lia.
  - rewrite (list_filter_iff (scan_keeps position removed)
               (λ si, ¬ in_removed_range position removed si))
      by (intros si; eapply scan_keeps_spec; exact Hedit).
    rewrite (kept_count n) by (done || lia). lia.
  - exists w', start, end_, es. split_and!; try done.
    + rewrite Hit. by apply scan_result_spec with n.
    + rewrite Hrel. by rewrite (scan_dropped_spec n position removed added).
    + rewrite Hstart. unfold untouched_prefix. f_equal. apply prefix_length_iff.
      intros si. eapply scan_keeps_spec. exact Hedit.
    + rewrite Hend. unfold untouched_suffix. f_equal. apply suffix_length_iff.
      intros si. eapply scan_keeps_spec. exact Hedit.
Qed.

(** ** The building blocks in closed form *)

Lemma stop_sorting_eq w :
  gtk_tim2_sort_model_stop_sorting w =
  {| self := set_sort_cb_field 0 (self w);
     trace := trace w ++ stop_events (self w);
     next_source := next_source w |}.
Proof.
  destruct w as [[m so t cb l] tr ns].
  unfold gtk_tim2_sort_model_stop_sorting, stop_events, gtk_tim_sort_finish, emit,
    with_self, set_sort_cb_field. simpl.
  destruct (Z.eqb_spec cb 0) as [->|Hne]; simpl.
  - by rewrite app_nil_r.
  - by rewrite <- !app_assoc.
Qed.

Lemma resort_eq already_sorted w :
  gtk_tim2_sort_model_resort already_sorted w =
  {| self :=
       {| model := model (self w); sorter := sorter (self w);
          sort := {| ts_size := sort_array_get_size (items (self w));
                     ts_data := sorter (self w);
                     ts_already_sorted := resort_hint (self w) already_sorted;
                     ts_runs := [] |};
          sort_cb := Z.pos (next_source w);
          items := items (self w) |};
     trace := trace w ++ resort_events w already_sorted;
     next_source := Pos.succ (next_source w) |}.
Proof.
  destruct w as [[m so t cb l] tr ns].
  unfold gtk_tim2_sort_model_resort, resort_events, resort_hint,
    gtk_tim2_sort_model_is_sorting.
  rewrite stop_sorting_eq. unfold stop_events. simpl.
  destruct (Z.eqb_spec cb 0) as [->|Hne]; simpl;
    unfold gtk_tim2_sort_model_start_sorting, gtk_tim_sort_set_already_sorted,
      gtk_tim_sort_init, g_idle_add, emit, with_self; simpl;
    by rewrite <- ?app_assoc.
Qed.

Lemma clear_items_eq w :
  gtk_tim2_sort_model_clear_items w =
  {| self := set_items_field [] (set_sort_cb_field 0 (self w));
     trace := trace w ++ stop_events (self w)
                ++ (items (self w) ≫= sort_item_clear_events) ++ [EvStoreClear];
     next_source := next_source w |}.
Proof.
  unfold gtk_tim2_sort_model_clear_items. rewrite stop_sorting_eq.
  unfold sort_array_clear, emit, emits, with_self. simpl.
  by rewrite <- !app_assoc.
Qed.

Lemma append_loop_eq (f : Z → SortItem) (idx : list Z) w :
  foldl (λ w' i, sort_array_append (f i) w') w idx =
  {| self := set_items_field (items (self w) ++ (f <$> idx)) (self w);
     trace := trace w ++ replicate (length idx) EvStoreAppend;
     next_source := next_source w |}.
Proof.
  revert w. induction idx as [|i idx IH]; intros w.
  - destruct w as [[m so t cb l] tr ns]. unfold set_items_field. simpl.
    by rewrite !app_nil_r.
  - simpl. rewrite IH. unfold sort_array_append, emit, with_self, set_items_field. simpl.
    by rewrite <- !app_assoc.
Qed.

Lemma backing_append_loop_eq (E : Env) (idx : list Z) w :
  foldl (λ w' i, sort_array_append (backing_entry E (model (self w')) i) w') w idx =
  {| self := set_items_field
               (items (self w) ++ (backing_entry E (model (self w)) <$> idx)) (self w);
     trace := trace w ++ replicate (length idx) EvStoreAppend;
     next_source := next_source w |}.
Proof.
  rewrite <- append_loop_eq.
  assert (Hgen : ∀ w0, model (self w0) = model (self w) →
    foldl (λ w' i, sort_array_append (backing_entry E (model (self w')) i) w') w0 idx =
    foldl (λ w' i, sort_array_append (backing_entry E (model (self w)) i) w') w0 idx).
  { induction idx as [|i idx IH]; intros w0 Hm; [reflexivity|].
    simpl. rewrite Hm. apply IH. exact Hm. }
  by apply Hgen.
Qed.

Lemma create_items_eq (E : Env) w :
  gtk_tim2_sort_model_create_items E w =
  if gtk_tim2_sort_model_should_sort E (self w) then
    let n := gtk_tim2_sort_model_get_n_items E (self w) in
    {| self := set_items_field
                 (items (self w) ++ (backing_entry E (model (self w)) <$> seqZ 0 n)) (self w);
       trace := trace w ++ replicate (Z.to_nat n) EvStoreAppend;
       next_source := next_source w |}
  else w.
Proof.
  unfold gtk_tim2_sort_model_create_items.
  destruct (gtk_tim2_sort_model_should_sort E (self w)); simpl; [|reflexivity].
  by rewrite backing_append_loop_eq, length_seqZ.
Qed.

(** ** [gtk_tim2_sort_model_items_changed_cb] in closed form *)

Lemma items_changed_sorting E n position removed added w :
  gtk_tim2_sort_model_should_sort E (self w) = true →
  store_ok n (items (self w)) →
  edit_ok n position removed added →
  ¬ (removed = 0 ∧ added = 0) →
  ∃ es,
    Forall quiet_event es ∧
    released es = omap si_item (filter (in_removed_range position removed) (items (self w))) ∧
    let l' := store_after E (self w) position removed added in
    let restart := edit_restarts (self w) added in
    let hint := if gtk_tim2_sort_model_is_sorting (self w) then 0 else n - removed in
    let start := untouched_prefix position removed (items (self w)) in
    let end_ := untouched_suffix position removed (items (self w)) in
    let n_items := u32 (sort_array_get_size l' - start - end_) in
    gtk_tim2_sort_model_items_changed_cb E position removed added w = Some
      {| self :=
           {| model := model (self w); sorter := sorter (self w);
              sort := if restart
                      then {| ts_size := sort_array_get_size l'; ts_data := sorter (self w);
                              ts_already_sorted := hint; ts_runs := [] |}
                      else sort (self w);
              sort_cb := if restart then Z.pos (next_source w) else 0;
              items := l' |};
         trace := trace w ++ stop_events (self w) ++ es
                    ++ replicate (Z.to_nat added) EvStoreAppend
                    ++ (if restart
                        then [EvSortInit (sort_array_get_size l');
                              EvSortSetAlreadySorted hint;
                              EvIdleAdd (Z.pos (next_source w));
                              EvNotify PROP_SORTING]
                        else [])
                    ++ [EvItemsChanged start (u32 (u32 (n_items - added) + removed)) n_items];
         next_source := if restart then Pos.succ (next_source w) else next_source w |}.
Proof.
  intros Hsort Hok Hedit Hnonempty.
  pose proof Hedit as (Hp & Hr & Ha & Hpr & Hn & Hnew).
  set (w1 := {| self := set_sort_cb_field 0 (self w);
                trace := trace w ++ stop_events (self w);
                next_source := next_source w |}).
  destruct (remove_items_reconciles n position removed added w1 Hok Hedit)
    as (w2 & start0 & end0 & es & Hrun & Hit & Htr & Hq & Hrel & Hfr & Hstart & Hend).
  simpl in Hstart, Hend. subst start0 end0.
  exists es. split; [exact Hq|]. split; [exact Hrel|].
  intros l' restart hint start end_ n_items.
  unfold gtk_tim2_sort_model_items_changed_cb.
  replace ((removed =? 0) && (added =? 0)) with false
    by (symmetry; apply andb_false_iff; rewrite !Z.eqb_neq; lia).
  rewrite Hsort. simpl negb. cbv iota.
  rewrite stop_sorting_eq. fold w1. rewrite Hrun.
  destruct Hfr as (Hm & Hso & Ht & Hcb & Hns).
  destruct w2 as [[m2 so2 t2 cb2 l2] tr2 ns2]. simpl in Hit, Htr, Hm, Hso, Ht, Hcb, Hns.
  subst m2 so2 t2 cb2 l2 tr2 ns2.
  assert (Hlen_rec : sort_array_get_size (reconciled position removed added (items (self w)))
                     = n - removed).
  { unfold sort_array_get_size, reconciled. rewrite length_fmap.
    apply kept_count; (done || lia). }
  subst restart. unfold edit_restarts.
  destruct (Z.ltb_spec 0 added) as [Hadd|Hnoadd].
  - (* items were added: append them and restart *)
    rewrite backing_append_loop_eq. simpl.
    rewrite (u32_small (position + added)) by lia.
    replace (position + added - position) with added by lia.
    fold (store_after E (self w) position removed added). fold l'.
    assert (Hsize : sort_array_get_size l' = n - removed + added).
    { subst l'. unfold store_after, sort_array_get_size in *.
      rewrite length_app, length_fmap, length_seqZ. lia. }
    rewrite resort_eq. unfold resort_events, resort_hint, stop_events,
      gtk_tim2_sort_model_is_sorting. simpl.
    rewrite Hsize.
    replace (n - removed + added - added) with (n - removed) by lia.
    rewrite (u32_small (n - removed)) by lia.
    rewrite length_seqZ.
    subst hint n_items. unfold gtk_tim2_sort_model_is_sorting, emit. simpl.
    rewrite ?Hsize. f_equal. f_equal. rewrite <- !app_assoc. reflexivity.
  - (* nothing added *)
    assert (added = 0) by lia. subst added.
    assert (Hl' : l' = reconciled position removed 0 (items (self w))).
    { subst l'. unfold store_after. rewrite seqZ_nil by lia. by rewrite app_nil_r. }
    simpl orb.
    destruct (gtk_tim2_sort_model_is_sorting (self w)) eqn:Hwas.
    + rewrite resort_eq. unfold resort_events, resort_hint, stop_events,
        gtk_tim2_sort_model_is_sorting. simpl.
      subst hint. unfold emit. simpl. rewrite <- Hl'.
      f_equal. f_equal. rewrite <- !app_assoc. reflexivity.
    + unfold emit. simpl. rewrite <- Hl'.
      f_equal. rewrite <- !app_assoc. reflexivity.
Qed.

(** ** Projections of the building blocks' events *)

Lemma sessions_started_app es1 es2 :
  sessions_started (es1 ++ es2) = sessions_started es1 ++ sessions_started es2.
Proof. unfold sessions_started. apply omap_app. Qed.

Lemma stop_events_sessions s : sessions_started (stop_events s) = [].
Proof. unfold stop_events. by destruct (sort_cb s =? 0). Qed.

Lemma quiet_appends k : Forall quiet_event (replicate k EvStoreAppend).
Proof. induction k; simpl; by constructor. Qed.

Lemma events_since_refl w : events_since w w = [].
Proof. unfold events_since. apply drop_all. Qed.


(** Reconciling moves positions, not items. *)
Lemma reconciled_items position removed added l :
  si_item <$> reconciled position removed added l
  = si_item <$> filter (λ si, ¬ in_removed_range position removed si) l.
Proof.
  unfold reconciled. rewrite <- list_fmap_compose. apply list_fmap_ext.
  intros i si _. simpl. unfold reconcile_entry. by destruct (decide _).
Qed.

(** * The reconciliation scan *)

(** C2. On a populated store (one entry per backing position, positions
    distinct and in range) and an edit of the backing sequence, the scan
    returns; the store it leaves is the old one without the entries whose
    position was in [[position, position + removed)], with every position
    at or past [position + removed] moved by [added - removed] and the
    others as they were, in the old relative order; the references
    released are those of the removed entries; the rest of the object is
    untouched. *)
Theorem remove_items_reconciliation n position removed added w :
  store_ok n (items (self w)) →
  edit_ok n position removed added →
  ∃ w' start end_,
    gtk_tim2_sort_model_remove_items position removed added w = Some (w', start, end_) ∧
    items (self w') = reconciled position removed added (items (self w)) ∧
    si_item <$> items (self w')
      = si_item <$> filter (λ si, ¬ in_removed_range position removed si) (items (self w)) ∧
    released (events_since w w')
      = omap si_item (filter (in_removed_range position removed) (items (self w))) ∧
    frame w w'.
Proof.
  intros Hok Hedit.
  destruct (remove_items_reconciles n position removed added w Hok Hedit)
    as (w' & start & end_ & es & Hrun & Hit & Htr & Hq & Hrel & Hfr & _ & _).
  exists w', start, end_. split_and!; try done.
  - rewrite Hit. apply reconciled_items.
  - by rewrite (events_since_app w w' es).
Qed.

Lemma remove_items_reconciliation_witness :
  ∃ w' start end_,
    gtk_tim2_sort_model_remove_items 1 1 1 sample_sorted = Some (w', start, end_) ∧
    items (self w') = reconciled 1 1 1 (items (self sample_sorted)) ∧
    si_item <$> items (self w')
      = si_item <$> filter (λ si, ¬ in_removed_range 1 1 si) (items (self sample_sorted)) ∧
    released (events_since sample_sorted w')
      = omap si_item (filter (in_removed_range 1 1) (items (self sample_sorted))) ∧
    frame sample_sorted w'.
Proof.
  apply (remove_items_reconciliation 3 1 1 1 sample_sorted).
  - unfold store_ok. decide_now.
  - unfold edit_ok. decide_now.
Defined.

(** * The resort hint *)

(** C1. While sorting is enabled, on a populated store and an edit of the
    backing sequence, the handler returns.  If a sort was in progress,
    every session it starts is started with [already_sorted = 0], and it
    starts exactly one unless the edit is empty (removed = added = 0, which
    returns at once).  If no sort was in progress and the edit only
    appends, the one session it starts has [already_sorted] equal to the
    store length before the append, which is the new length less
    [added]. *)
Theorem items_changed_resort_hint E n position removed added w :
  gtk_tim2_sort_model_should_sort E (self w) = true →
  store_ok n (items (self w)) →
  edit_ok n position removed added →
  ∃ w',
    gtk_tim2_sort_model_items_changed_cb E position removed added w = Some w' ∧
    (gtk_tim2_sort_model_is_sorting (self w) = true →
       Forall (λ h, h = 0) (sessions_started (events_since w w')) ∧
       (¬ (removed = 0 ∧ added = 0) →
          sessions_started (events_since w w') = [0] ∧
          gtk_tim2_sort_model_is_sorting (self w') = true ∧
          ts_already_sorted (sort (self w')) = 0)) ∧
    (gtk_tim2_sort_model_is_sorting (self w) = false → removed = 0 → 0 < added →
       sessions_started (events_since w w') = [sort_array_get_size (items (self w))] ∧
       sort_array_get_size (items (self w))
         = sort_array_get_size (items (self w')) - added ∧
       gtk_tim2_sort_model_is_sorting (self w') = true ∧
       ts_already_sorted (sort (self w')) = sort_array_get_size (items (self w))).
Proof.
  intros Hsort Hok Hedit.
  destruct (decide (removed = 0 ∧ added = 0)) as [[-> ->]|Hne].
  { exists w. split; [reflexivity|]. rewrite events_since_refl. split.
    - intros _. split; [constructor|]. intros Hn. exfalso. by apply Hn.
    - intros _ _ Hadd. lia. }
  destruct (items_changed_sorting E n position removed added w Hsort Hok Hedit Hne)
    as (es & Hq & _ & Hrun).
  simpl in Hrun.
  match type of Hrun with _ = Some ?X => set (w' := X) in * end.
  exists w'. split; [exact Hrun|].
  pose proof Hok as (Hlen & _ & _). pose proof Hedit as (?&?&?&?&?&?).
  split.
  - intros Hwas. subst w'. unfold edit_restarts. rewrite Hwas, orb_true_r.
    unfold events_since. simpl. rewrite drop_app_length.
    rewrite !sessions_started_app, stop_events_sessions, (quiet_sessions es Hq),
      (quiet_sessions _ (quiet_appends _)). simpl.
    split; [by repeat constructor|]. by intros _.
  - intros Hwas -> Hadd. subst w'. unfold edit_restarts. rewrite Hwas.
    replace (0 <? added) with true by (symmetry; apply Z.ltb_lt; lia).
    unfold events_since. simpl. rewrite drop_app_length.
    rewrite !sessions_started_app, stop_events_sessions, (quiet_sessions es Hq),
      (quiet_sessions _ (quiet_appends _)). simpl.
    assert (Hsz : sort_array_get_size (store_after E (self w) position 0 added)
                  = sort_array_get_size (items (self w)) + added).
    { unfold store_after, sort_array_get_size, reconciled.
      rewrite length_app, !length_fmap, length_seqZ.
      pose proof (kept_count n position 0 (items (self w)) Hok) as Hk. lia. }
    unfold sort_array_get_size in *.
    split_and!; try reflexivity; try (do 2 f_equal); lia.
Qed.

Lemma items_changed_resort_hint_witness :
  ∃ w',
    gtk_tim2_sort_model_items_changed_cb
      (sample_env [30; 10; 20; 40] GTK_SORTER_ORDER_TOTAL) 3 0 1 sample_new = Some w' ∧
    (gtk_tim2_sort_model_is_sorting (self sample_new) = true →
       Forall (λ h, h = 0) (sessions_started (events_since sample_new w')) ∧
       (¬ (0 = 0 ∧ 1 = 0) →
          sessions_started (events_since sample_new w') = [0] ∧
          gtk_tim2_sort_model_is_sorting (self w') = true ∧
          ts_already_sorted (sort (self w')) = 0)) ∧
    (gtk_tim2_sort_model_is_sorting (self sample_new) = false → 0 = 0 → 0 < 1 →
       sessions_started (events_since sample_new w')
         = [sort_array_get_size (items (self sample_new))] ∧
       sort_array_get_size (items (self sample_new))
         = sort_array_get_size (items (self w')) - 1 ∧
       gtk_tim2_sort_model_is_sorting (self w') = true ∧
       ts_already_sorted (sort (self w')) = sort_array_get_size (items (self sample_new))).
Proof.
  apply (items_changed_resort_hint
           (sample_env [30; 10; 20; 40] GTK_SORTER_ORDER_TOTAL) 3 3 0 1 sample_new).
  - reflexivity.
  - unfold store_ok. decide_now.
  - unfold edit_ok. decide_now.
Defined.

(** * Edits that only remove *)

Lemma quiet_not_session e : quiet_event e → ¬ session_event e.
Proof. destruct e; simpl; tauto. Qed.

(** C10. While sorting is enabled and no sort is in progress, an edit
    that only removes items (removed > 0, added = 0) starts no session:
    the handler returns with no session registered, the session record
    untouched and no session event in its trace, and the store is the
    survivors in the order they had. *)
Theorem removal_only_keeps_order E n position removed w :
  gtk_tim2_sort_model_should_sort E (self w) = true →
  gtk_tim2_sort_model_is_sorting (self w) = false →
  store_ok n (items (self w)) →
  edit_ok n position removed 0 →
  0 < removed →
  ∃ w',
    gtk_tim2_sort_model_items_changed_cb E position removed 0 w = Some w' ∧
    gtk_tim2_sort_model_is_sorting (self w') = false ∧
    sort (self w') = sort (self w) ∧
    sessions_started (events_since w w') = [] ∧
    Forall (λ e, ¬ session_event e) (events_since w w') ∧
    items (self w') = reconciled position removed 0 (items (self w)) ∧
    si_item <$> items (self w')
      = si_item <$> filter (λ si, ¬ in_removed_range position removed si) (items (self w)).
Proof.
  intros Hsort Hidle Hok Hedit Hrem.
  destruct (items_changed_sorting E n position removed 0 w Hsort Hok Hedit)
    as (es & Hq & _ & Hrun); [lia|].
  simpl in Hrun. unfold edit_restarts in Hrun. rewrite Hidle in Hrun. simpl in Hrun.
  assert (Hstop : stop_events (self w) = []).
  { unfold stop_events. unfold gtk_tim2_sort_model_is_sorting in Hidle.
    by destruct (sort_cb (self w) =? 0). }
  rewrite Hstop in Hrun. simpl in Hrun.
  eexists. split; [exact Hrun|].
  unfold events_since. simpl. rewrite drop_app_length.
  split_and!.
  - reflexivity.
  - reflexivity.
  - rewrite sessions_started_app, (quiet_sessions es Hq). reflexivity.
  - apply Forall_app. split.
    + eapply Forall_impl; [exact Hq|]. apply quiet_not_session.
    + repeat constructor. by intros [].
  - unfold store_after. rewrite seqZ_nil by lia. by rewrite app_nil_r.
  - unfold store_after. rewrite seqZ_nil by lia. rewrite app_nil_r.
    apply reconciled_items.
Qed.

Lemma removal_only_keeps_order_witness :
  ∃ w',
    gtk_tim2_sort_model_items_changed_cb
      (sample_env [30; 20] GTK_SORTER_ORDER_TOTAL) 1 1 0 sample_sorted = Some w' ∧
    gtk_tim2_sort_model_is_sorting (self w') = false ∧
    sort (self w') = sort (self sample_sorted) ∧
    sessions_started (events_since sample_sorted w') = [] ∧
    Forall (λ e, ¬ session_event e) (events_since sample_sorted w') ∧
    items (self w') = reconciled 1 1 0 (items (self sample_sorted)) ∧
    si_item <$> items (self w')
      = si_item <$> filter (λ si, ¬ in_removed_range 1 1 si) (items (self sample_sorted)).
Proof.
  apply (removal_only_keeps_order (sample_env [30; 20] GTK_SORTER_ORDER_TOTAL)
           3 1 1 sample_sorted).
  - reflexivity.
  - reflexivity.
  - unfold store_ok. decide_now.
  - unfold edit_ok. decide_now.
  - lia.
Defined.

(** * Pass-through *)

(** C6, as the code has it.  While sorting is degraded (no model, no
    sorter, or a sorter that reports no order), an edit that removes or
    adds something is forwarded as it came, as the only notification, and
    the object with its store is untouched; an edit with removed = added
    = 0 returns at once and forwards nothing. *)
Theorem degraded_edit_forwarded E position removed added w :
  gtk_tim2_sort_model_should_sort E (self w) = false →
  (¬ (removed = 0 ∧ added = 0) → forwards_unchanged E position removed added w) ∧
  (removed = 0 → added = 0 →
     gtk_tim2_sort_model_items_changed_cb E position removed added w = Some w).
Proof.
  intros Hdeg. unfold forwards_unchanged, gtk_tim2_sort_model_items_changed_cb. split.
  - intros Hne.
    replace ((removed =? 0) && (added =? 0)) with false
      by (symmetry; apply andb_false_iff; rewrite !Z.eqb_neq; lia).
    rewrite Hdeg. simpl. eexists. split; [reflexivity|]. split; [reflexivity|].
    unfold events_since. simpl. by rewrite drop_app_length.
  - intros -> ->. reflexivity.
Qed.

Lemma degraded_edit_forwarded_witness :
  (¬ (1 = 0 ∧ 1 = 0) →
     forwards_unchanged (sample_env [30; 40; 20] GTK_SORTER_ORDER_TOTAL) 1 1 1
       sample_passthrough) ∧
  (1 = 0 → 1 = 0 →
     gtk_tim2_sort_model_items_changed_cb
       (sample_env [30; 40; 20] GTK_SORTER_ORDER_TOTAL) 1 1 1 sample_passthrough
     = Some sample_passthrough).
Proof.
  apply (degraded_edit_forwarded (sample_env [30; 40; 20] GTK_SORTER_ORDER_TOTAL)
           1 1 1 sample_passthrough).
  reflexivity.
Defined.

(** C6 as stated fails on the empty edit: in pass-through mode the edit
    (1, 0, 0) is not forwarded. *)
Lemma degraded_empty_edit_not_forwarded :
  gtk_tim2_sort_model_should_sort sample_total (self sample_passthrough) = false ∧
  ¬ forwards_unchanged sample_total 1 0 0 sample_passthrough.
Proof.
  split; [reflexivity|].
  intros (w' & Hrun & _ & Hev).
  vm_compute in Hrun. injection Hrun as <-. vm_compute in Hev. discriminate Hev.
Qed.

(** * Reading the view *)

(** C7. With the invariant of the object, [get_item] at a position (a
    [guint], so not negative) is the backing sequence's item there when
    the store is empty (nothing when there is no backing sequence), the
    item of the store entry there otherwise, and nothing at or past the
    length [get_n_items] reports. *)
Theorem get_item_lookup E s position :
  model_inv E s →
  0 ≤ position →
  (items s = [] →
     (gtk_tim2_sort_model_get_item E s position).1 = backing_item E s position) ∧
  (items s ≠ [] →
     (gtk_tim2_sort_model_get_item E s position).1
       = items s !! Z.to_nat position ≫= si_item) ∧
  (gtk_tim2_sort_model_get_n_items E s ≤ position →
     (gtk_tim2_sort_model_get_item E s position).1 = None).
Proof.
  intros Hinv Hpos.
  unfold model_inv, gtk_tim2_sort_model_should_sort in Hinv.
  unfold gtk_tim2_sort_model_get_item, gtk_tim2_sort_model_get_n_items, backing_item.
  destruct (model s) as [m|] eqn:Hm.
  - destruct (items s) as [|si l] eqn:Hitems.
    + simpl. split_and!; [done | done |].
      intros Hge. unfold g_list_model_get_item, g_list_model_get_n_items in *.
      apply lookup_ge_None. lia.
    + simpl sort_array_is_empty. cbv iota.
      destruct (Z.leb_spec (sort_array_get_size (si :: l)) position) as [Hout|Hin].
      * simpl. split_and!; [done | | done].
        intros _. unfold sort_array_get_size in Hout.
        rewrite (proj2 (lookup_ge_None (si :: l) (Z.to_nat position))) by lia. done.
      * split_and!; [done | done |].
        intros Hge. exfalso.
        destruct (sorter s) as [srt|]; [|discriminate Hinv].
        destruct (gtk_sorter_get_order E srt); try discriminate Hinv;
          destruct Hinv as (Hlen & _); unfold sort_array_get_size in Hin;
          unfold gtk_tim2_sort_model_get_n_items in Hlen; rewrite Hm in Hlen; lia.
  - simpl. split_and!; [done | | done].
    intros Hne. destruct (sorter s); simpl in Hinv; contradiction.
Qed.

Lemma get_item_lookup_witness :
  (items (self sample_sorted) = [] →
     (gtk_tim2_sort_model_get_item sample_total (self sample_sorted) 1).1
       = backing_item sample_total (self sample_sorted) 1) ∧
  (items (self sample_sorted) ≠ [] →
     (gtk_tim2_sort_model_get_item sample_total (self sample_sorted) 1).1
       = items (self sample_sorted) !! Z.to_nat 1 ≫= si_item) ∧
  (gtk_tim2_sort_model_get_n_items sample_total (self sample_sorted) ≤ 1 →
     (gtk_tim2_sort_model_get_item sample_total (self sample_sorted) 1).1 = None).
Proof.
  apply (get_item_lookup sample_total (self sample_sorted) 1).
  - unfold model_inv. simpl. unfold store_ok. decide_now.
  - lia.
Defined.

(** * Sort steps *)

(** C8. When the engine performs a step ([gtk_tim_sort_step] returns
    [TRUE]), the callback stays installed and sends exactly one
    notification, [(0, n, n)] with [n] the length of the store (as a
    [guint]). *)
Theorem sort_step_notifies E w t l :
  gtk_tim_sort_step E (sort (self w)) (items (self w)) = (true, t, l) →
  ∃ w',
    gtk_tim2_sort_model_sort_cb E w = (w', true) ∧
    items (self w') = l ∧
    notifications (events_since w w')
      = [(0, u32 (sort_array_get_size l), u32 (sort_array_get_size l))] ∧
    (sort_array_get_size l < guint_modulus →
       u32 (sort_array_get_size l) = sort_array_get_size (items (self w'))).
Proof.
  intros Hstep. unfold gtk_tim2_sort_model_sort_cb. rewrite Hstep.
  eexists. split; [reflexivity|]. simpl.
  split_and!.
  - reflexivity.
  - unfold events_since. simpl. rewrite <- app_assoc, drop_app_length. reflexivity.
  - intros Hlt. apply u32_small. unfold sort_array_get_size in *. lia.
Qed.

Lemma sort_step_notifies_witness :
  ∃ w',
    gtk_tim2_sort_model_sort_cb sample_total sample_new = (w', true) ∧
    items (self w') = (sample_step (sort (self sample_new)) (items (self sample_new))).2 ∧
    notifications (events_since sample_new w') = [(0, u32 3, u32 3)] ∧
    (3 < guint_modulus → u32 3 = sort_array_get_size (items (self w'))).
Proof.
  apply (sort_step_notifies sample_total sample_new
           (sample_step (sort (self sample_new)) (items (self sample_new))).1.2
           (sample_step (sort (self sample_new)) (items (self sample_new))).2).
  vm_compute. reflexivity.
Defined.

(** When the engine has nothing left to do, the callback notifies nothing
    and finalises the session. *)
Lemma sort_step_done E w t l :
  gtk_tim_sort_step E (sort (self w)) (items (self w)) = (false, t, l) →
  ∃ w',
    gtk_tim2_sort_model_sort_cb E w = (w', false) ∧
    gtk_tim2_sort_model_is_sorting (self w') = false ∧
    notifications (events_since w w') = [].
Proof.
  intros Hstep. unfold gtk_tim2_sort_model_sort_cb. rewrite Hstep.
  eexists. split; [reflexivity|]. rewrite stop_sorting_eq. simpl.
  split; [reflexivity|].
  unfold events_since. simpl. rewrite <- app_assoc, drop_app_length.
  unfold stop_events. simpl. by destruct (sort_cb (self w) =? 0).
Qed.

(** * The invariant across the public operations *)

Lemma created_store_ok E m n :
  0 ≤ n → store_ok n (backing_entry E m <$> seqZ 0 n).
Proof.
  intros Hn. unfold store_ok. split_and!.
  - rewrite length_fmap, length_seqZ. lia.
  - rewrite <- list_fmap_compose.
    rewrite (list_fmap_ext (si_position ∘ backing_entry E m) id (seqZ 0 n))
      by (intros; reflexivity).
    rewrite list_fmap_id. apply NoDup_seqZ.
  - apply Forall_fmap, Forall_seqZ. intros z Hz. simpl. lia.
Qed.

(** Where a position goes under an edit. *)
Lemma reconcile_entry_position position removed added si :
  si_position (reconcile_entry position removed added si)
  = if decide (position + removed ≤ si_position si)
    then si_position si - removed + added else si_position si.
Proof. unfold reconcile_entry. by destruct (decide _). Qed.

Lemma NoDup_fmap_inj_on {A B} (f : A → B) (l : list A) x y :
  NoDup (f <$> l) → x ∈ l → y ∈ l → f x = f y → x = y.
Proof.
  induction l as [|z l IH]; intros Hnd Hx Hy Hxy; [by apply elem_of_nil in Hx|].
  rewrite fmap_cons in Hnd. apply NoDup_cons in Hnd as [Hz Hnd].
  apply elem_of_cons in Hx as [->|Hx]; apply elem_of_cons in Hy as [->|Hy].
  - reflexivity.
  - exfalso. apply Hz. rewrite Hxy. by apply list_elem_of_fmap_2.
  - exfalso. apply Hz. rewrite <- Hxy. by apply list_elem_of_fmap_2.
  - by apply IH.
Qed.

Lemma edited_store_ok E m n position removed added l :
  store_ok n l → edit_ok n position removed added →
  store_ok (n - removed + added)
    (reconciled position removed added l ++ (backing_entry E m <$> seqZ position added)).
Proof.
  intros Hok Hedit. pose proof Hok as (Hlen & Hnd & Hrange).
  pose proof Hedit as (Hp & Hr & Ha & Hpr & Hn & Hnew).
  rewrite Forall_forall in Hrange.
  assert (Hsurv : ∀ si, si ∈ reconciled position removed added l →
            0 ≤ si_position si < n - removed + added ∧
            (si_position si < position ∨ position + added ≤ si_position si)).
  { intros si (x & -> & Hx)%list_elem_of_fmap.
    apply list_elem_of_filter in Hx as [Hout Hin]. specialize (Hrange x Hin).
    unfold in_removed_range in Hout. rewrite reconcile_entry_position.
    destruct (decide (position + removed ≤ si_position x)); lia. }
  unfold store_ok. split_and!.
  - rewrite length_app, length_fmap, length_seqZ.
    pose proof (kept_count n position removed l Hok Hp Hr Hpr) as Hk.
    unfold reconciled. rewrite length_fmap. lia.
  - rewrite fmap_app. apply NoDup_app. split_and!.
    + unfold reconciled. rewrite <- list_fmap_compose.
      apply NoDup_fmap_2_strong.
      * intros x y Hx Hy Hxy.
        apply list_elem_of_filter in Hx as [Hxo Hx].
        apply list_elem_of_filter in Hy as [Hyo Hy].
        apply (NoDup_fmap_inj_on si_position l x y Hnd Hx Hy).
        simpl in Hxy. rewrite !reconcile_entry_position in Hxy.
        unfold in_removed_range in Hxo, Hyo.
        destruct (decide (position + removed ≤ si_position x)),
                 (decide (position + removed ≤ si_position y)); lia.
      * apply NoDup_filter. by apply NoDup_fmap_1 in Hnd.
    + intros z (si & -> & Hsi)%list_elem_of_fmap (y & Hy & Hin)%list_elem_of_fmap.
      apply list_elem_of_fmap in Hin as (k & -> & Hk). apply elem_of_seqZ in Hk.
      simpl in Hy. specialize (Hsurv si Hsi). lia.
    + rewrite <- list_fmap_compose.
      rewrite (list_fmap_ext (si_position ∘ backing_entry E m) id (seqZ position added))
        by (intros; reflexivity).
      rewrite list_fmap_id. apply NoDup_seqZ.
  - apply Forall_app. split.
    + apply Forall_forall. intros si Hsi. by apply Hsurv.
    + apply Forall_fmap, Forall_seqZ. intros z Hz. simpl. lia.
Qed.

Lemma model_inv_consistent E s : model_inv E s → store_consistent E s.
Proof.
  unfold model_inv, store_consistent.
  destruct (gtk_tim2_sort_model_should_sort E s); auto.
Qed.

Lemma should_sort_same_orders E0 E s :
  same_orders E0 E →
  gtk_tim2_sort_model_should_sort E0 s = gtk_tim2_sort_model_should_sort E s.
Proof.
  intros Ho. unfold gtk_tim2_sort_model_should_sort.
  destruct (sorter s), (model s); try reflexivity. by rewrite Ho.
Qed.

Lemma n_items_same_lists E0 E s :
  same_lists E0 E →
  gtk_tim2_sort_model_get_n_items E0 s = gtk_tim2_sort_model_get_n_items E s.
Proof.
  intros Hl. unfold gtk_tim2_sort_model_get_n_items, g_list_model_get_n_items.
  destruct (model s); [by rewrite Hl | reflexivity].
Qed.

Lemma n_items_nonneg E s : 0 ≤ gtk_tim2_sort_model_get_n_items E s.
Proof.
  unfold gtk_tim2_sort_model_get_n_items, g_list_model_get_n_items.
  destruct (model s); lia.
Qed.

(** The invariant only looks at the model, the sorter and the store. *)
Lemma model_inv_ext E s s' :
  model s' = model s → sorter s' = sorter s → items s' = items s →
  model_inv E s → model_inv E s'.
Proof.
  intros Hm Hso Hit. unfold model_inv, gtk_tim2_sort_model_should_sort,
    gtk_tim2_sort_model_get_n_items. by rewrite Hm, Hso, Hit.
Qed.

Lemma resort_inv E already_sorted w :
  model_inv E (self w) → model_inv E (self (gtk_tim2_sort_model_resort already_sorted w)).
Proof. intros H. rewrite resort_eq. by apply (model_inv_ext E (self w)). Qed.

Lemma clear_items_inv E w :
  gtk_tim2_sort_model_should_sort E (self w) = false →
  model_inv E (self (gtk_tim2_sort_model_clear_items w)).
Proof.
  intros Hdeg. rewrite clear_items_eq. unfold model_inv. simpl.
  unfold gtk_tim2_sort_model_should_sort in *. simpl.
  destruct (sorter (self w)), (model (self w)); try reflexivity.
  destruct (gtk_sorter_get_order E _); done.
Qed.

Lemma create_items_inv E w :
  items (self w) = [] → model_inv E (self (gtk_tim2_sort_model_create_items E w)).
Proof.
  intros Hempty. rewrite create_items_eq.
  destruct (gtk_tim2_sort_model_should_sort E (self w)) eqn:Hss.
  - unfold model_inv. simpl.
    replace (gtk_tim2_sort_model_should_sort E _) with true
      by (rewrite <- Hss; reflexivity).
    rewrite Hempty. simpl. apply created_store_ok, n_items_nonneg.
  - unfold model_inv. by rewrite Hss.
Qed.

(** The precondition of the "changed" handler: the store is empty, or it
    is populated over the backing sequence the object holds. *)
Lemma sorter_changed_inv E srt w :
  sorter (self w) = Some srt →
  items (self w) = [] ∨
    (model (self w) ≠ None ∧
     store_ok (gtk_tim2_sort_model_get_n_items E (self w)) (items (self w))) →
  model_inv E (self (gtk_tim2_sort_model_sorter_changed_cb E srt w)).
Proof.
  intros Hsrt Hpre. unfold gtk_tim2_sort_model_sorter_changed_cb.
  set (w1 := match gtk_sorter_get_order E srt with
             | GTK_SORTER_ORDER_NONE => _ | _ => _ end).
  assert (H1 : model_inv E (self w1)).
  { assert (Hkeep : gtk_sorter_get_order E srt ≠ GTK_SORTER_ORDER_NONE →
        model_inv E (self (if sort_array_is_empty (items (self w))
                           then gtk_tim2_sort_model_create_items E w else w))).
    { intros Hord. destruct (items (self w)) as [|si l] eqn:Hit; simpl.
      - by apply create_items_inv.
      - destruct Hpre as [Hnil|[Hm Hok]]; [discriminate Hnil|].
        unfold model_inv, gtk_tim2_sort_model_should_sort. rewrite Hsrt.
        destruct (model (self w)); [|done].
        rewrite Hit. destruct (gtk_sorter_get_order E srt); done. }
    subst w1. destruct (gtk_sorter_get_order E srt) eqn:Hord.
    - by apply Hkeep.
    - apply clear_items_inv. unfold gtk_tim2_sort_model_should_sort.
      rewrite Hsrt, Hord. by destruct (model (self w)).
    - by apply Hkeep. }
  pose proof (resort_inv E 0 w1 H1) as H2.
  by destruct (1 <? _).
Qed.

Lemma clear_model_obs E w :
  model_inv E (self w) →
  model (self (gtk_tim2_sort_model_clear_model w)) = None ∧
  sorter (self (gtk_tim2_sort_model_clear_model w)) = sorter (self w) ∧
  items (self (gtk_tim2_sort_model_clear_model w)) = [].
Proof.
  intros Hinv. unfold gtk_tim2_sort_model_clear_model.
  destruct (model (self w)) as [m|] eqn:Hm.
  - rewrite clear_items_eq. by simpl.
  - split_and!; try done.
    unfold model_inv, gtk_tim2_sort_model_should_sort in Hinv. rewrite Hm in Hinv.
    by destruct (sorter (self w)).
Qed.

Lemma clear_sorter_obs E w :
  model_inv E (self w) →
  model (self (gtk_tim2_sort_model_clear_sorter w)) = model (self w) ∧
  sorter (self (gtk_tim2_sort_model_clear_sorter w)) = None ∧
  items (self (gtk_tim2_sort_model_clear_sorter w)) = [].
Proof.
  intros Hinv. unfold gtk_tim2_sort_model_clear_sorter.
  destruct (sorter (self w)) as [srt|] eqn:Hs.
  - rewrite clear_items_eq. by simpl.
  - split_and!; try done.
    unfold model_inv, gtk_tim2_sort_model_should_sort in Hinv. by rewrite Hs in Hinv.
Qed.

Lemma degraded_inv E s :
  model s = None ∨ sorter s = None → items s = [] → model_inv E s.
Proof.
  intros Hnone Hempty. unfold model_inv, gtk_tim2_sort_model_should_sort.
  destruct Hnone as [-> | ->]; [by destruct (sorter s) | done].
Qed.

Lemma set_model_inv E new_model w :
  model_inv E (self w) →
  model_inv E (self (gtk_tim2_sort_model_set_model E new_model w)).
Proof.
  intros Hinv. unfold gtk_tim2_sort_model_set_model.
  destruct (decide (model (self w) = new_model)) as [_|_]; [exact Hinv|].
  destruct (clear_model_obs E w Hinv) as (Hm & Hso & Hit).
  set (w1 := gtk_tim2_sort_model_clear_model w) in *.
  destruct new_model as [m|].
  - set (w' := with_self (set_model_field (Some m)) (emits [EvRef m; EvConnect m] w1)).
    assert (H2 : model_inv E (self (gtk_tim2_sort_model_resort 0
                   (gtk_tim2_sort_model_create_items E w')))).
    { apply resort_inv, create_items_inv. exact Hit. }
    simpl. by destruct (_ || _).
  - assert (H1 : model_inv E (self w1)) by (apply degraded_inv; auto).
    simpl. by destruct (_ || _).
Qed.

Lemma set_sorter_inv E new_sorter w :
  model_inv E (self w) →
  model_inv E (self (gtk_tim2_sort_model_set_sorter E new_sorter w)).
Proof.
  intros Hinv. unfold gtk_tim2_sort_model_set_sorter.
  destruct (clear_sorter_obs E w Hinv) as (Hm & Hso & Hit).
  set (w1 := gtk_tim2_sort_model_clear_sorter w) in *.
  destruct new_sorter as [srt|].
  - simpl. apply sorter_changed_inv; [reflexivity|]. left. exact Hit.
  - assert (H1 : model_inv E (self w1)) by (apply degraded_inv; auto).
    simpl. by destruct (1 <? _).
Qed.

Lemma init_inv E : model_inv E (self gtk_tim2_sort_model_init).
Proof. reflexivity. Qed.

Lemma items_changed_inv E E0 position removed added w :
  same_orders E0 E →
  edit_ok (gtk_tim2_sort_model_get_n_items E0 (self w)) position removed added →
  gtk_tim2_sort_model_get_n_items E (self w)
    = gtk_tim2_sort_model_get_n_items E0 (self w) - removed + added →
  model_inv E0 (self w) →
  ∃ w', gtk_tim2_sort_model_items_changed_cb E position removed added w = Some w' ∧
        model_inv E (self w').
Proof.
  intros Ho Hedit Hn Hinv.
  unfold model_inv in Hinv. rewrite (should_sort_same_orders E0 E _ Ho) in Hinv.
  destruct (decide (removed = 0 ∧ added = 0)) as [[-> ->]|Hne].
  { exists w. split; [reflexivity|]. unfold model_inv.
    destruct (gtk_tim2_sort_model_should_sort E (self w)); [|exact Hinv].
    rewrite Hn. by replace (_ - 0 + 0) with (gtk_tim2_sort_model_get_n_items E0 (self w))
      by lia. }
  destruct (gtk_tim2_sort_model_should_sort E (self w)) eqn:Hss.
  - destruct (items_changed_sorting E _ position removed added w Hss Hinv Hedit Hne)
      as (es & _ & _ & Hrun).
    simpl in Hrun. eexists. split; [exact Hrun|].
    unfold model_inv. simpl.
    replace (gtk_tim2_sort_model_should_sort E _) with true
      by (rewrite <- Hss; reflexivity).
    replace (gtk_tim2_sort_model_get_n_items E _)
      with (gtk_tim2_sort_model_get_n_items E0 (self w) - removed + added)
      by (rewrite <- Hn; reflexivity).
    unfold store_after. by apply edited_store_ok.
  - unfold gtk_tim2_sort_model_items_changed_cb.
    replace ((removed =? 0) && (added =? 0)) with false
      by (symmetry; apply andb_false_iff; rewrite !Z.eqb_neq; lia).
    rewrite Hss. simpl. eexists. split; [reflexivity|].
    unfold model_inv. simpl. by rewrite Hss.
Qed.

Lemma model_inv_env E0 E s :
  same_lists E0 E → same_orders E0 E → model_inv E0 s → model_inv E s.
Proof.
  intros Hl Ho. unfold model_inv.
  by rewrite (should_sort_same_orders E0 E s Ho), (n_items_same_lists E0 E s Hl).
Qed.

(** Between the operations the idle callback runs: it keeps the invariant
    as long as the engine's step only reorders the array. *)
Lemma sort_cb_inv E w :
  (gtk_tim_sort_step E (sort (self w)) (items (self w))).2 ≡ₚ items (self w) →
  model_inv E (self w) →
  model_inv E (self (gtk_tim2_sort_model_sort_cb E w).1).
Proof.
  intros Hperm Hinv. unfold gtk_tim2_sort_model_sort_cb.
  destruct (gtk_tim_sort_step E (sort (self w)) (items (self w))) as [[b t] l].
  simpl in Hperm.
  assert (Hl : model_inv E (set_items_field l (set_sort_field t (self w)))).
  { unfold model_inv in *. simpl.
    replace (gtk_tim2_sort_model_should_sort E _)
      with (gtk_tim2_sort_model_should_sort E (self w)) by reflexivity.
    replace (gtk_tim2_sort_model_get_n_items E _)
      with (gtk_tim2_sort_model_get_n_items E (self w)) by reflexivity.
    destruct (gtk_tim2_sort_model_should_sort E (self w)).
    - destruct Hinv as (Hlen & Hnd & Hrange). unfold store_ok. split_and!.
      + by rewrite Hperm.
      + by rewrite Hperm.
      + by rewrite Hperm.
    - rewrite Hinv in Hperm. by apply Permutation_nil_r in Hperm. }
  destruct b; simpl.
  - exact Hl.
  - rewrite stop_sorting_eq. simpl. by apply (model_inv_ext E _ _ eq_refl eq_refl eq_refl).
Qed.

(** C4. Every public operation (construction, setting or clearing the
    model, setting or clearing the sorter, the sorter's "changed", the
    backing sequence's "items-changed"), run on an object that satisfied
    the invariant before its collaborators changed, returns and leaves
    the store either empty or with exactly one entry per backing item,
    the positions pairwise distinct and all in [[0, backing_length)];
    it is populated exactly when sorting is enabled. *)
Theorem public_operations_keep_store_consistent E op w :
  op_pre E op w →
  ∃ w', run_op E op w = Some w' ∧
        model_inv E (self w') ∧
        store_consistent E (self w').
Proof.
  intros Hpre.
  cut (∃ w', run_op E op w = Some w' ∧ model_inv E (self w')).
  { intros (w' & Hrun & Hinv). exists w'. split_and!; [done | done |].
    by apply model_inv_consistent. }
  destruct op as [m srt|m|srt| |position removed added]; simpl in *.
  - eexists. split; [reflexivity|].
    apply set_sorter_inv, set_model_inv, init_inv.
  - destruct Hpre as (E0 & (Hl & Ho) & Hinv).
    eexists. split; [reflexivity|].
    apply set_model_inv. by apply (model_inv_env E0).
  - destruct Hpre as (E0 & (Hl & Ho) & Hinv).
    eexists. split; [reflexivity|].
    apply set_sorter_inv. by apply (model_inv_env E0).
  - destruct Hpre as (E0 & Hl & Hinv).
    destruct (sorter (self w)) as [srt|] eqn:Hsrt.
    + eexists. split; [reflexivity|].
      apply sorter_changed_inv; [exact Hsrt|].
      unfold model_inv in Hinv.
      destruct (gtk_tim2_sort_model_should_sort E0 (self w)) eqn:Hss; [|by left].
      right. rewrite <- (n_items_same_lists E0 E _ Hl). split; [|exact Hinv].
      unfold gtk_tim2_sort_model_should_sort in Hss. rewrite Hsrt in Hss.
      by destruct (model (self w)).
    + exists w. split; [reflexivity|].
      apply degraded_inv; [by right|].
      unfold model_inv, gtk_tim2_sort_model_should_sort in Hinv. by rewrite Hsrt in Hinv.
  - destruct Hpre as (E0 & (Ho & Hedit & Hn) & Hinv).
    by apply (items_changed_inv E E0).
Qed.

Lemma public_operations_keep_store_consistent_witness :
  ∃ w', run_op (sample_env [30; 40; 20] GTK_SORTER_ORDER_TOTAL) (OpItemsChanged 1 1 1)
          sample_sorted = Some w' ∧
        model_inv (sample_env [30; 40; 20] GTK_SORTER_ORDER_TOTAL) (self w') ∧
        store_consistent (sample_env [30; 40; 20] GTK_SORTER_ORDER_TOTAL) (self w').
Proof.
  apply (public_operations_keep_store_consistent
           (sample_env [30; 40; 20] GTK_SORTER_ORDER_TOTAL) (OpItemsChanged 1 1 1)
           sample_sorted).
  exists sample_total. split; [split_and!|].
  - intros srt. reflexivity.
  - unfold edit_ok. decide_now.
  - reflexivity.
  - unfold model_inv. simpl. unfold store_ok. decide_now.
Defined.

(** * Sort sessions and store mutations *)

Lemma session_run_app strict st es1 es2 :
  session_run strict st (es1 ++ es2)
  = session_run strict st es1 ≫= λ st', session_run strict st' es2.
Proof.
  revert st. induction es1 as [|e es1 IH]; intros st; [reflexivity|].
  simpl. destruct (session_step strict st e); [apply IH | reflexivity].
Qed.

Lemma session_run_neutral strict st es :
  Forall neutral_event es → session_run strict st es = Some st.
Proof.
  induction 1 as [|e es He _ IH]; [reflexivity|].
  simpl. by destruct e; try contradiction; simpl; rewrite ?IH; destruct st.
Qed.

Lemma session_run_quiet strict es :
  Forall quiet_event es → session_run strict Idle es = Some Idle.
Proof.
  induction 1 as [|e es He _ IH]; [reflexivity|].
  simpl. by destruct e; try contradiction; simpl; rewrite ?IH.
Qed.

Lemma neutral_clear_events l :
  Forall neutral_event (l ≫= sort_item_clear_events).
Proof.
  induction l as [|si l IH]; [constructor|].
  change ((si :: l) ≫= sort_item_clear_events)
    with (sort_item_clear_events si ++ (l ≫= sort_item_clear_events)).
  apply Forall_app. split; [|exact IH].
  unfold sort_item_clear_events. destruct (si_item si); repeat constructor.
Qed.

Lemma tracks_session_of s : tracks (session_of s) s.
Proof.
  unfold tracks, session_of, gtk_tim2_sort_model_is_sorting.
  destruct (Z.eqb_spec (sort_cb s) 0); simpl; split; congruence.
Qed.

Lemma tracks_settled st s : tracks st s → st ≠ Outdated → st = session_of s.
Proof.
  unfold tracks, session_of, gtk_tim2_sort_model_is_sorting. intros [H1 H2] Hno.
  destruct (Z.eqb_spec (sort_cb s) 0) as [H0|H0]; simpl.
  - by apply H2.
  - destruct st; try done. by specialize (H1 eq_refl).
Qed.

Lemma session_run_stop strict st s :
  tracks st s → session_run strict st (stop_events s) = Some Idle.
Proof.
  unfold tracks, stop_events. intros [H1 H2].
  destruct (Z.eqb_spec (sort_cb s) 0) as [H0|H0]; simpl.
  - by rewrite (H2 H0).
  - by destruct st.
Qed.

Lemma run_from_refl strict w st : tracks st (self w) → run_from strict w w st st.
Proof. intros Ht. exists []. by rewrite app_nil_r. Qed.

Lemma run_from_trans strict w1 w2 w3 st1 st2 st3 :
  run_from strict w1 w2 st1 st2 → run_from strict w2 w3 st2 st3 →
  run_from strict w1 w3 st1 st3.
Proof.
  intros (es1 & Htr1 & Hrun1 & _) (es2 & Htr2 & Hrun2 & Ht).
  exists (es1 ++ es2). split_and!.
  - by rewrite Htr2, Htr1, app_assoc.
  - by rewrite session_run_app, Hrun1.
  - exact Ht.
Qed.

Lemma run_from_neutral strict w st es f :
  Forall neutral_event es → (∀ s, sort_cb (f s) = sort_cb s) →
  tracks st (self w) →
  run_from strict w (with_self f (emits es w)) st st.
Proof.
  intros Hes Hf Ht. exists es. split_and!.
  - reflexivity.
  - by apply session_run_neutral.
  - unfold tracks in *. simpl. by rewrite Hf.
Qed.

Lemma run_from_emit strict w st e :
  neutral_event e → tracks st (self w) → run_from strict w (emit e w) st st.
Proof.
  intros He Ht. exists [e]. split_and!; [reflexivity | | exact Ht].
  apply session_run_neutral. by constructor.
Qed.

Lemma run_from_stop strict w st :
  tracks st (self w) →
  run_from strict w (gtk_tim2_sort_model_stop_sorting w) st Idle.
Proof.
  intros Ht. rewrite stop_sorting_eq. exists (stop_events (self w)). split_and!.
  - reflexivity.
  - by apply session_run_stop.
  - by unfold tracks.
Qed.

Lemma run_from_clear_items strict w st :
  tracks st (self w) →
  run_from strict w (gtk_tim2_sort_model_clear_items w) st Idle.
Proof.
  intros Ht. rewrite clear_items_eq. eexists. split_and!.
  - reflexivity.
  - rewrite session_run_app, (session_run_stop strict st _ Ht). simpl.
    rewrite session_run_app, session_run_neutral by apply neutral_clear_events.
    reflexivity.
  - by unfold tracks.
Qed.

Lemma run_from_resort strict w st already_sorted :
  tracks st (self w) →
  run_from strict w (gtk_tim2_sort_model_resort already_sorted w) st Running.
Proof.
  intros Ht. rewrite resort_eq. eexists. split_and!.
  - reflexivity.
  - unfold resort_events.
    rewrite session_run_app, (session_run_stop strict st _ Ht). reflexivity.
  - unfold tracks. simpl. split; intros; discriminate.
Qed.

Lemma session_run_appends st k :
  session_run false st (replicate k EvStoreAppend)
  = Some (match k, st with O, _ => st | _, Idle => Idle | _, _ => Outdated end).
Proof.
  revert st. induction k as [|k IH]; intros st; [by destruct st|].
  simpl. destruct st; simpl; rewrite IH; by destruct k.
Qed.

Lemma session_run_appends_idle strict k :
  session_run strict Idle (replicate k EvStoreAppend) = Some Idle.
Proof. apply session_run_quiet, quiet_appends. Qed.

Lemma run_from_create_items E w st :
  tracks st (self w) →
  ∃ st', run_from false w (gtk_tim2_sort_model_create_items E w) st st'.
Proof.
  intros Ht. rewrite create_items_eq.
  destruct (gtk_tim2_sort_model_should_sort E (self w)).
  - eexists. eexists. split_and!.
    + reflexivity.
    + apply session_run_appends.
    + unfold tracks in *. simpl.
      destruct (Z.to_nat _), st; try exact Ht; split; intros H;
        try discriminate H; destruct Ht as [H1 H2]; try (by apply H2 in H);
        exfalso; by pose proof (H2 H).
  - exists st. by apply run_from_refl.
Qed.

Lemma run_from_maybe_emit strict (c : bool) e w st :
  neutral_event e → tracks st (self w) →
  run_from strict w (if c then emit e w else w) st st.
Proof.
  intros He Ht. destruct c; [by apply run_from_emit | by apply run_from_refl].
Qed.

Lemma sorter_changed_session E srt w st :
  tracks st (self w) →
  run_from false w (gtk_tim2_sort_model_sorter_changed_cb E srt w) st Running.
Proof.
  intros Ht. unfold gtk_tim2_sort_model_sorter_changed_cb.
  set (w1 := match gtk_sorter_get_order E srt with
             | GTK_SORTER_ORDER_NONE => _ | _ => _ end).
  assert (H1 : ∃ st1, run_from false w w1 st st1).
  { assert (Hkeep : ∃ st1, run_from false w
              (if sort_array_is_empty (items (self w))
               then gtk_tim2_sort_model_create_items E w else w) st st1).
    { destruct (sort_array_is_empty (items (self w))).
      - by apply run_from_create_items.
      - exists st. by apply run_from_refl. }
    subst w1. destruct (gtk_sorter_get_order E srt); [exact Hkeep | | exact Hkeep].
    exists Idle. by apply run_from_clear_items. }
  destruct H1 as (st1 & H1).
  assert (Ht1 : tracks st1 (self w1)) by (by destruct H1 as (? & _ & _ & ?)).
  pose proof (run_from_resort false w1 st1 0 Ht1) as H2.
  assert (Ht2 : tracks Running (self (gtk_tim2_sort_model_resort 0 w1)))
    by (by destruct H2 as (? & _ & _ & ?)).
  eapply run_from_trans; [exact H1|]. eapply run_from_trans; [exact H2|].
  by apply run_from_maybe_emit.
Qed.

Lemma clear_model_session strict w st :
  tracks st (self w) → st ≠ Outdated →
  ∃ st', run_from strict w (gtk_tim2_sort_model_clear_model w) st st' ∧ st' ≠ Outdated.
Proof.
  intros Ht Hno. unfold gtk_tim2_sort_model_clear_model.
  destruct (model (self w)) as [m|].
  - exists Idle. split; [|done].
    eapply run_from_trans; [|apply run_from_clear_items].
    + apply (run_from_neutral strict w st [EvDisconnect m; EvUnref m]
               (set_model_field None)); [by repeat constructor | done | exact Ht].
    + exact Ht.
  - exists st. split; [by apply run_from_refl | exact Hno].
Qed.

Lemma clear_sorter_session strict w st :
  tracks st (self w) → st ≠ Outdated →
  ∃ st', run_from strict w (gtk_tim2_sort_model_clear_sorter w) st st' ∧ st' ≠ Outdated.
Proof.
  intros Ht Hno. unfold gtk_tim2_sort_model_clear_sorter.
  destruct (sorter (self w)) as [srt|].
  - exists Idle. split; [|done].
    eapply run_from_trans; [|apply run_from_clear_items].
    + apply (run_from_neutral strict w st [EvDisconnect srt; EvUnref srt]
               (set_sorter_field None)); [by repeat constructor | done | exact Ht].
    + exact Ht.
  - exists st. split; [by apply run_from_refl | exact Hno].
Qed.

Lemma run_from_tracks strict w w' st st' :
  run_from strict w w' st st' → tracks st' (self w').
Proof. by intros (? & _ & _ & ?). Qed.

Lemma set_model_session E new_model w st :
  tracks st (self w) → st ≠ Outdated →
  ∃ st', run_from false w (gtk_tim2_sort_model_set_model E new_model w) st st' ∧
         st' ≠ Outdated.
Proof.
  intros Ht Hno. unfold gtk_tim2_sort_model_set_model.
  destruct (decide (model (self w) = new_model)) as [_|_].
  { exists st. split; [by apply run_from_refl | exact Hno]. }
  destruct (clear_model_session false w st Ht Hno) as (st1 & H1 & Hno1).
  pose proof (run_from_tracks _ _ _ _ _ H1) as Ht1.
  set (w1 := gtk_tim2_sort_model_clear_model w) in *.
  destruct new_model as [m|].
  - set (w' := with_self (set_model_field (Some m)) (emits [EvRef m; EvConnect m] w1)).
    assert (H2 : run_from false w1 w' st1 st1).
    { apply run_from_neutral; [by repeat constructor | done | exact Ht1]. }
    destruct (run_from_create_items E w' st1 (run_from_tracks _ _ _ _ _ H2))
      as (st3 & H3).
    pose proof (run_from_resort false _ st3 0 (run_from_tracks _ _ _ _ _ H3)) as H4.
    pose proof (run_from_trans _ _ _ _ _ _ _ H1
      (run_from_trans _ _ _ _ _ _ _ H2 (run_from_trans _ _ _ _ _ _ _ H3 H4))) as H14.
    exists Running. split; [|done]. simpl.
    eapply run_from_trans; [|apply run_from_emit; [exact I|]].
    + eapply run_from_trans; [exact H14|].
      apply run_from_maybe_emit; [exact I | exact (run_from_tracks _ _ _ _ _ H4)].
    + destruct (_ || _); exact (run_from_tracks _ _ _ _ _ H4).
  - exists st1. split; [|exact Hno1]. simpl.
    eapply run_from_trans; [|apply run_from_emit; [exact I|]].
    + eapply run_from_trans; [exact H1|].
      apply run_from_maybe_emit; [exact I | exact Ht1].
    + by destruct (_ || _).
Qed.

Lemma set_sorter_session E new_sorter w st :
  tracks st (self w) → st ≠ Outdated →
  ∃ st', run_from false w (gtk_tim2_sort_model_set_sorter E new_sorter w) st st' ∧
         st' ≠ Outdated.
Proof.
  intros Ht Hno. unfold gtk_tim2_sort_model_set_sorter.
  destruct (clear_sorter_session false w st Ht Hno) as (st1 & H1 & Hno1).
  pose proof (run_from_tracks _ _ _ _ _ H1) as Ht1.
  set (w1 := gtk_tim2_sort_model_clear_sorter w) in *.
  destruct new_sorter as [srt|].
  - set (w' := with_self (set_sorter_field (Some srt)) (emits [EvRef srt; EvConnect srt] w1)).
    assert (H2 : run_from false w1 w' st1 st1).
    { apply run_from_neutral; [by repeat constructor | done | exact Ht1]. }
    pose proof (sorter_changed_session E srt w' st1 (run_from_tracks _ _ _ _ _ H2)) as H3.
    exists Running. split; [|done].
    eapply run_from_trans; [exact H1|]. eapply run_from_trans; [exact H2|].
    eapply run_from_trans; [exact H3|].
    apply run_from_emit; [exact I | exact (run_from_tracks _ _ _ _ _ H3)].
  - exists st1. split; [|exact Hno1].
    eapply run_from_trans; [|apply run_from_emit; [exact I|]].
    + eapply run_from_trans; [exact H1|].
      apply run_from_maybe_emit; [exact I | exact Ht1].
    + by destruct (1 <? _).
Qed.

(** Edit handling keeps the discipline even in its strict form. *)
Lemma items_changed_session strict E n position removed added w st :
  (gtk_tim2_sort_model_should_sort E (self w) = true →
     store_ok n (items (self w)) ∧ edit_ok n position removed added) →
  tracks st (self w) → st ≠ Outdated →
  ∃ w' st',
    gtk_tim2_sort_model_items_changed_cb E position removed added w = Some w' ∧
    run_from strict w w' st st' ∧ st' ≠ Outdated.
Proof.
  intros Hpre Ht Hno.
  destruct (decide (removed = 0 ∧ added = 0)) as [[-> ->]|Hne].
  { exists w, st. split_and!; [reflexivity | by apply run_from_refl | exact Hno]. }
  destruct (gtk_tim2_sort_model_should_sort E (self w)) eqn:Hss.
  - destruct (Hpre eq_refl) as [Hok Hedit].
    destruct (items_changed_sorting E n position removed added w Hss Hok Hedit Hne)
      as (es & Hq & _ & Hrun).
    simpl in Hrun.
    eexists. exists (if edit_restarts (self w) added then Running else Idle).
    split; [exact Hrun|]. split; [|by destruct (edit_restarts _ _)].
    eexists. split_and!.
    + reflexivity.
    + rewrite session_run_app, (session_run_stop strict st _ Ht). simpl.
      rewrite session_run_app, (session_run_quiet strict es Hq). simpl.
      rewrite session_run_app, session_run_appends_idle. simpl.
      by destruct (edit_restarts (self w) added).
    + unfold tracks. simpl. destruct (edit_restarts (self w) added); split; done.
  - unfold gtk_tim2_sort_model_items_changed_cb.
    replace ((removed =? 0) && (added =? 0)) with false
      by (symmetry; apply andb_false_iff; rewrite !Z.eqb_neq; lia).
    rewrite Hss. simpl. eexists. exists st.
    split_and!; [reflexivity | by apply run_from_emit | exact Hno].
Qed.

Lemma session_of_settled s : session_of s ≠ Outdated.
Proof. unfold session_of. by destruct (gtk_tim2_sort_model_is_sorting s). Qed.

Lemma run_from_events strict w w' st st' :
  run_from strict w w' st st' → st' ≠ Outdated →
  session_run strict st (events_since w w') = Some (session_of (self w')).
Proof.
  intros (es & Htr & Hrun & Ht) Hno.
  rewrite (events_since_app w w' es Htr), Hrun.
  f_equal. by apply tracks_settled.
Qed.

(** C5, as the code has it.  Every public operation, run where the
    invariant held, returns with a trace in which: a session is
    initialised and registered only while none is registered (so at most
    one is active); the store is cleared, overwritten or truncated only
    while none is registered; entries appended while a session is still
    registered (the store being built from the backing sequence) are
    followed, before the operation returns, by that session's removal,
    and only then is a fresh one started; no step runs on a session
    whose array has grown.  Edit handling keeps the strict form as well:
    there even appending happens only while no session is registered. *)
Theorem session_discipline E op w :
  op_pre E op w →
  ∃ w', run_op E op w = Some w' ∧
    session_run false (session_of (self (op_start op w)))
      (events_since (op_start op w) w') = Some (session_of (self w')) ∧
    (∀ position removed added, op = OpItemsChanged position removed added →
       session_run true (session_of (self w)) (events_since w w')
         = Some (session_of (self w'))).
Proof.
  intros Hpre.
  destruct op as [m srt|m|srt| |position removed added]; simpl in *.
  - destruct (set_model_session E m gtk_tim2_sort_model_init Idle) as (st1 & H1 & Hno1);
      [by split | done |].
    destruct (set_sorter_session E srt _ st1 (run_from_tracks _ _ _ _ _ H1) Hno1)
      as (st2 & H2 & Hno2).
    eexists. split; [reflexivity|]. split; [|intros; discriminate].
    eapply run_from_events; [exact (run_from_trans _ _ _ _ _ _ _ H1 H2) | exact Hno2].
  - destruct (set_model_session E m w _ (tracks_session_of _) (session_of_settled _))
      as (st1 & H1 & Hno1).
    eexists. split; [reflexivity|]. split; [|intros; discriminate].
    eapply run_from_events; [exact H1 | exact Hno1].
  - destruct (set_sorter_session E srt w _ (tracks_session_of _) (session_of_settled _))
      as (st1 & H1 & Hno1).
    eexists. split; [reflexivity|]. split; [|intros; discriminate].
    eapply run_from_events; [exact H1 | exact Hno1].
  - destruct (sorter (self w)) as [srt|].
    + eexists. split; [reflexivity|]. split; [|intros; discriminate].
      eapply run_from_events; [apply sorter_changed_session, tracks_session_of | done].
    + exists w. split; [reflexivity|]. split; [|intros; discriminate].
      eapply run_from_events;
        [apply run_from_refl, tracks_session_of | apply session_of_settled].
  - destruct Hpre as (E0 & (Ho & Hedit & Hn) & Hinv).
    assert (Hpre : gtk_tim2_sort_model_should_sort E (self w) = true →
              store_ok (gtk_tim2_sort_model_get_n_items E0 (self w)) (items (self w)) ∧
              edit_ok (gtk_tim2_sort_model_get_n_items E0 (self w)) position removed added).
    { intros Hss. split; [|exact Hedit]. unfold model_inv in Hinv.
      by rewrite (should_sort_same_orders E0 E _ Ho), Hss in Hinv. }
    destruct (items_changed_session true E _ position removed added w _ Hpre
                (tracks_session_of _) (session_of_settled _))
      as (w' & st' & Hrun & Hfrom & Hno).
    destruct (items_changed_session false E _ position removed added w _ Hpre
                (tracks_session_of _) (session_of_settled _))
      as (w2 & st2 & Hrun2 & Hfrom2 & Hno2).
    rewrite Hrun in Hrun2. injection Hrun2 as <-.
    exists w'. split; [exact Hrun|]. split.
    + eapply run_from_events; [exact Hfrom2 | exact Hno2].
    + intros _ _ _ _. eapply run_from_events; [exact Hfrom | exact Hno].
Qed.

Lemma session_discipline_witness :
  ∃ w', run_op (sample_env [30; 40; 20] GTK_SORTER_ORDER_TOTAL) (OpItemsChanged 1 1 1)
          sample_new = Some w' ∧
    session_run false (session_of (self (op_start (OpItemsChanged 1 1 1) sample_new)))
      (events_since (op_start (OpItemsChanged 1 1 1) sample_new) w')
      = Some (session_of (self w')) ∧
    (∀ position removed added,
       OpItemsChanged 1 1 1 = OpItemsChanged position removed added →
       session_run true (session_of (self sample_new)) (events_since sample_new w')
         = Some (session_of (self w'))).
Proof.
  apply (session_discipline (sample_env [30; 40; 20] GTK_SORTER_ORDER_TOTAL)
           (OpItemsChanged 1 1 1) sample_new).
  exists sample_total. split; [split_and!|].
  - intros srt. reflexivity.
  - unfold edit_ok. decide_now.
  - reflexivity.
  - unfold model_inv. simpl. unfold store_ok. decide_now.
Defined.

(** C5 as stated fails on construction: [gtk_tim2_sort_model_new] with a
    model and a sorter appends the entries while the session started by
    [set_model] over the empty store is still registered. *)
Lemma construction_appends_under_session :
  run_op sample_total (OpNew (Some 100) (Some 200)) gtk_tim2_sort_model_init
    = Some sample_new ∧
  session_run true (session_of (self gtk_tim2_sort_model_init))
    (events_since gtk_tim2_sort_model_init sample_new) = None ∧
  take 11 (events_since gtk_tim2_sort_model_init sample_new)
    = [EvRef 100; EvConnect 100; EvSortInit 0; EvSortSetAlreadySorted 0;
       EvIdleAdd 1; EvNotify PROP_SORTING; EvItemsChanged 0 0 3;
       EvNotify PROP_MODEL; EvRef 200; EvConnect 200; EvStoreAppend].
Proof. split_and!; reflexivity. Qed.

(** * The notification after an edit *)

(** C3.  The range notified after an edit is computed as
    [(start, n - added + removed, n)] with [n = size - start - end], but
    it does not always cover what changed.  On the sorted view
    [10, 20, 30] of the backing sequence [30, 10, 20], replacing backing
    item 1 (the 10) by 40 leaves the view [20, 30, 40]: every position
    holds another item, and the notification sent is [(0, 1, 1)], which
    leaves positions 1 and 2 out.  Appending one item to the same
    sequence instead sends [(3, 4294967293, 4294967294)]: both untouched
    bands are counted as the whole store and the subtraction wraps. *)
Theorem edit_notification_too_narrow :
  (∃ w',
     gtk_tim2_sort_model_items_changed_cb
       (sample_env [30; 40; 20] GTK_SORTER_ORDER_TOTAL) 1 1 1 sample_sorted = Some w' ∧
     view sample_total (self sample_sorted) = [Some 10; Some 20; Some 30] ∧
     view (sample_env [30; 40; 20] GTK_SORTER_ORDER_TOTAL) (self w')
       = [Some 20; Some 30; Some 40] ∧
     notifications (events_since sample_sorted w') = [(0, 1, 1)] ∧
     ¬ notification_covers (view sample_total (self sample_sorted))
         (view (sample_env [30; 40; 20] GTK_SORTER_ORDER_TOTAL) (self w')) 0 1 1) ∧
  (∃ w',
     gtk_tim2_sort_model_items_changed_cb
       (sample_env [30; 10; 20; 40] GTK_SORTER_ORDER_TOTAL) 3 0 1 sample_sorted = Some w' ∧
     view (sample_env [30; 10; 20; 40] GTK_SORTER_ORDER_TOTAL) (self w')
       = [Some 10; Some 20; Some 30; Some 40] ∧
     notifications (events_since sample_sorted w') = [(3, 4294967293, 4294967294)]).
Proof.
  split.
  - eexists. split; [vm_compute; reflexivity|].
    split_and!; try (vm_compute; reflexivity).
    intros [_ Hdrop]. vm_compute in Hdrop. discriminate Hdrop.
  - eexists. split; [vm_compute; reflexivity|].
    split; vm_compute; reflexivity.
Qed.

(** The notification the handler computes, for every edit handled while
    sorting is enabled: [start] and [end] are the lengths of the longest
    prefix and suffix of the old store without a removed entry (both the
    whole length when nothing is removed). *)
Lemma edit_notification_formula E n position removed added w :
  gtk_tim2_sort_model_should_sort E (self w) = true →
  store_ok n (items (self w)) →
  edit_ok n position removed added →
  ¬ (removed = 0 ∧ added = 0) →
  ∃ w',
    gtk_tim2_sort_model_items_changed_cb E position removed added w = Some w' ∧
    let start := untouched_prefix position removed (items (self w)) in
    let end_ := untouched_suffix position removed (items (self w)) in
    let n_items := u32 (sort_array_get_size (items (self w')) - start - end_) in
    notifications (events_since w w')
      = [(start, u32 (u32 (n_items - added) + removed), n_items)].
Proof.
  intros Hsort Hok Hedit Hne.
  destruct (items_changed_sorting E n position removed added w Hsort Hok Hedit Hne)
    as (es & Hq & _ & Hrun).
  simpl in Hrun. eexists. split; [exact Hrun|].
  unfold events_since. simpl. rewrite drop_app_length.
  unfold notifications. rewrite !omap_app.
  fold (notifications es). rewrite (quiet_notifications es Hq).
  fold (notifications (replicate (Z.to_nat added) EvStoreAppend)).
  rewrite (quiet_notifications _ (quiet_appends _)).
  replace (omap _ (stop_events (self w))) with (@nil (Z * Z * Z))
    by (unfold stop_events; by destruct (sort_cb (self w) =? 0)).
  by destruct (edit_restarts (self w) added).
Qed.

(** X16. With nothing removed both bands are the whole store, and on a
    store that is not empty the subtraction wraps: an edit that only adds
    to a populated store of [n] entries, anywhere in the backing sequence,
    is notified as [(n, 2^32 - n, (added - n) mod 2^32)], the removal of
    [2^32 - n] items at the end of the view. *)
Lemma append_notification_wraps E n position added w :
  gtk_tim2_sort_model_should_sort E (self w) = true →
  store_ok n (items (self w)) →
  edit_ok n position 0 added →
  0 < added → 0 < n →
  ∃ w',
    gtk_tim2_sort_model_items_changed_cb E position 0 added w = Some w' ∧
    notifications (events_since w w') = [(n, guint_modulus - n, u32 (added - n))].
Proof.
  intros Hsort Hok Hedit Hadd Hn.
  destruct (edit_notification_formula E n position 0 added w Hsort Hok Hedit)
    as (w' & Hrun & Hnot); [lia|].
  exists w'. split; [exact Hrun|]. simpl in Hnot. rewrite Hnot.
  pose proof Hok as (Hlen & _ & _). pose proof Hedit as (?&?&?&?&?&?).
  assert (Hall : Forall (λ si, ¬ in_removed_range position 0 si) (items (self w))).
  { apply Forall_forall. intros si _. unfold in_removed_range. lia. }
  unfold untouched_prefix, untouched_suffix.
  rewrite (prefix_length_all _ _ _ Hall), (suffix_length_all _ _ _ Hall), Hlen.
  assert (Hsize : sort_array_get_size (items (self w')) = n + added).
  { destruct (items_changed_sorting E n position 0 added w Hsort Hok Hedit)
      as (es & _ & _ & Hrun2); [lia|].
    simpl in Hrun2. rewrite Hrun in Hrun2. injection Hrun2 as ->. simpl.
    unfold store_after, sort_array_get_size, reconciled.
    rewrite length_app, !length_fmap, length_seqZ.
    pose proof (kept_count n position 0 (items (self w)) Hok) as Hk. lia. }
  rewrite Hsize.
  replace (n + added - n - n) with (added - n) by lia.
  do 3 f_equal.
  unfold u32. rewrite Z.add_0_r, Zminus_mod_idemp_l.
  replace (added - n - added) with (- n) by lia.
  unfold guint_modulus in *. rewrite Z.mod_mod by lia.
  replace (- n) with (4294967296 - n + -1 * 4294967296) by lia.
  rewrite Z.mod_add by lia. apply Z.mod_small. lia.
Qed.

Lemma append_notification_wraps_witness :
  ∃ w',
    gtk_tim2_sort_model_items_changed_cb (sample_env [30; 10; 20; 40] GTK_SORTER_ORDER_TOTAL)
      3 0 1 sample_sorted = Some w' ∧
    notifications (events_since sample_sorted w')
      = [(3, guint_modulus - 3, u32 (1 - 3))].
Proof.
  apply (append_notification_wraps (sample_env [30; 10; 20; 40] GTK_SORTER_ORDER_TOTAL)
           3 3 1 sample_sorted).
  - vm_compute. reflexivity.
  - unfold store_ok. decide_now.
  - unfold edit_ok. decide_now.
  - lia.
  - lia.
Defined.

(** With a populated store the view is the store's items in order. *)
Lemma view_store E s :
  gtk_tim2_sort_model_should_sort E s = true →
  store_ok (gtk_tim2_sort_model_get_n_items E s) (items s) →
  view E s = si_item <$> items s.
Proof.
  intros Hss (Hlen & _ & _). unfold view.
  set (n := gtk_tim2_sort_model_get_n_items E s) in *.
  assert (Hm : ∃ m, model s = Some m).
  { unfold gtk_tim2_sort_model_should_sort in Hss.
    destruct (sorter s); [|discriminate]. destruct (model s); [eauto | discriminate]. }
  destruct Hm as (m & Hm).
  apply list_eq. intros i. rewrite !list_lookup_fmap.
  destruct (decide (Z.of_nat i < n)) as [Hi|Hi].
  - rewrite lookup_seqZ_lt by exact Hi. simpl. rewrite Z.add_0_l.
    unfold gtk_tim2_sort_model_get_item. rewrite Hm.
    destruct (items s) as [|si l] eqn:Hit; [simpl in Hlen; lia|].
    simpl sort_array_is_empty. cbv iota.
    destruct (Z.leb_spec (sort_array_get_size (si :: l)) (Z.of_nat i)) as [Hout|_];
      [unfold sort_array_get_size in Hout; lia|].
    simpl. rewrite Nat2Z.id.
    destruct (lookup_lt_is_Some_2 (si :: l) i) as [x Hx]; [lia|].
    by rewrite Hx.
  - rewrite lookup_seqZ_ge by lia.
    by rewrite (proj2 (lookup_ge_None (items s) i)) by lia.
Qed.

(** X15. An edit that only removes, handled while sorting is enabled on
    an object that satisfied the invariant before the edit, is notified
    soundly: exactly one items-changed is emitted and what the view holds
    outside the range it names is what it held before. *)
Lemma removal_notification_covers E0 E position removed w :
  same_orders E0 E →
  gtk_tim2_sort_model_should_sort E (self w) = true →
  model_inv E0 (self w) →
  edit_ok (gtk_tim2_sort_model_get_n_items E0 (self w)) position removed 0 →
  gtk_tim2_sort_model_get_n_items E (self w)
    = gtk_tim2_sort_model_get_n_items E0 (self w) - removed →
  0 < removed →
  ∃ w' p r a,
    gtk_tim2_sort_model_items_changed_cb E position removed 0 w = Some w' ∧
    notifications (events_since w w') = [(p, r, a)] ∧
    notification_covers (view E0 (self w)) (view E (self w')) p r a.
Proof.
  intros Ho Hss Hinv Hedit Hnew Hrem.
  set (n := gtk_tim2_sort_model_get_n_items E0 (self w)) in *.
  assert (Hss0 : gtk_tim2_sort_model_should_sort E0 (self w) = true)
    by (by rewrite (should_sort_same_orders E0 E _ Ho)).
  unfold model_inv in Hinv. rewrite Hss0 in Hinv. fold n in Hinv.
  pose proof Hinv as (Hlen & _ & _). pose proof Hedit as (Hp & _ & _ & Hpr & Hn & _).
  destruct (edit_notification_formula E n position removed 0 w Hss Hinv Hedit)
    as (w' & Hrun & Hnot); [lia|].
  destruct (items_changed_sorting E n position removed 0 w Hss Hinv Hedit)
    as (es & _ & _ & Hrun2); [lia|].
  simpl in Hrun2, Hnot. rewrite Hrun in Hrun2. injection Hrun2 as Hw'.
  assert (Hitems : items (self w') = reconciled position removed 0 (items (self w))).
  { rewrite Hw'. simpl. unfold store_after. rewrite seqZ_nil by lia. apply app_nil_r. }
  assert (Hmodel : model (self w') = model (self w)) by (by rewrite Hw').
  assert (Hsorter : sorter (self w') = sorter (self w)) by (by rewrite Hw').
  set (l := items (self w)) in *.
  set (P := λ si, ¬ in_removed_range position removed si).
  assert (Hkept : Z.of_nat (length (filter P l)) = n - removed)
    by (apply kept_count; (done || lia)).
  assert (Hsome : ¬ Forall P l).
  { intros Hall.
    pose proof (removed_range_count n position removed l Hinv Hp) as Hc.
    rewrite (filter_none (in_removed_range position removed) l) in Hc.
    - simpl in Hc. lia.
    - eapply Forall_impl; [exact Hall|]. by intros si Hsi. }
  destruct (bands_cover P (λ si, decide (P si)) si_item l Hsome) as (Hapart & Htake & Hdrop).
  set (k := prefix_length P (λ si, decide (P si)) l) in *.
  set (e := suffix_length P (λ si, decide (P si)) l) in *.
  assert (Hbands : Z.of_nat k + Z.of_nat e ≤ n - removed).
  { rewrite <- Hkept. apply Nat2Z.inj_le in Hapart. rewrite Nat2Z.inj_add in Hapart.
    exact Hapart. }
  assert (Hsize : sort_array_get_size (items (self w')) = n - removed).
  { rewrite Hitems. unfold sort_array_get_size, reconciled. rewrite length_fmap. exact Hkept. }
  rewrite Hsize in Hnot.
  change (untouched_prefix position removed l) with (Z.of_nat k) in Hnot.
  change (untouched_suffix position removed l) with (Z.of_nat e) in Hnot.
  rewrite (u32_small (n - removed - Z.of_nat k - Z.of_nat e)) in Hnot by lia.
  rewrite Z.sub_0_r in Hnot.
  rewrite (u32_small (n - removed - Z.of_nat k - Z.of_nat e)) in Hnot by lia.
  rewrite (u32_small (n - removed - Z.of_nat k - Z.of_nat e + removed)) in Hnot by lia.
  eexists w', _, _, _. split; [exact Hrun|]. split; [exact Hnot|].
  rewrite (view_store E0 (self w) Hss0 Hinv).
  rewrite (view_store E (self w')).
  - rewrite Hitems, reconciled_items. fold l. fold P. unfold notification_covers.
    rewrite Nat2Z.id. split; [exact Htake|].
    replace (Z.to_nat (Z.of_nat k + (n - removed - Z.of_nat k - Z.of_nat e)))
      with (length (filter P l) - e)%nat by lia.
    replace (Z.to_nat (Z.of_nat k + (n - removed - Z.of_nat k - Z.of_nat e + removed)))
      with (length l - e)%nat by lia.
    exact Hdrop.
  - unfold gtk_tim2_sort_model_should_sort. rewrite Hmodel, Hsorter. exact Hss.
  - replace (gtk_tim2_sort_model_get_n_items E (self w')) with (n - removed + 0).
    + rewrite Hitems.
      pose proof (edited_store_ok E (model (self w)) n position removed 0 l Hinv Hedit)
        as Hok'.
      rewrite seqZ_nil in Hok' by lia. simpl in Hok'. by rewrite app_nil_r in Hok'.
    + unfold gtk_tim2_sort_model_get_n_items in *. rewrite Hmodel. lia.
Qed.

Lemma removal_notification_covers_witness :
  ∃ w' p r a,
    gtk_tim2_sort_model_items_changed_cb (sample_env [30; 20] GTK_SORTER_ORDER_TOTAL)
      1 1 0 sample_sorted = Some w' ∧
    notifications (events_since sample_sorted w') = [(p, r, a)] ∧
    notification_covers (view sample_total (self sample_sorted))
      (view (sample_env [30; 20] GTK_SORTER_ORDER_TOTAL) (self w')) p r a.
Proof.
  apply (removal_notification_covers sample_total
           (sample_env [30; 20] GTK_SORTER_ORDER_TOTAL) 1 1 sample_sorted).
  - intros srt. reflexivity.
  - vm_compute. reflexivity.
  - unfold model_inv. simpl. unfold store_ok. decide_now.
  - unfold edit_ok. decide_now.
  - vm_compute. reflexivity.
  - lia.
Defined.

(** * The accessors *)

Lemma set_model_same_reference E w :
  gtk_tim2_sort_model_set_model E (model (self w)) w = w.
Proof. unfold gtk_tim2_sort_model_set_model. by rewrite decide_True. Qed.

Lemma set_model_other_reference_notifies E new_model w :
  model (self w) ≠ new_model →
  last (trace (gtk_tim2_sort_model_set_model E new_model w)) = Some (EvNotify PROP_MODEL).
Proof.
  intros Hne. unfold gtk_tim2_sort_model_set_model. rewrite decide_False by exact Hne.
  destruct new_model as [m|]; simpl;
    change (trace (emit ?e ?w0)) with (trace w0 ++ [e]); apply last_snoc.
Qed.

Lemma set_sorter_always_notifies E new_sorter w :
  last (trace (gtk_tim2_sort_model_set_sorter E new_sorter w))
  = Some (EvNotify PROP_SORTER).
Proof.
  unfold gtk_tim2_sort_model_set_sorter.
  change (trace (emit ?e ?w0)) with (trace w0 ++ [e]). apply last_snoc.
Qed.

(** C9.  [gtk_tim2_sort_model_set_model] returns at once when given the
    model it holds, [gtk_tim2_sort_model_set_sorter] has no such test:
    given the sorter it already holds, it drops every reference of the
    store, rebuilds the store in backing order, restarts the sort and
    sends an items-changed and a property notification. *)
Theorem set_sorter_same_reference_rebuilds :
  sorter (self sample_sorted) = Some 200 ∧
  gtk_tim2_sort_model_set_model sample_total (model (self sample_sorted)) sample_sorted
    = sample_sorted ∧
  events_since sample_sorted
    (gtk_tim2_sort_model_set_sorter sample_total (Some 200) sample_sorted)
  = [EvDisconnect 200; EvUnref 200; EvUnref 10; EvUnref 20; EvUnref 30; EvStoreClear;
     EvRef 200; EvConnect 200; EvStoreAppend; EvStoreAppend; EvStoreAppend;
     EvSortInit 3; EvSortSetAlreadySorted 0; EvIdleAdd 3; EvNotify PROP_SORTING;
     EvItemsChanged 0 3 3; EvNotify PROP_SORTER] ∧
  view sample_total (self sample_sorted) = [Some 10; Some 20; Some 30] ∧
  view sample_total
    (self (gtk_tim2_sort_model_set_sorter sample_total (Some 200) sample_sorted))
  = [Some 30; Some 10; Some 20].
Proof. split_and!; vm_compute; reflexivity. Qed.

(** * The view against the backing sequence *)

Lemma backing_items_seq E s :
  backing_item E s <$> seqZ 0 (gtk_tim2_sort_model_get_n_items E s)
  = Some <$> backing_list E s.
Proof.
  unfold backing_item, backing_list, gtk_tim2_sort_model_get_n_items,
    g_list_model_get_n_items, g_list_model_get_item.
  destruct (model s) as [m|]; [|reflexivity]. simpl.
  set (c := g_list_model_contents E m).
  apply list_eq. intros i. rewrite !list_lookup_fmap.
  destruct (decide (i < length c)%nat) as [Hi|Hi].
  - rewrite lookup_seqZ_lt by lia. simpl. rewrite Z.add_0_l, Nat2Z.id.
    destruct (lookup_lt_is_Some_2 c i) as [x Hx]; [lia|]. by rewrite Hx.
  - rewrite lookup_seqZ_ge by lia. by rewrite (proj2 (lookup_ge_None c i)) by lia.
Qed.

Lemma empty_store_view E s :
  items s = [] → view E s = Some <$> backing_list E s.
Proof.
  intros Hempty. rewrite <- backing_items_seq. unfold view.
  apply list_fmap_ext. intros i x Hx.
  unfold gtk_tim2_sort_model_get_item, backing_item. rewrite Hempty.
  by destruct (model s).
Qed.

Lemma populated_store_view E s :
  gtk_tim2_sort_model_should_sort E s = true →
  store_ok (gtk_tim2_sort_model_get_n_items E s) (items s) →
  store_matches E s →
  view E s ≡ₚ Some <$> backing_list E s.
Proof.
  intros Hss Hok Hmatch. rewrite (view_store E s Hss Hok).
  rewrite <- backing_items_seq.
  rewrite <- (store_positions_Permutation _ _ Hok).
  rewrite <- list_fmap_compose.
  rewrite (list_fmap_ext si_item (backing_item E s ∘ si_position) (items s)); [done|].
  intros i si Hsi. unfold store_matches in Hmatch. rewrite Forall_forall in Hmatch.
  apply Hmatch. by eapply list_elem_of_lookup_2.
Qed.

(** X1. With sorting disabled (no model, no sorter, or a sorter whose
    order is [GTK_SORTER_ORDER_NONE]) an object that satisfies the invariant
    shows the backing sequence itself: [get_n_items] is its length and
    [get_item] returns its item at every position; without a model the
    view is empty. *)
Theorem passthrough_view_is_backing E s :
  model_inv E s →
  gtk_tim2_sort_model_should_sort E s = false →
  view E s = Some <$> backing_list E s.
Proof.
  intros Hinv Hss. unfold model_inv in Hinv. rewrite Hss in Hinv.
  by apply empty_store_view.
Qed.

Lemma passthrough_view_is_backing_witness :
  view sample_total (self sample_passthrough)
  = Some <$> backing_list sample_total (self sample_passthrough).
Proof.
  apply (passthrough_view_is_backing sample_total (self sample_passthrough)).
  - vm_compute. reflexivity.
  - vm_compute. reflexivity.
Defined.

(** X2. When the object satisfies the invariant and every entry of the
    store holds the item the backing sequence has at the entry's position,
    the view is a permutation of the backing sequence: it has the same
    length, and [get_item] returns an item, never [NULL], at every
    position below [get_n_items]. *)
Theorem sorted_view_is_permutation E s :
  model_inv E s → store_matches E s →
  view E s ≡ₚ Some <$> backing_list E s ∧
  length (view E s) = length (backing_list E s) ∧
  Forall is_Some (view E s).
Proof.
  intros Hinv Hmatch.
  assert (Hperm : view E s ≡ₚ Some <$> backing_list E s).
  { unfold model_inv in Hinv.
    destruct (gtk_tim2_sort_model_should_sort E s) eqn:Hss.
    - by apply populated_store_view.
    - by rewrite empty_store_view. }
  split_and!; [exact Hperm | |].
  - by rewrite Hperm, length_fmap.
  - rewrite Hperm. apply Forall_fmap, Forall_true. intros x. by exists x.
Qed.

Lemma sorted_view_is_permutation_witness :
  view sample_total (self sample_sorted)
    ≡ₚ Some <$> backing_list sample_total (self sample_sorted) ∧
  length (view sample_total (self sample_sorted))
    = length (backing_list sample_total (self sample_sorted)) ∧
  Forall is_Some (view sample_total (self sample_sorted)).
Proof.
  apply (sorted_view_is_permutation sample_total (self sample_sorted)).
  - unfold model_inv. simpl. unfold store_ok. decide_now.
  - unfold store_matches. decide_now.
Defined.

(** * Entries of the store and the backing sequence *)

Lemma store_matches_ext E s s' :
  model s' = model s → items s' = items s → store_matches E s → store_matches E s'.
Proof.
  intros Hm Hit. unfold store_matches, backing_item. by rewrite Hm, Hit.
Qed.

Lemma store_matches_nil E s : items s = [] → store_matches E s.
Proof. intros Hit. unfold store_matches. rewrite Hit. constructor. Qed.

Lemma backing_list_same_lists E0 E s :
  same_lists E0 E → backing_list E0 s = backing_list E s.
Proof. intros Hl. unfold backing_list. by destruct (model s). Qed.

Lemma backing_item_lookup E s position :
  backing_item E s position = backing_list E s !! Z.to_nat position.
Proof.
  unfold backing_item, backing_list, g_list_model_get_item.
  by destruct (model s).
Qed.

Lemma store_matches_env E0 E s :
  backing_list E0 s = backing_list E s → store_matches E0 s → store_matches E s.
Proof.
  intros Hl Hmatch. unfold store_matches in *.
  eapply Forall_impl; [exact Hmatch|]. intros si Hsi. simpl in *.
  by rewrite backing_item_lookup, <- Hl, <- backing_item_lookup.
Qed.

Lemma backing_entries_match E s (idx : list Z) :
  Forall (λ si, si_item si = backing_item E s (si_position si))
    (backing_entry E (model s) <$> idx).
Proof. apply Forall_fmap, Forall_true. intros i. reflexivity. Qed.

Lemma create_items_matches E w :
  items (self w) = [] → store_matches E (self (gtk_tim2_sort_model_create_items E w)).
Proof.
  intros Hempty. rewrite create_items_eq.
  destruct (gtk_tim2_sort_model_should_sort E (self w)).
  - unfold store_matches. simpl. rewrite Hempty. simpl.
    apply (backing_entries_match E (self w)).
  - by apply store_matches_nil.
Qed.

Lemma resort_matches E already_sorted w :
  store_matches E (self w) →
  store_matches E (self (gtk_tim2_sort_model_resort already_sorted w)).
Proof. intros H. rewrite resort_eq. by apply (store_matches_ext E (self w)). Qed.

Lemma sorter_changed_matches E srt w :
  store_matches E (self w) →
  store_matches E (self (gtk_tim2_sort_model_sorter_changed_cb E srt w)).
Proof.
  intros Hmatch. unfold gtk_tim2_sort_model_sorter_changed_cb.
  set (w1 := match gtk_sorter_get_order E srt with
             | GTK_SORTER_ORDER_NONE => _ | _ => _ end).
  assert (H1 : store_matches E (self w1)).
  { assert (Hkeep : store_matches E
        (self (if sort_array_is_empty (items (self w))
               then gtk_tim2_sort_model_create_items E w else w))).
    { destruct (items (self w)) as [|si l] eqn:Hit; simpl; [|exact Hmatch].
      by apply create_items_matches. }
    subst w1. destruct (gtk_sorter_get_order E srt); try exact Hkeep.
    rewrite clear_items_eq. by apply store_matches_nil. }
  pose proof (resort_matches E 0 w1 H1) as H2.
  by destruct (1 <? _).
Qed.

Lemma set_model_matches E new_model w :
  model_inv E (self w) → store_matches E (self w) →
  store_matches E (self (gtk_tim2_sort_model_set_model E new_model w)).
Proof.
  intros Hinv Hmatch. unfold gtk_tim2_sort_model_set_model.
  destruct (decide (model (self w) = new_model)) as [_|_]; [exact Hmatch|].
  destruct (clear_model_obs E w Hinv) as (Hm & Hso & Hit).
  set (w1 := gtk_tim2_sort_model_clear_model w) in *.
  destruct new_model as [m|].
  - set (w' := with_self (set_model_field (Some m)) (emits [EvRef m; EvConnect m] w1)).
    assert (H2 : store_matches E (self (gtk_tim2_sort_model_resort 0
                   (gtk_tim2_sort_model_create_items E w')))).
    { apply resort_matches, create_items_matches. exact Hit. }
    simpl. by destruct (_ || _).
  - assert (H1 : store_matches E (self w1)) by (by apply store_matches_nil).
    simpl. by destruct (_ || _).
Qed.

Lemma set_sorter_matches E new_sorter w :
  model_inv E (self w) →
  store_matches E (self (gtk_tim2_sort_model_set_sorter E new_sorter w)).
Proof.
  intros Hinv. unfold gtk_tim2_sort_model_set_sorter.
  destruct (clear_sorter_obs E w Hinv) as (Hm & Hso & Hit).
  set (w1 := gtk_tim2_sort_model_clear_sorter w) in *.
  destruct new_sorter as [srt|].
  - simpl. apply sorter_changed_matches. by apply store_matches_nil.
  - assert (H1 : store_matches E (self w1)) by (by apply store_matches_nil).
    simpl. by destruct (1 <? _).
Qed.

(** What a covering notification says item by item. *)
Lemma covers_lookup_before {A} (old new : list A) position removed added i :
  notification_covers old new position removed added →
  0 ≤ i < position →
  new !! Z.to_nat i = old !! Z.to_nat i.
Proof.
  intros [Htake _] Hi.
  rewrite <- (lookup_take_lt new (Z.to_nat position) (Z.to_nat i)) by lia.
  rewrite <- (lookup_take_lt old (Z.to_nat position) (Z.to_nat i)) by lia.
  by rewrite Htake.
Qed.

Lemma covers_lookup_after {A} (old new : list A) position removed added i :
  notification_covers old new position removed added →
  0 ≤ position → 0 ≤ removed → 0 ≤ added →
  position + removed ≤ i →
  new !! Z.to_nat (i - removed + added) = old !! Z.to_nat i.
Proof.
  intros [_ Hdrop] Hp Hr Ha Hi.
  replace (Z.to_nat (i - removed + added))
    with (Z.to_nat (position + added) + Z.to_nat (i - position - removed))%nat by lia.
  replace (Z.to_nat i)
    with (Z.to_nat (position + removed) + Z.to_nat (i - position - removed))%nat by lia.
  rewrite <- !lookup_drop. by rewrite Hdrop.
Qed.

Lemma covers_nothing {A} (old new : list A) position :
  notification_covers old new position 0 0 → new = old.
Proof.
  intros [Htake Hdrop]. rewrite Z.add_0_r in Hdrop.
  rewrite <- (take_drop (Z.to_nat position) new), Htake, Hdrop.
  apply take_drop.
Qed.

Lemma reconciled_matches E0 E s position removed added n :
  store_ok n (items s) →
  0 ≤ position → 0 ≤ removed → 0 ≤ added →
  notification_covers (backing_list E0 s) (backing_list E s) position removed added →
  store_matches E0 s →
  Forall (λ si, si_item si = backing_item E s (si_position si))
    (reconciled position removed added (items s)).
Proof.
  intros (_ & _ & Hrange) Hp Hr Ha Hcov Hmatch.
  unfold reconciled. apply Forall_fmap, Forall_forall.
  intros si [Hout Hin]%list_elem_of_filter.
  unfold store_matches in Hmatch. rewrite Forall_forall in Hrange, Hmatch.
  specialize (Hrange si Hin). specialize (Hmatch si Hin). simpl in Hmatch.
  unfold in_removed_range in Hout. simpl.
  unfold reconcile_entry. destruct (decide (position + removed ≤ si_position si)); simpl.
  - rewrite Hmatch, !backing_item_lookup.
    symmetry. by apply (covers_lookup_after _ _ position).
  - rewrite Hmatch, !backing_item_lookup.
    symmetry. apply (covers_lookup_before _ _ position removed added); [done | lia].
Qed.

Lemma items_changed_matches E E0 position removed added w :
  same_orders E0 E →
  edit_ok (gtk_tim2_sort_model_get_n_items E0 (self w)) position removed added →
  notification_covers (backing_list E0 (self w)) (backing_list E (self w))
    position removed added →
  model_inv E0 (self w) → store_matches E0 (self w) →
  ∀ w', gtk_tim2_sort_model_items_changed_cb E position removed added w = Some w' →
        store_matches E (self w').
Proof.
  intros Ho Hedit Hcov Hinv Hmatch w' Hrun.
  unfold model_inv in Hinv. rewrite (should_sort_same_orders E0 E _ Ho) in Hinv.
  destruct (decide (removed = 0 ∧ added = 0)) as [[-> ->]|Hne].
  { injection Hrun as <-. apply (store_matches_env E0); [|exact Hmatch].
    symmetry. by apply (covers_nothing _ _ position). }
  destruct (gtk_tim2_sort_model_should_sort E (self w)) eqn:Hss.
  - destruct (items_changed_sorting E _ position removed added w Hss Hinv Hedit Hne)
      as (es & _ & _ & Hrun2).
    simpl in Hrun2. rewrite Hrun in Hrun2. injection Hrun2 as ->.
    unfold store_matches. simpl. unfold store_after.
    destruct Hedit as (Hp & Hr & Ha & _).
    apply Forall_app. split.
    + by apply (reconciled_matches E0 E (self w) position removed added _ Hinv).
    + apply (backing_entries_match E (self w)).
  - unfold gtk_tim2_sort_model_items_changed_cb in Hrun.
    replace ((removed =? 0) && (added =? 0)) with false in Hrun
      by (symmetry; apply andb_false_iff; rewrite !Z.eqb_neq; lia).
    rewrite Hss in Hrun. simpl in Hrun. injection Hrun as <-.
    by apply store_matches_nil.
Qed.

(** The idle callback keeps the entries as long as the engine's step only
    reorders the array. *)
Lemma sort_cb_matches E w :
  (gtk_tim_sort_step E (sort (self w)) (items (self w))).2 ≡ₚ items (self w) →
  store_matches E (self w) →
  store_matches E (self (gtk_tim2_sort_model_sort_cb E w).1).
Proof.
  intros Hperm Hmatch. unfold gtk_tim2_sort_model_sort_cb.
  destruct (gtk_tim_sort_step E (sort (self w)) (items (self w))) as [[b t] l].
  simpl in Hperm.
  assert (Hl : store_matches E (set_items_field l (set_sort_field t (self w)))).
  { unfold store_matches in *. simpl. by rewrite Hperm. }
  destruct b; simpl; [exact Hl|].
  rewrite stop_sorting_eq. simpl. by apply (store_matches_ext E _ _ eq_refl eq_refl).
Qed.

Lemma op_pre_matching_pre E op w : op_pre_matching E op w → op_pre E op w.
Proof.
  destruct op; simpl; try done; intros (E0 & Hstep & _ & Hinv & _); by exists E0.
Qed.

(** Every operation returns and keeps the invariant. *)
Lemma run_op_inv E op w :
  op_pre E op w → ∃ w', run_op E op w = Some w' ∧ model_inv E (self w').
Proof.
  intros Hpre.
  destruct op as [m srt|m|srt| |position removed added]; simpl in *.
  - eexists. split; [reflexivity|].
    apply set_sorter_inv, set_model_inv, init_inv.
  - destruct Hpre as (E0 & (Hl & Ho) & Hinv).
    eexists. split; [reflexivity|].
    apply set_model_inv. by apply (model_inv_env E0).
  - destruct Hpre as (E0 & (Hl & Ho) & Hinv).
    eexists. split; [reflexivity|].
    apply set_sorter_inv. by apply (model_inv_env E0).
  - destruct Hpre as (E0 & Hl & Hinv).
    destruct (sorter (self w)) as [srt|] eqn:Hsrt.
    + eexists. split; [reflexivity|].
      apply sorter_changed_inv; [exact Hsrt|].
      unfold model_inv in Hinv.
      destruct (gtk_tim2_sort_model_should_sort E0 (self w)) eqn:Hss; [|by left].
      right. rewrite <- (n_items_same_lists E0 E _ Hl). split; [|exact Hinv].
      unfold gtk_tim2_sort_model_should_sort in Hss. rewrite Hsrt in Hss.
      by destruct (model (self w)).
    + exists w. split; [reflexivity|].
      apply degraded_inv; [by right|].
      unfold model_inv, gtk_tim2_sort_model_should_sort in Hinv. by rewrite Hsrt in Hinv.
  - destruct Hpre as (E0 & (Ho & Hedit & Hn) & Hinv).
    by apply (items_changed_inv E E0).
Qed.

Lemma run_op_matches E op w w' :
  op_pre_matching E op w → run_op E op w = Some w' → store_matches E (self w').
Proof.
  intros Hpre Hrun.
  destruct op as [m srt|m|srt| |position removed added]; simpl in *.
  - injection Hrun as <-. apply set_sorter_matches, set_model_inv, init_inv.
  - destruct Hpre as (E0 & (Hl & Ho) & _ & Hinv & Hmatch). injection Hrun as <-.
    apply set_model_matches; [by apply (model_inv_env E0)|].
    apply (store_matches_env E0); [by apply backing_list_same_lists | done].
  - destruct Hpre as (E0 & (Hl & Ho) & _ & Hinv & Hmatch). injection Hrun as <-.
    apply set_sorter_matches. by apply (model_inv_env E0).
  - destruct Hpre as (E0 & Hl & _ & Hinv & Hmatch).
    assert (Hm : store_matches E (self w))
      by (apply (store_matches_env E0); [by apply backing_list_same_lists | done]).
    destruct (sorter (self w)) as [srt|]; injection Hrun as <-; [|exact Hm].
    by apply sorter_changed_matches.
  - destruct Hpre as (E0 & (Ho & Hedit & Hn) & Hcov & Hinv & Hmatch).
    by apply (items_changed_matches E E0 position removed added w).
Qed.

(** X3. Every public operation (construction, [set_model],
    [set_sorter], the sorter's "changed", the backing sequence's
    "items-changed"), run on an object that satisfied the invariant and
    whose entries matched the backing sequence before the collaborators
    changed (for "items-changed": the backing sequence changed only inside
    the range the signal names), returns and leaves every entry holding
    the item the backing sequence has at the entry's position; the view is
    again a permutation of the backing sequence. *)
Theorem public_operations_keep_entries_matching E op w :
  op_pre_matching E op w →
  ∃ w', run_op E op w = Some w' ∧
        model_inv E (self w') ∧
        store_matches E (self w') ∧
        view E (self w') ≡ₚ Some <$> backing_list E (self w').
Proof.
  intros Hpre.
  destruct (run_op_inv E op w (op_pre_matching_pre E op w Hpre)) as (w' & Hrun & Hinv).
  pose proof (run_op_matches E op w w' Hpre Hrun) as Hmatch.
  exists w'. split_and!; try done.
  unfold model_inv in Hinv.
  destruct (gtk_tim2_sort_model_should_sort E (self w')) eqn:Hss.
  - by apply populated_store_view.
  - by rewrite empty_store_view.
Qed.

Lemma public_operations_keep_entries_matching_witness :
  ∃ w', run_op (sample_env [30; 40; 20] GTK_SORTER_ORDER_TOTAL) (OpItemsChanged 1 1 1)
          sample_sorted = Some w' ∧
        model_inv (sample_env [30; 40; 20] GTK_SORTER_ORDER_TOTAL) (self w') ∧
        store_matches (sample_env [30; 40; 20] GTK_SORTER_ORDER_TOTAL) (self w') ∧
        view (sample_env [30; 40; 20] GTK_SORTER_ORDER_TOTAL) (self w')
          ≡ₚ Some <$> backing_list (sample_env [30; 40; 20] GTK_SORTER_ORDER_TOTAL) (self w').
Proof.
  apply (public_operations_keep_entries_matching
           (sample_env [30; 40; 20] GTK_SORTER_ORDER_TOTAL) (OpItemsChanged 1 1 1)
           sample_sorted).
  exists sample_total. split; [split_and!|split_and!].
  - intros srt. reflexivity.
  - unfold edit_ok. decide_now.
  - reflexivity.
  - split; vm_compute; reflexivity.
  - unfold model_inv. simpl. unfold store_ok. decide_now.
  - unfold store_matches. decide_now.
Defined.

(** * More closed forms *)

Lemma clear_model_eq w :
  gtk_tim2_sort_model_clear_model w =
  match model (self w) with
  | None => w
  | Some m =>
    {| self := set_items_field [] (set_sort_cb_field 0 (set_model_field None (self w)));
       trace := trace w ++ [EvDisconnect m; EvUnref m] ++ stop_events (self w)
                  ++ (items (self w) ≫= sort_item_clear_events) ++ [EvStoreClear];
       next_source := next_source w |}
  end.
Proof.
  unfold gtk_tim2_sort_model_clear_model. destruct (model (self w)); [|reflexivity].
  rewrite clear_items_eq. unfold emits, with_self. simpl.
  by rewrite <- !app_assoc.
Qed.

Lemma clear_sorter_eq w :
  gtk_tim2_sort_model_clear_sorter w =
  match sorter (self w) with
  | None => w
  | Some srt =>
    {| self := set_items_field [] (set_sort_cb_field 0 (set_sorter_field None (self w)));
       trace := trace w ++ [EvDisconnect srt; EvUnref srt] ++ stop_events (self w)
                  ++ (items (self w) ≫= sort_item_clear_events) ++ [EvStoreClear];
       next_source := next_source w |}
  end.
Proof.
  unfold gtk_tim2_sort_model_clear_sorter. destruct (sorter (self w)); [|reflexivity].
  rewrite clear_items_eq. unfold emits, with_self. simpl.
  by rewrite <- !app_assoc.
Qed.

Lemma resort_hint_zero s : resort_hint s 0 = 0.
Proof. unfold resort_hint. by destruct (gtk_tim2_sort_model_is_sorting s). Qed.

(** * More projections *)

Lemma notifications_app es1 es2 :
  notifications (es1 ++ es2) = notifications es1 ++ notifications es2.
Proof. unfold notifications. apply omap_app. Qed.

Lemma silent_notifications es : Forall silent_event es → notifications es = [].
Proof.
  induction 1 as [|e es He _ IH]; [reflexivity|].
  destruct e; simpl in *; (done || exact IH).
Qed.

Lemma silent_stop_events s : Forall silent_event (stop_events s).
Proof. unfold stop_events. destruct (sort_cb s =? 0); repeat constructor. Qed.

Lemma silent_clear_events l : Forall silent_event (l ≫= sort_item_clear_events).
Proof.
  induction l as [|si l IH]; [constructor|]. simpl. apply Forall_app. split; [|exact IH].
  unfold sort_item_clear_events. destruct (si_item si); repeat constructor.
Qed.

Lemma silent_appends k : Forall silent_event (replicate k EvStoreAppend).
Proof. induction k; simpl; by constructor. Qed.

Lemma silent_resort_events w already_sorted :
  Forall silent_event (resort_events w already_sorted).
Proof.
  unfold resort_events. apply Forall_app. split; [apply silent_stop_events|].
  repeat constructor.
Qed.

Lemma released_stop_events s : released (stop_events s) = [].
Proof. unfold stop_events. by destruct (sort_cb s =? 0). Qed.

Lemma released_store l : released (l ≫= sort_item_clear_events) = omap si_item l.
Proof.
  induction l as [|si l IH]; [reflexivity|]. rewrite bind_cons, released_app, IH.
  rewrite released_clear_events. simpl. by destruct (si_item si).
Qed.

Lemma sources_removed_app es1 es2 :
  sources_removed (es1 ++ es2) = sources_removed es1 ++ sources_removed es2.
Proof. unfold sources_removed. apply omap_app. Qed.

Lemma sources_removed_store l : sources_removed (l ≫= sort_item_clear_events) = [].
Proof.
  induction l as [|si l IH]; [reflexivity|]. rewrite bind_cons, sources_removed_app, IH.
  unfold sort_item_clear_events. by destruct (si_item si).
Qed.

Lemma sources_removed_stop s :
  sources_removed (stop_events s) = if sort_cb s =? 0 then [] else [sort_cb s].
Proof. unfold stop_events. by destruct (sort_cb s =? 0). Qed.

(** * Disposal *)

(** X4. [gtk_tim2_sort_model_dispose], on an object that satisfies the
    invariant and has an idle source registered only while it holds a
    model or a sorter, leaves no model, no sorter, an empty store and no
    registered idle source.  It releases the model, every item of the
    store and the sorter, each exactly once and in this order, removes the
    idle source that was registered and no other, and disposing a second
    time changes nothing. *)
Theorem dispose_releases_everything E w :
  model_inv E (self w) → session_held (self w) →
  let w' := gtk_tim2_sort_model_dispose w in
  model (self w') = None ∧ sorter (self w') = None ∧
  items (self w') = [] ∧ sort_cb (self w') = 0 ∧
  released (events_since w w')
    = option_list (model (self w)) ++ omap si_item (items (self w))
        ++ option_list (sorter (self w)) ∧
  sources_removed (events_since w w')
    = (if sort_cb (self w) =? 0 then [] else [sort_cb (self w)]) ∧
  gtk_tim2_sort_model_dispose w' = w'.
Proof.
  intros Hinv Hheld. unfold gtk_tim2_sort_model_dispose.
  rewrite clear_model_eq.
  destruct (model (self w)) as [m|] eqn:Hm.
  - rewrite clear_sorter_eq. simpl.
    destruct (sorter (self w)) as [srt|] eqn:Hs; simpl.
    + split_and!; try done.
      * unfold events_since. simpl. rewrite <- !app_assoc, drop_app_length.
        simpl. rewrite !released_app, released_stop_events, released_store. simpl.
        try reflexivity; by rewrite !app_nil_r.
      * unfold events_since. simpl. rewrite <- !app_assoc, drop_app_length.
        simpl. rewrite !sources_removed_app, sources_removed_stop, sources_removed_store.
        unfold sources_removed. simpl. by rewrite ?app_nil_r.
    + split_and!; try done.
      * unfold events_since. simpl. rewrite drop_app_length.
        simpl. rewrite !released_app, released_stop_events, released_store. simpl.
        try reflexivity; by rewrite !app_nil_r.
      * unfold events_since. simpl. rewrite drop_app_length.
        simpl. rewrite !sources_removed_app, sources_removed_stop, sources_removed_store.
        unfold sources_removed. simpl. by rewrite ?app_nil_r.
      * rewrite clear_model_eq. simpl. rewrite clear_sorter_eq. simpl. by rewrite ?Hs, ?Hm.
  - assert (Hit : items (self w) = []).
    { unfold model_inv, gtk_tim2_sort_model_should_sort in Hinv. rewrite Hm in Hinv.
      by destruct (sorter (self w)). }
    rewrite clear_sorter_eq.
    destruct (sorter (self w)) as [srt|] eqn:Hs; simpl.
    + split_and!; try done.
      * unfold events_since. simpl. rewrite drop_app_length.
        simpl. rewrite !released_app, released_stop_events, released_store. simpl.
        rewrite Hit. reflexivity.
      * unfold events_since. simpl. rewrite drop_app_length.
        simpl. rewrite !sources_removed_app, sources_removed_stop, sources_removed_store.
        unfold sources_removed. simpl. by rewrite ?app_nil_r.
      * rewrite clear_model_eq. simpl. rewrite clear_sorter_eq. simpl. by rewrite ?Hs, ?Hm.
    + assert (Hcb : sort_cb (self w) = 0).
      { destruct (decide (sort_cb (self w) = 0)) as [Hz|Hnz]; [exact Hz|].
        destruct (Hheld Hnz) as [H|H]; by destruct H. }
      rewrite Hm, Hs, Hit, Hcb, events_since_refl. split_and!; try done.
      rewrite clear_model_eq, Hm. by rewrite clear_sorter_eq, Hs.
Qed.

Lemma dispose_releases_everything_witness :
  let w' := gtk_tim2_sort_model_dispose sample_new in
  model (self w') = None ∧ sorter (self w') = None ∧
  items (self w') = [] ∧ sort_cb (self w') = 0 ∧
  released (events_since sample_new w')
    = option_list (model (self sample_new)) ++ omap si_item (items (self sample_new))
        ++ option_list (sorter (self sample_new)) ∧
  sources_removed (events_since sample_new w')
    = (if sort_cb (self sample_new) =? 0 then [] else [sort_cb (self sample_new)]) ∧
  gtk_tim2_sort_model_dispose w' = w'.
Proof.
  apply (dispose_releases_everything sample_total sample_new).
  - unfold model_inv. simpl. unfold store_ok. decide_now.
  - unfold session_held. decide_now.
Defined.

(** * Sessions across the operations *)

Lemma resort_fresh w :
  session_fresh (self (gtk_tim2_sort_model_resort 0 w)) ∧
  sort_cb (self (gtk_tim2_sort_model_resort 0 w)) ≠ 0.
Proof.
  rewrite resort_eq. unfold session_fresh. simpl. rewrite resort_hint_zero.
  unfold sort_array_get_size. split_and!; (done || lia).
Qed.

Lemma session_fresh_ext s s' :
  sort s' = sort s → sorter s' = sorter s → items s' = items s →
  session_fresh s → session_fresh s'.
Proof. intros Ht Hso Hit. unfold session_fresh. by rewrite Ht, Hso, Hit. Qed.

Lemma sorter_changed_fields E srt w :
  let w' := gtk_tim2_sort_model_sorter_changed_cb E srt w in
  model (self w') = model (self w) ∧ sorter (self w') = sorter (self w) ∧
  sort_cb (self w') ≠ 0 ∧ session_fresh (self w').
Proof.
  unfold gtk_tim2_sort_model_sorter_changed_cb.
  set (w1 := match gtk_sorter_get_order E srt with
             | GTK_SORTER_ORDER_NONE => _ | _ => _ end).
  assert (H1 : model (self w1) = model (self w) ∧ sorter (self w1) = sorter (self w)).
  { assert (Hkeep : ∀ w0, w0 = (if sort_array_is_empty (items (self w))
                                then gtk_tim2_sort_model_create_items E w else w) →
              model (self w0) = model (self w) ∧ sorter (self w0) = sorter (self w)).
    { intros w0 ->. destruct (sort_array_is_empty (items (self w))); [|done].
      rewrite create_items_eq. by destruct (gtk_tim2_sort_model_should_sort E (self w)). }
    subst w1. destruct (gtk_sorter_get_order E srt); try (by apply Hkeep).
    by rewrite clear_items_eq. }
  destruct H1 as [Hm Hso].
  destruct (resort_fresh w1) as [Hfresh Hcb].
  assert (Hm2 : model (self (gtk_tim2_sort_model_resort 0 w1)) = model (self w1))
    by (by rewrite resort_eq).
  assert (Hso2 : sorter (self (gtk_tim2_sort_model_resort 0 w1)) = sorter (self w1))
    by (by rewrite resort_eq).
  destruct (1 <? _); simpl; rewrite Hm2, Hso2, Hm, Hso; done.
Qed.

Lemma set_model_fields E new_model w :
  model (self w) ≠ new_model →
  let w' := gtk_tim2_sort_model_set_model E new_model w in
  model (self w') = new_model ∧ sorter (self w') = sorter (self w) ∧
  match new_model with
  | Some _ => sort_cb (self w') ≠ 0 ∧ session_fresh (self w')
  | None => sort_cb (self w') = 0
  end.
Proof.
  intros Hne. unfold gtk_tim2_sort_model_set_model. rewrite decide_False by exact Hne.
  assert (Hso1 : sorter (self (gtk_tim2_sort_model_clear_model w)) = sorter (self w)).
  { rewrite clear_model_eq. by destruct (model (self w)). }
  set (w1 := gtk_tim2_sort_model_clear_model w) in *.
  destruct new_model as [m|].
  - set (w0 := with_self (set_model_field (Some m)) (emits [EvRef m; EvConnect m] w1)).
    set (w2 := gtk_tim2_sort_model_create_items E w0).
    assert (H2 : model (self w2) = Some m ∧ sorter (self w2) = sorter (self w)).
    { subst w2. rewrite create_items_eq.
      by destruct (gtk_tim2_sort_model_should_sort E (self w0)). }
    destruct H2 as [Hm2 Hso2].
    destruct (resort_fresh w2) as [Hfresh Hcb].
    assert (Hm3 : model (self (gtk_tim2_sort_model_resort 0 w2)) = model (self w2))
      by (by rewrite resort_eq).
    assert (Hso3 : sorter (self (gtk_tim2_sort_model_resort 0 w2)) = sorter (self w2))
      by (by rewrite resort_eq).
    simpl. destruct (_ || _); simpl; rewrite Hm3, Hso3, Hm2, Hso2; done.
  - assert (H1 : model (self w1) = None ∧ sort_cb (self w1) = 0).
    { subst w1. rewrite clear_model_eq.
      destruct (model (self w)); [done | by destruct Hne]. }
    destruct H1 as [Hm1 Hcb1].
    simpl. by destruct (_ || _).
Qed.

Lemma set_sorter_fields E new_sorter w :
  let w' := gtk_tim2_sort_model_set_sorter E new_sorter w in
  model (self w') = model (self w) ∧ sorter (self w') = new_sorter ∧
  match new_sorter, sorter (self w) with
  | Some _, _ => sort_cb (self w') ≠ 0 ∧ session_fresh (self w')
  | None, Some _ => sort_cb (self w') = 0
  | None, None => self w' = self w
  end.
Proof.
  unfold gtk_tim2_sort_model_set_sorter.
  assert (Hm1 : model (self (gtk_tim2_sort_model_clear_sorter w)) = model (self w)).
  { rewrite clear_sorter_eq. by destruct (sorter (self w)). }
  destruct new_sorter as [srt|].
  - set (w0 := with_self (set_sorter_field (Some srt)) _).
    destruct (sorter_changed_fields E srt w0) as (Hm & Hso & Hcb & Hfresh).
    simpl. rewrite Hm, Hso. simpl. by rewrite Hm1.
  - rewrite clear_sorter_eq in *.
    destruct (sorter (self w)) as [s0|] eqn:Hs.
    + simpl. by destruct (1 <? _).
    + simpl. by destruct (1 <? _).
Qed.

Lemma items_changed_fields E E0 position removed added w :
  same_orders E0 E →
  edit_ok (gtk_tim2_sort_model_get_n_items E0 (self w)) position removed added →
  model_inv E0 (self w) →
  ∃ w', gtk_tim2_sort_model_items_changed_cb E position removed added w = Some w' ∧
        model (self w') = model (self w) ∧ sorter (self w') = sorter (self w) ∧
        (self w' = self w ∨
         gtk_tim2_sort_model_should_sort E (self w) = true ∧
         (sort_cb (self w') = 0 ∨ session_fresh (self w'))).
Proof.
  intros Ho Hedit Hinv.
  unfold model_inv in Hinv. rewrite (should_sort_same_orders E0 E _ Ho) in Hinv.
  destruct (decide (removed = 0 ∧ added = 0)) as [[-> ->]|Hne].
  { exists w. split_and!; try done. by left. }
  destruct (gtk_tim2_sort_model_should_sort E (self w)) eqn:Hss.
  - destruct (items_changed_sorting E _ position removed added w Hss Hinv Hedit Hne)
      as (es & _ & _ & Hrun).
    simpl in Hrun. eexists. split; [exact Hrun|]. simpl.
    split_and!; try done. right. split; [done|].
    destruct (edit_restarts (self w) added); [right | by left].
    unfold session_fresh. simpl.
    pose proof (edited_store_ok E (model (self w)) _ position removed added _ Hinv Hedit)
      as (Hlen & _ & _).
    unfold sort_array_get_size, store_after. destruct Hedit as (Hp & Hr & Ha & Hpr & _).
    split_and!; try done.
    + by destruct (gtk_tim2_sort_model_is_sorting (self w)); lia.
    + destruct (gtk_tim2_sort_model_is_sorting (self w)); lia.
  - unfold gtk_tim2_sort_model_items_changed_cb.
    replace ((removed =? 0) && (added =? 0)) with false
      by (symmetry; apply andb_false_iff; rewrite !Z.eqb_neq; lia).
    rewrite Hss. simpl. eexists. split; [reflexivity|]. simpl. split_and!; try done.
    by left.
Qed.

(** X5. After every public operation a registered sort session is either
    the one that was registered before, with the session record and the
    store untouched, or one opened over the store as the operation leaves
    it: its size is the size of the store, its comparison data the sorter
    the object holds, the prefix declared sorted lies between 0 and the
    size, and no run is pending. *)
Theorem operations_leave_session_fresh E op w :
  op_pre E op w →
  ∃ w', run_op E op w = Some w' ∧
        (sort_cb (self w') ≠ 0 →
         session_untouched (self (op_start op w)) (self w') ∨ session_fresh (self w')).
Proof.
  intros Hpre.
  destruct op as [m srt|m|srt| |position removed added]; simpl in *.
  - eexists. split; [reflexivity|]. intros Hcb.
    unfold gtk_tim2_sort_model_new in *.
    set (w1 := gtk_tim2_sort_model_set_model E m gtk_tim2_sort_model_init) in *.
    destruct (set_sorter_fields E srt w1) as (_ & _ & Hs).
    destruct srt as [s0|]; [right; by destruct Hs|].
    destruct (decide (model (self gtk_tim2_sort_model_init) = m)) as [Heq|Hne].
    + assert (Hw1 : w1 = gtk_tim2_sort_model_init)
        by (subst w1 m; apply set_model_same_reference).
      clearbody w1. subst w1. left. unfold session_untouched. by simpl.
    + destruct (set_model_fields E m gtk_tim2_sort_model_init Hne) as (_ & Hso & Hc).
      fold w1 in Hso, Hc. simpl in Hso. rewrite Hso in Hs. right.
      destruct m as [m0|]; [|by destruct Hne].
      unfold gtk_tim2_sort_model_set_sorter. rewrite clear_sorter_eq, Hso. simpl.
      destruct Hc as [_ Hfresh]. by destruct (1 <? _).
  - eexists. split; [reflexivity|]. intros Hcb.
    destruct (decide (model (self w) = m)) as [Heq|Hne].
    + left. unfold gtk_tim2_sort_model_set_model. by rewrite decide_True by exact Heq.
    + destruct (set_model_fields E m w Hne) as (_ & _ & Hc).
      destruct m; [right; by destruct Hc | done].
  - eexists. split; [reflexivity|]. intros Hcb.
    destruct (set_sorter_fields E srt w) as (_ & _ & Hs).
    destruct srt as [s0|]; [right; by destruct Hs|].
    destruct (sorter (self w)); [done|]. left. by rewrite Hs.
  - destruct (sorter (self w)) as [srt|].
    + eexists. split; [reflexivity|]. intros _. right.
      by destruct (sorter_changed_fields E srt w) as (_ & _ & _ & Hfresh).
    + exists w. split; [reflexivity|]. intros _. by left.
  - destruct Hpre as (E0 & (Ho & Hedit & Hn) & Hinv).
    destruct (items_changed_fields E E0 position removed added w Ho Hedit Hinv)
      as (w' & Hrun & _ & _ & Hc).
    exists w'. split; [exact Hrun|]. intros Hcb.
    destruct Hc as [Hsame | [_ [Hz | Hfresh]]]; [left; by rewrite Hsame | done | by right].
Qed.

Lemma operations_leave_session_fresh_witness :
  ∃ w', run_op sample_replaced (OpItemsChanged 1 1 1) sample_sorted = Some w' ∧
        (sort_cb (self w') ≠ 0 →
         session_untouched (self (op_start (OpItemsChanged 1 1 1) sample_sorted)) (self w')
         ∨ session_fresh (self w')).
Proof.
  apply (operations_leave_session_fresh sample_replaced (OpItemsChanged 1 1 1)
           sample_sorted).
  exists sample_total. split; [split_and!|].
  - intros srt. reflexivity.
  - unfold edit_ok. decide_now.
  - reflexivity.
  - unfold model_inv. simpl. unfold store_ok. decide_now.
Defined.

Lemma set_model_held E new_model w :
  session_held (self w) →
  session_held (self (gtk_tim2_sort_model_set_model E new_model w)).
Proof.
  intros Hheld.
  destruct (decide (model (self w) = new_model)) as [Heq|Hne].
  - subst new_model. by rewrite set_model_same_reference.
  - destruct (set_model_fields E new_model w Hne) as (Hm & _ & Hc).
    intros Hcb. destruct new_model; [left; by rewrite Hm | done].
Qed.

Lemma set_sorter_held E new_sorter w :
  session_held (self w) →
  session_held (self (gtk_tim2_sort_model_set_sorter E new_sorter w)).
Proof.
  intros Hheld. destruct (set_sorter_fields E new_sorter w) as (_ & Hso & Hc).
  intros Hcb. destruct new_sorter; [right; by rewrite Hso|].
  destruct (sorter (self w)); [done|]. rewrite Hc in *. by apply Hheld.
Qed.

Lemma init_held : session_held (self gtk_tim2_sort_model_init).
Proof. intros Hcb. by destruct Hcb. Qed.

(** X6. Every public operation keeps the link between the idle source
    and the collaborators: whenever it returns with an idle source
    registered, the object holds a model or a sorter (so that
    [gtk_tim2_sort_model_dispose] finds and removes the source). *)
Theorem operations_keep_session_held E op w :
  op_pre E op w → session_held (self (op_start op w)) →
  ∃ w', run_op E op w = Some w' ∧ session_held (self w').
Proof.
  intros Hpre Hheld.
  destruct op as [m srt|m|srt| |position removed added]; simpl in *.
  - eexists. split; [reflexivity|]. by apply set_sorter_held, set_model_held.
  - eexists. split; [reflexivity|]. by apply set_model_held.
  - eexists. split; [reflexivity|]. by apply set_sorter_held.
  - destruct (sorter (self w)) as [srt|] eqn:Hsrt.
    + eexists. split; [reflexivity|]. intros _. right.
      destruct (sorter_changed_fields E srt w) as (_ & Hso & _).
      by rewrite Hso, Hsrt.
    + by exists w.
  - destruct Hpre as (E0 & (Ho & Hedit & Hn) & Hinv).
    destruct (items_changed_fields E E0 position removed added w Ho Hedit Hinv)
      as (w' & Hrun & Hm & Hso & Hc).
    exists w'. split; [exact Hrun|]. intros Hcb.
    destruct Hc as [Hsame | [Hss _]]; [rewrite Hsame in *; by apply Hheld|].
    left. rewrite Hm. unfold gtk_tim2_sort_model_should_sort in Hss.
    destruct (sorter (self w)); [|done]. by destruct (model (self w)).
Qed.

Lemma operations_keep_session_held_witness :
  ∃ w', run_op sample_replaced (OpItemsChanged 1 1 1) sample_sorted = Some w' ∧
        session_held (self w').
Proof.
  apply (operations_keep_session_held sample_replaced (OpItemsChanged 1 1 1)
           sample_sorted).
  - exists sample_total. split; [split_and!|].
    + intros srt. reflexivity.
    + unfold edit_ok. decide_now.
    + reflexivity.
    + unfold model_inv. simpl. unfold store_ok. decide_now.
  - unfold session_held. decide_now.
Defined.

(** * The idle callback *)

Lemma sort_cb_fields E w :
  let w' := (gtk_tim2_sort_model_sort_cb E w).1 in
  let '(continue, t, l) := gtk_tim_sort_step E (sort (self w)) (items (self w)) in
  model (self w') = model (self w) ∧ sorter (self w') = sorter (self w) ∧
  items (self w') = l ∧ sort (self w') = t ∧
  sort_cb (self w') = (if continue then sort_cb (self w) else 0) ∧
  (gtk_tim2_sort_model_sort_cb E w).2 = continue.
Proof.
  unfold gtk_tim2_sort_model_sort_cb.
  destruct (gtk_tim_sort_step E (sort (self w)) (items (self w))) as [[b t] l].
  destruct b; simpl; [done|]. by rewrite stop_sorting_eq.
Qed.

(** X7. A dispatch of the idle callback whose engine step only reorders
    the array keeps the invariant, the match between the entries and the
    backing sequence, the model and the sorter, and leaves the view a
    permutation of what it was. *)
Theorem sort_step_only_reorders E w :
  (gtk_tim_sort_step E (sort (self w)) (items (self w))).2 ≡ₚ items (self w) →
  model_inv E (self w) → store_matches E (self w) → session_held (self w) →
  let w' := (gtk_tim2_sort_model_sort_cb E w).1 in
  model_inv E (self w') ∧ store_matches E (self w') ∧ session_held (self w') ∧
  model (self w') = model (self w) ∧ sorter (self w') = sorter (self w) ∧
  view E (self w') ≡ₚ view E (self w).
Proof.
  intros Hperm Hinv Hmatch Hheld w'.
  pose proof (sort_cb_inv E w Hperm Hinv) as Hinv'.
  pose proof (sort_cb_matches E w Hperm Hmatch) as Hmatch'.
  pose proof (sort_cb_fields E w) as Hf. simpl in Hf.
  destruct (gtk_tim_sort_step E (sort (self w)) (items (self w))) as [[b t] l] eqn:Hstep.
  destruct Hf as (Hm & Hso & Hit & Ht & Hcb & _).
  fold w' in Hinv', Hmatch', Hm, Hso, Hit, Ht, Hcb.
  split_and!; try done.
  - intros Hnz. rewrite Hm, Hso. apply Hheld. destruct b; [by rewrite <- Hcb | done].
  - assert (Hv : ∀ s, model_inv E s → store_matches E s →
                      view E s ≡ₚ Some <$> backing_list E s).
    { intros s Hi Hma. unfold model_inv in Hi.
      destruct (gtk_tim2_sort_model_should_sort E s) eqn:Hss.
      - by apply populated_store_view.
      - by rewrite empty_store_view. }
    rewrite (Hv _ Hinv' Hmatch'), (Hv _ Hinv Hmatch).
    unfold backing_list. by rewrite Hm.
Qed.

Lemma sort_step_only_reorders_witness :
  let w := run_idle sample_total 1 sample_new in
  let w' := (gtk_tim2_sort_model_sort_cb sample_total w).1 in
  model_inv sample_total (self w') ∧ store_matches sample_total (self w') ∧
  session_held (self w') ∧
  model (self w') = model (self w) ∧ sorter (self w') = sorter (self w) ∧
  view sample_total (self w') ≡ₚ view sample_total (self w).
Proof.
  apply (sort_step_only_reorders sample_total (run_idle sample_total 1 sample_new)).
  - vm_compute. apply perm_swap.
  - unfold model_inv. simpl. unfold store_ok. decide_now.
  - unfold store_matches. decide_now.
  - unfold session_held. decide_now.
Defined.

(** X8. When [gtk_tim_sort_step] reports that nothing is left to do, the
    idle callback returns [G_SOURCE_REMOVE], leaves [sort_cb] at 0 and the
    array as the step returned it, and emits no items-changed; if an idle
    source was registered it removes exactly that source and notifies
    "sorting" exactly once, otherwise it does neither. *)
Theorem sort_callback_finishes E w t l :
  gtk_tim_sort_step E (sort (self w)) (items (self w)) = (false, t, l) →
  ∃ w',
    gtk_tim2_sort_model_sort_cb E w = (w', false) ∧
    sort_cb (self w') = 0 ∧
    items (self w') = l ∧
    notifications (events_since w w') = [] ∧
    sources_removed (events_since w w')
      = (if sort_cb (self w) =? 0 then [] else [sort_cb (self w)]) ∧
    properties_notified (events_since w w')
      = (if sort_cb (self w) =? 0 then [] else [PROP_SORTING]).
Proof.
  intros Hstep. unfold gtk_tim2_sort_model_sort_cb. rewrite Hstep.
  eexists. split; [reflexivity|]. rewrite stop_sorting_eq. simpl.
  split_and!; try reflexivity;
    unfold events_since; simpl; rewrite <- app_assoc, drop_app_length;
    unfold stop_events; simpl; by destruct (sort_cb (self w) =? 0).
Qed.

Lemma sort_callback_finishes_witness :
  ∃ w',
    gtk_tim2_sort_model_sort_cb sample_total (run_idle sample_total 3 sample_new)
      = (w', false) ∧
    sort_cb (self w') = 0 ∧
    items (self w') = items (self sample_sorted) ∧
    notifications (events_since (run_idle sample_total 3 sample_new) w') = [] ∧
    sources_removed (events_since (run_idle sample_total 3 sample_new) w')
      = (if sort_cb (self (run_idle sample_total 3 sample_new)) =? 0 then []
         else [sort_cb (self (run_idle sample_total 3 sample_new))]) ∧
    properties_notified (events_since (run_idle sample_total 3 sample_new) w')
      = (if sort_cb (self (run_idle sample_total 3 sample_new)) =? 0 then []
         else [PROP_SORTING]).
Proof.
  apply (sort_callback_finishes sample_total (run_idle sample_total 3 sample_new)
           (sort (self sample_sorted)) (items (self sample_sorted))).
  vm_compute. reflexivity.
Defined.

(** * What the accessors announce *)

Lemma silently_refl w : silently w w.
Proof. exists []. by rewrite app_nil_r. Qed.

Lemma silently_trans w1 w2 w3 : silently w1 w2 → silently w2 w3 → silently w1 w3.
Proof.
  intros (es1 & H1 & Hs1) (es2 & H2 & Hs2). exists (es1 ++ es2).
  rewrite H2, H1, app_assoc. split; [done|]. by apply Forall_app.
Qed.

Lemma silently_events w es f :
  Forall silent_event es → silently w (with_self f (emits es w)).
Proof. intros Hs. by exists es. Qed.

Lemma silently_emit w e : silent_event e → silently w (emit e w).
Proof. intros He. exists [e]. split; [done|]. by constructor. Qed.

Lemma silently_clear_items w : silently w (gtk_tim2_sort_model_clear_items w).
Proof.
  rewrite clear_items_eq. eexists. split; [reflexivity|].
  apply Forall_app. split; [apply silent_stop_events|].
  apply Forall_app. split; [apply silent_clear_events | by repeat constructor].
Qed.

Lemma silently_clear_model w : silently w (gtk_tim2_sort_model_clear_model w).
Proof.
  unfold gtk_tim2_sort_model_clear_model. destruct (model (self w)) as [m|].
  - eapply silently_trans; [|apply silently_clear_items].
    apply silently_events. by repeat constructor.
  - apply silently_refl.
Qed.

Lemma silently_clear_sorter w : silently w (gtk_tim2_sort_model_clear_sorter w).
Proof.
  unfold gtk_tim2_sort_model_clear_sorter. destruct (sorter (self w)) as [srt|].
  - eapply silently_trans; [|apply silently_clear_items].
    apply silently_events. by repeat constructor.
  - apply silently_refl.
Qed.

Lemma silently_create_items E w : silently w (gtk_tim2_sort_model_create_items E w).
Proof.
  rewrite create_items_eq. destruct (gtk_tim2_sort_model_should_sort E (self w)).
  - eexists. split; [reflexivity|]. apply silent_appends.
  - apply silently_refl.
Qed.

Lemma silently_resort already_sorted w :
  silently w (gtk_tim2_sort_model_resort already_sorted w).
Proof.
  rewrite resort_eq. eexists. split; [reflexivity|]. apply silent_resort_events.
Qed.

Lemma silently_notifications w w1 w' es :
  silently w w1 → trace w' = trace w1 ++ es →
  notifications (events_since w w') = notifications es.
Proof.
  intros (es1 & H1 & Hs1) H2. unfold events_since.
  rewrite H2, H1, <- app_assoc, drop_app_length, notifications_app.
  by rewrite (silent_notifications es1 Hs1).
Qed.

Lemma view_length E s :
  length (view E s) = Z.to_nat (gtk_tim2_sort_model_get_n_items E s).
Proof. unfold view. by rewrite length_fmap, length_seqZ. Qed.

(** A notification of the whole old and the whole new range always
    covers the step. *)
Lemma whole_range_covers E E' s s' :
  notification_covers (view E s) (view E' s') 0
    (gtk_tim2_sort_model_get_n_items E s) (gtk_tim2_sort_model_get_n_items E' s').
Proof.
  unfold notification_covers. split; [reflexivity|].
  rewrite !Z.add_0_l, !drop_ge; [done | |]; rewrite view_length; lia.
Qed.

Lemma backing_order_view E s :
  store_in_backing_order E s → view E s = Some <$> backing_list E s.
Proof.
  unfold store_in_backing_order. intros Hit.
  destruct (gtk_tim2_sort_model_should_sort E s) eqn:Hss.
  - rewrite view_store; [|exact Hss|].
    + rewrite Hit, <- list_fmap_compose, <- backing_items_seq.
      apply list_fmap_ext. intros i x _. reflexivity.
    + rewrite Hit. apply created_store_ok, n_items_nonneg.
  - by apply empty_store_view.
Qed.

Lemma create_items_backing_order E w :
  items (self w) = [] →
  store_in_backing_order E (self (gtk_tim2_sort_model_create_items E w)).
Proof.
  intros Hempty. unfold store_in_backing_order. rewrite create_items_eq.
  destruct (gtk_tim2_sort_model_should_sort E (self w)) eqn:Hss.
  - simpl.
    replace (gtk_tim2_sort_model_should_sort E _) with true
      by (rewrite <- Hss; reflexivity).
    by rewrite Hempty.
  - by rewrite Hss.
Qed.

Lemma backing_order_ext E s s' :
  model s' = model s → sorter s' = sorter s → items s' = items s →
  store_in_backing_order E s → store_in_backing_order E s'.
Proof.
  intros Hm Hso Hit. unfold store_in_backing_order, gtk_tim2_sort_model_should_sort,
    gtk_tim2_sort_model_get_n_items. by rewrite Hm, Hso, Hit.
Qed.

Lemma resort_backing_order E already_sorted w :
  store_in_backing_order E (self w) →
  store_in_backing_order E (self (gtk_tim2_sort_model_resort already_sorted w)).
Proof. intros H. rewrite resort_eq. by apply (backing_order_ext E (self w)). Qed.

Lemma degraded_backing_order E s :
  model s = None ∨ sorter s = None → items s = [] → store_in_backing_order E s.
Proof.
  intros Hnone Hempty. unfold store_in_backing_order, gtk_tim2_sort_model_should_sort.
  destruct Hnone as [-> | ->]; [by destruct (sorter s) | done].
Qed.

(** [gtk_tim2_sort_model_set_model] up to its two notifications. *)
Lemma set_model_run E new_model w :
  model (self w) ≠ new_model →
  model_inv E (self w) →
  ∃ w2,
    silently w w2 ∧ store_in_backing_order E (self w2) ∧ model (self w2) = new_model ∧
    let removed := gtk_tim2_sort_model_get_n_items E (self w) in
    let added := gtk_tim2_sort_model_get_n_items E (self w2) in
    gtk_tim2_sort_model_set_model E new_model w
    = emit (EvNotify PROP_MODEL)
        (if (0 <? removed) || (0 <? added)
         then emit (EvItemsChanged 0 removed added) w2 else w2).
Proof.
  intros Hne Hinv.
  destruct (clear_model_obs E w Hinv) as (Hm1 & Hso1 & Hit1).
  pose proof (silently_clear_model w) as Hs1.
  unfold gtk_tim2_sort_model_set_model. rewrite decide_False by exact Hne.
  set (w1 := gtk_tim2_sort_model_clear_model w) in *.
  destruct new_model as [m|].
  - set (w0 := with_self (set_model_field (Some m)) (emits [EvRef m; EvConnect m] w1)).
    set (w2 := gtk_tim2_sort_model_resort 0 (gtk_tim2_sort_model_create_items E w0)).
    assert (Hm2 : model (self w2) = Some m).
    { subst w2. rewrite resort_eq. simpl. rewrite create_items_eq.
      by destruct (gtk_tim2_sort_model_should_sort E (self w0)). }
    exists w2. split_and!.
    + apply (silently_trans _ w1); [exact Hs1|].
      apply (silently_trans _ w0); [apply silently_events; by repeat constructor|].
      eapply silently_trans; [apply silently_create_items|]. apply silently_resort.
    + apply resort_backing_order, create_items_backing_order. exact Hit1.
    + exact Hm2.
    + simpl.
      replace (gtk_tim2_sort_model_get_n_items E (self w2))
        with (g_list_model_get_n_items E m)
        by (unfold gtk_tim2_sort_model_get_n_items; by rewrite Hm2).
      reflexivity.
  - exists w1. split_and!; [exact Hs1 | by apply degraded_backing_order; auto | exact Hm1 |].
    simpl.
    replace (gtk_tim2_sort_model_get_n_items E (self w1)) with 0
      by (unfold gtk_tim2_sort_model_get_n_items; by rewrite Hm1).
    reflexivity.
Qed.

(** X9. [gtk_tim2_sort_model_set_model] with a model other than the one
    held, on an object that satisfies the invariant, emits exactly one
    items-changed, [(0, old length, new length)], or none when both lengths
    are 0; the notification covers the step of the view; afterwards the
    view is the new backing sequence in backing order (empty without a
    model); the last call it makes is the notification of "model". *)
Theorem set_model_replaces_view E new_model w :
  model (self w) ≠ new_model →
  model_inv E (self w) →
  let w' := gtk_tim2_sort_model_set_model E new_model w in
  let removed := gtk_tim2_sort_model_get_n_items E (self w) in
  let added := gtk_tim2_sort_model_get_n_items E (self w') in
  notifications (events_since w w')
    = (if (0 <? removed) || (0 <? added) then [(0, removed, added)] else []) ∧
  notification_covers (view E (self w)) (view E (self w')) 0 removed added ∧
  view E (self w') = Some <$> backing_list E (self w') ∧
  last (events_since w w') = Some (EvNotify PROP_MODEL).
Proof.
  intros Hne Hinv w' removed added.
  destruct (set_model_run E new_model w Hne Hinv) as (w2 & Hs2 & Hord & Hm2 & Hrun).
  simpl in Hrun. fold removed in Hrun.
  set (added2 := gtk_tim2_sort_model_get_n_items E (self w2)) in *.
  assert (Hself : self w' = self w2).
  { subst w'. rewrite Hrun. by destruct (_ || _). }
  assert (Hadded : added = added2) by (subst added; by rewrite Hself).
  rewrite Hadded, Hself. split_and!.
  - subst w'. rewrite Hrun. destruct (_ || _).
    + by rewrite (silently_notifications w w2 _ [EvItemsChanged 0 removed added2;
                                                EvNotify PROP_MODEL] Hs2)
        by (simpl; by rewrite <- app_assoc).
    + by rewrite (silently_notifications w w2 _ [EvNotify PROP_MODEL] Hs2).
  - apply whole_range_covers.
  - by apply backing_order_view.
  - subst w'. rewrite Hrun. destruct Hs2 as (es & Htr & _). unfold events_since.
    destruct (_ || _); simpl; rewrite Htr, <- !app_assoc, drop_app_length;
      rewrite ?app_assoc; apply last_snoc.
Qed.

Lemma set_model_replaces_view_witness :
  let w' := gtk_tim2_sort_model_set_model sample_total None sample_sorted in
  let removed := gtk_tim2_sort_model_get_n_items sample_total (self sample_sorted) in
  let added := gtk_tim2_sort_model_get_n_items sample_total (self w') in
  notifications (events_since sample_sorted w')
    = (if (0 <? removed) || (0 <? added) then [(0, removed, added)] else []) ∧
  notification_covers (view sample_total (self sample_sorted))
    (view sample_total (self w')) 0 removed added ∧
  view sample_total (self w') = Some <$> backing_list sample_total (self w') ∧
  last (events_since sample_sorted w') = Some (EvNotify PROP_MODEL).
Proof.
  apply (set_model_replaces_view sample_total None sample_sorted).
  - vm_compute. discriminate.
  - unfold model_inv. simpl. unfold store_ok. decide_now.
Defined.

(** [gtk_tim2_sort_model_sorter_changed_cb] up to its notification. *)
Lemma sorter_changed_run E srt w :
  ∃ w2,
    silently w w2 ∧
    model (self w2) = model (self w) ∧ sorter (self w2) = sorter (self w) ∧
    items (self w2)
      = match gtk_sorter_get_order E srt with
        | GTK_SORTER_ORDER_NONE => []
        | _ => if sort_array_is_empty (items (self w))
               then items (self (gtk_tim2_sort_model_create_items E w))
               else items (self w)
        end ∧
    let n := gtk_tim2_sort_model_get_n_items E (self w) in
    gtk_tim2_sort_model_sorter_changed_cb E srt w
    = if 1 <? n then emit (EvItemsChanged 0 n n) w2 else w2.
Proof.
  unfold gtk_tim2_sort_model_sorter_changed_cb.
  set (w1 := match gtk_sorter_get_order E srt with
             | GTK_SORTER_ORDER_NONE => gtk_tim2_sort_model_clear_items w
             | _ => if sort_array_is_empty (items (self w))
                    then gtk_tim2_sort_model_create_items E w else w
             end).
  assert (H1 : silently w w1 ∧ model (self w1) = model (self w) ∧
               sorter (self w1) = sorter (self w) ∧
               items (self w1)
               = match gtk_sorter_get_order E srt with
                 | GTK_SORTER_ORDER_NONE => []
                 | _ => if sort_array_is_empty (items (self w))
                        then items (self (gtk_tim2_sort_model_create_items E w))
                        else items (self w)
                 end).
  { assert (Hkeep : ∀ w0, w0 = (if sort_array_is_empty (items (self w))
                                then gtk_tim2_sort_model_create_items E w else w) →
              silently w w0 ∧ model (self w0) = model (self w) ∧
              sorter (self w0) = sorter (self w) ∧
              items (self w0) = if sort_array_is_empty (items (self w))
                                then items (self (gtk_tim2_sort_model_create_items E w))
                                else items (self w)).
    { intros w0 ->. destruct (sort_array_is_empty (items (self w)));
        [|split_and!; (done || apply silently_refl)].
      split_and!; try done; [apply silently_create_items | |];
        rewrite create_items_eq; by destruct (gtk_tim2_sort_model_should_sort E (self w)). }
    subst w1. destruct (gtk_sorter_get_order E srt); try (by apply Hkeep).
    split_and!; [apply silently_clear_items | | |]; by rewrite clear_items_eq. }
  destruct H1 as (Hs1 & Hm1 & Hso1 & Hit1).
  exists (gtk_tim2_sort_model_resort 0 w1). split_and!.
  - eapply silently_trans; [exact Hs1 | apply silently_resort].
  - by rewrite resort_eq.
  - by rewrite resort_eq.
  - by rewrite resort_eq.
  - simpl.
    replace (gtk_tim2_sort_model_get_n_items E (self (gtk_tim2_sort_model_resort 0 w1)))
      with (gtk_tim2_sort_model_get_n_items E (self w)); [reflexivity|].
    unfold gtk_tim2_sort_model_get_n_items. rewrite resort_eq. simpl. by rewrite Hm1.
Qed.

Lemma sorter_changed_backing_order E srt w :
  sorter (self w) = Some srt → items (self w) = [] →
  store_in_backing_order E (self (gtk_tim2_sort_model_sorter_changed_cb E srt w)).
Proof.
  intros Hsrt Hempty.
  destruct (sorter_changed_run E srt w) as (w2 & _ & Hm & Hso & Hit & Hrun).
  simpl in Hrun. rewrite Hrun.
  assert (Hord : store_in_backing_order E (self w2)).
  { rewrite Hempty in Hit. simpl in Hit.
    destruct (gtk_sorter_get_order E srt) eqn:Hord.
    - apply (backing_order_ext E (self (gtk_tim2_sort_model_create_items E w))).
      + rewrite Hm, create_items_eq.
        by destruct (gtk_tim2_sort_model_should_sort E (self w)).
      + rewrite Hso, create_items_eq.
        by destruct (gtk_tim2_sort_model_should_sort E (self w)).
      + exact Hit.
      + by apply create_items_backing_order.
    - unfold store_in_backing_order, gtk_tim2_sort_model_should_sort.
      rewrite Hso, Hsrt, Hord, Hit. by destruct (model (self w2)).
    - apply (backing_order_ext E (self (gtk_tim2_sort_model_create_items E w))).
      + rewrite Hm, create_items_eq.
        by destruct (gtk_tim2_sort_model_should_sort E (self w)).
      + rewrite Hso, create_items_eq.
        by destruct (gtk_tim2_sort_model_should_sort E (self w)).
      + exact Hit.
      + by apply create_items_backing_order. }
  by destruct (1 <? _).
Qed.

Lemma Permutation_short {A} (l1 l2 : list A) :
  l1 ≡ₚ l2 → (length l1 ≤ 1)%nat → l1 = l2.
Proof.
  intros Hperm Hlen. destruct l1 as [|x [|y l1]]; simpl in Hlen; [| |lia].
  - by apply Permutation_nil_l.
  - by apply Permutation_singleton_l.
Qed.

Lemma invariants_view E s :
  model_inv E s → store_matches E s → view E s ≡ₚ Some <$> backing_list E s.
Proof.
  intros Hi Hma. unfold model_inv in Hi.
  destruct (gtk_tim2_sort_model_should_sort E s) eqn:Hss.
  - by apply populated_store_view.
  - by rewrite empty_store_view.
Qed.

Lemma set_sorter_resets_view_aux E new_sorter w :
  model_inv E (self w) →
  view E (self (gtk_tim2_sort_model_set_sorter E new_sorter w))
  = Some <$> backing_list E (self (gtk_tim2_sort_model_set_sorter E new_sorter w)).
Proof.
  intros Hinv.
  destruct (clear_sorter_obs E w Hinv) as (Hm1 & Hso1 & Hit1).
  apply backing_order_view.
  unfold gtk_tim2_sort_model_set_sorter.
  set (w1 := gtk_tim2_sort_model_clear_sorter w) in *.
  destruct new_sorter as [srt|]; simpl.
  - by apply sorter_changed_backing_order.
  - assert (Hord : store_in_backing_order E (self w1))
      by (apply degraded_backing_order; auto).
    by destruct (1 <? _).
Qed.

(** X10. [gtk_tim2_sort_model_set_sorter], on an object that satisfies
    the invariant, keeps the length [n] of the view, emits the one
    items-changed [(0, n, n)] when [n > 1] and none otherwise, and leaves
    the view as the backing sequence in backing order.  When nothing is
    announced ([n ≤ 1]) and the entries matched the backing sequence, the
    view is what it was. *)
Theorem set_sorter_resets_view E new_sorter w :
  model_inv E (self w) →
  let w' := gtk_tim2_sort_model_set_sorter E new_sorter w in
  let n := gtk_tim2_sort_model_get_n_items E (self w) in
  gtk_tim2_sort_model_get_n_items E (self w') = n ∧
  notifications (events_since w w') = (if 1 <? n then [(0, n, n)] else []) ∧
  view E (self w') = Some <$> backing_list E (self w) ∧
  (store_matches E (self w) → n ≤ 1 → view E (self w') = view E (self w)).
Proof.
  intros Hinv w' n.
  destruct (clear_sorter_obs E w Hinv) as (Hm1 & Hso1 & Hit1).
  pose proof (silently_clear_sorter w) as Hs1.
  destruct (set_sorter_fields E new_sorter w) as (Hm & _ & _). fold w' in Hm.
  assert (Hn : gtk_tim2_sort_model_get_n_items E (self w') = n).
  { subst n. unfold gtk_tim2_sort_model_get_n_items. by rewrite Hm. }
  assert (Hb : backing_list E (self w') = backing_list E (self w)).
  { unfold backing_list. by rewrite Hm. }
  assert (Hview : view E (self w') = Some <$> backing_list E (self w)).
  { rewrite <- Hb. by apply set_sorter_resets_view_aux. }
  split_and!; [exact Hn | | exact Hview |].
  - subst w'. unfold gtk_tim2_sort_model_set_sorter.
    set (w1 := gtk_tim2_sort_model_clear_sorter w) in *.
    assert (Hn1 : gtk_tim2_sort_model_get_n_items E (self w1) = n).
    { subst n. unfold gtk_tim2_sort_model_get_n_items. by rewrite Hm1. }
    destruct new_sorter as [srt|].
    + set (w0 := with_self (set_sorter_field (Some srt))
                   (emits [EvRef srt; EvConnect srt] w1)).
      destruct (sorter_changed_run E srt w0) as (w2 & Hs2 & _ & _ & _ & Hrun).
      cbv zeta in Hrun.
      replace (gtk_tim2_sort_model_get_n_items E (self w0)) with n in Hrun
        by (rewrite <- Hn1; reflexivity).
      cbv zeta. rewrite Hrun.
      assert (Hs : silently w w2).
      { apply (silently_trans _ w1); [exact Hs1|].
        apply (silently_trans _ w0); [apply silently_events; by repeat constructor|].
        exact Hs2. }
      destruct (1 <? n).
      * by rewrite (silently_notifications w w2 _ [EvItemsChanged 0 n n;
                                                  EvNotify PROP_SORTER] Hs)
          by (simpl; by rewrite <- app_assoc).
      * by rewrite (silently_notifications w w2 _ [EvNotify PROP_SORTER] Hs).
    + rewrite Hn1. destruct (1 <? n).
      * by rewrite (silently_notifications w w1 _ [EvItemsChanged 0 n n;
                                                  EvNotify PROP_SORTER] Hs1)
          by (simpl; by rewrite <- app_assoc).
      * by rewrite (silently_notifications w w1 _ [EvNotify PROP_SORTER] Hs1).
  - intros Hmatch Hle. rewrite Hview. symmetry. apply Permutation_short.
    + by apply invariants_view.
    + rewrite view_length. fold n. lia.
Qed.

Lemma set_sorter_resets_view_witness :
  let w' := gtk_tim2_sort_model_set_sorter sample_total None sample_sorted in
  let n := gtk_tim2_sort_model_get_n_items sample_total (self sample_sorted) in
  gtk_tim2_sort_model_get_n_items sample_total (self w') = n ∧
  notifications (events_since sample_sorted w') = (if 1 <? n then [(0, n, n)] else []) ∧
  view sample_total (self w') = Some <$> backing_list sample_total (self sample_sorted) ∧
  (store_matches sample_total (self sample_sorted) → n ≤ 1 →
   view sample_total (self w') = view sample_total (self sample_sorted)).
Proof.
  apply (set_sorter_resets_view sample_total None sample_sorted).
  unfold model_inv. simpl. unfold store_ok. decide_now.
Defined.

(** X11. The handler of the sorter's "changed", on an object that
    satisfied the invariant with matching entries before the sorter
    changed, keeps the length [n] of the view and emits the one
    items-changed [(0, n, n)] when [n > 1], none otherwise.  The view
    afterwards is a permutation of the view before; it is the same view
    when [n ≤ 1], and also when the store was populated and the new order
    is not [GTK_SORTER_ORDER_NONE]: the entries stay where they are until
    the restarted sort moves them. *)
Theorem sorter_changed_announces E0 E srt w :
  same_lists E0 E →
  sorter (self w) = Some srt →
  model_inv E0 (self w) → store_matches E0 (self w) →
  let w' := gtk_tim2_sort_model_sorter_changed_cb E srt w in
  let n := gtk_tim2_sort_model_get_n_items E0 (self w) in
  gtk_tim2_sort_model_get_n_items E (self w') = n ∧
  notifications (events_since w w') = (if 1 <? n then [(0, n, n)] else []) ∧
  view E (self w') ≡ₚ view E0 (self w) ∧
  (n ≤ 1 → view E (self w') = view E0 (self w)) ∧
  (gtk_sorter_get_order E srt ≠ GTK_SORTER_ORDER_NONE → items (self w) ≠ [] →
   view E (self w') = view E0 (self w)).
Proof.
  intros Hl Hsrt Hinv Hmatch w' n.
  destruct (sorter_changed_run E srt w) as (w2 & Hs2 & Hm & Hso & Hit & Hrun).
  simpl in Hrun. rewrite <- (n_items_same_lists E0 E _ Hl) in Hrun. fold n in Hrun.
  assert (Hself : self w' = self w2).
  { subst w'. rewrite Hrun. by destruct (1 <? n). }
  assert (Hn : gtk_tim2_sort_model_get_n_items E (self w') = n).
  { subst n. rewrite (n_items_same_lists E0 E _ Hl), Hself.
    unfold gtk_tim2_sort_model_get_n_items. by rewrite Hm. }
  assert (Hpre : items (self w) = [] ∨
            (model (self w) ≠ None ∧
             store_ok (gtk_tim2_sort_model_get_n_items E (self w)) (items (self w)))).
  { unfold model_inv in Hinv.
    destruct (gtk_tim2_sort_model_should_sort E0 (self w)) eqn:Hss; [|by left].
    right. rewrite <- (n_items_same_lists E0 E _ Hl). split; [|exact Hinv].
    unfold gtk_tim2_sort_model_should_sort in Hss. rewrite Hsrt in Hss.
    by destruct (model (self w)). }
  assert (Hinv' : model_inv E (self w')) by (by apply sorter_changed_inv).
  assert (Hmatch' : store_matches E (self w')).
  { apply sorter_changed_matches. apply (store_matches_env E0); [|exact Hmatch].
    by apply backing_list_same_lists. }
  assert (Hperm : view E (self w') ≡ₚ view E0 (self w)).
  { rewrite (invariants_view E _ Hinv' Hmatch'), (invariants_view E0 _ Hinv Hmatch).
    rewrite (backing_list_same_lists E0 E _ Hl).
    unfold backing_list. by rewrite Hself, Hm. }
  split_and!; [exact Hn | | exact Hperm | |].
  - subst w'. rewrite Hrun. destruct (1 <? n).
    + by rewrite (silently_notifications w w2 _ [EvItemsChanged 0 n n] Hs2).
    + destruct Hs2 as (es & Htr & Hsil). unfold events_since.
      by rewrite Htr, drop_app_length, (silent_notifications es Hsil).
  - intros Hle. apply Permutation_short; [exact Hperm|].
    rewrite view_length, Hn. lia.
  - intros Hord Hne.
    destruct Hpre as [Hnil | [Hmod Hok]]; [done|].
    assert (Hkeep : items (self w') = items (self w)).
    { rewrite Hself, Hit.
      destruct (items (self w)) eqn:Hitw; [done|].
      by destruct (gtk_sorter_get_order E srt). }
    assert (Hss : gtk_tim2_sort_model_should_sort E (self w') = true).
    { unfold gtk_tim2_sort_model_should_sort. rewrite Hself, Hm, Hso, Hsrt.
      destruct (model (self w)); [|done]. by destruct (gtk_sorter_get_order E srt). }
    assert (Hss0 : gtk_tim2_sort_model_should_sort E0 (self w) = true).
    { unfold model_inv in Hinv.
      destruct (gtk_tim2_sort_model_should_sort E0 (self w)); [done|].
      by rewrite Hinv in Hne. }
    rewrite (view_store E (self w') Hss), (view_store E0 (self w) Hss0).
    + by rewrite Hkeep.
    + unfold model_inv in Hinv. by rewrite Hss0 in Hinv.
    + unfold model_inv in Hinv'. by rewrite Hss in Hinv'.
Qed.

Lemma sorter_changed_announces_witness :
  let E := sample_env sample_backing GTK_SORTER_ORDER_NONE in
  let w' := gtk_tim2_sort_model_sorter_changed_cb E 200 sample_sorted in
  let n := gtk_tim2_sort_model_get_n_items sample_total (self sample_sorted) in
  gtk_tim2_sort_model_get_n_items E (self w') = n ∧
  notifications (events_since sample_sorted w') = (if 1 <? n then [(0, n, n)] else []) ∧
  view E (self w') ≡ₚ view sample_total (self sample_sorted) ∧
  (n ≤ 1 → view E (self w') = view sample_total (self sample_sorted)) ∧
  (gtk_sorter_get_order E 200 ≠ GTK_SORTER_ORDER_NONE → items (self sample_sorted) ≠ [] →
   view E (self w') = view sample_total (self sample_sorted)).
Proof.
  apply (sorter_changed_announces sample_total
           (sample_env sample_backing GTK_SORTER_ORDER_NONE) 200 sample_sorted).
  - intros m. reflexivity.
  - vm_compute. reflexivity.
  - unfold model_inv. simpl. unfold store_ok. decide_now.
  - unfold store_matches. decide_now.
Defined.

(** * Properties and getters *)

Lemma set_model_getters E new_model w :
  model (self (gtk_tim2_sort_model_set_model E new_model w)) = new_model ∧
  sorter (self (gtk_tim2_sort_model_set_model E new_model w)) = sorter (self w).
Proof.
  destruct (decide (model (self w) = new_model)) as [Heq|Hne].
  - subst new_model. by rewrite set_model_same_reference.
  - by destruct (set_model_fields E new_model w Hne) as (Hm & Hso & _).
Qed.

(** X12. Setting the property "model" ([PROP_MODEL], id 1) and reading
    it back gives the value set, [gtk_tim2_sort_model_get_model] returns it
    too, and "sorter" reads as before; the same holds with "sorter"
    ([PROP_SORTER], id 2) and "model" exchanged.  [set_property] with any
    other id, the read-only "sorting" included, leaves the object as it is,
    and [get_property] with an id outside 1..3 writes no value. *)
Theorem property_round_trip E value w :
  let w1 := gtk_tim2_sort_model_set_property E 1 value w in
  let w2 := gtk_tim2_sort_model_set_property E 2 value w in
  gtk_tim2_sort_model_get_property (self w1) 1 = Some (GValueObject value) ∧
  gtk_tim2_sort_model_get_property (self w1) 2
    = gtk_tim2_sort_model_get_property (self w) 2 ∧
  gtk_tim2_sort_model_get_model (self w1) = value ∧
  gtk_tim2_sort_model_get_property (self w2) 2 = Some (GValueObject value) ∧
  gtk_tim2_sort_model_get_property (self w2) 1
    = gtk_tim2_sort_model_get_property (self w) 1 ∧
  gtk_tim2_sort_model_get_sorter (self w2) = value ∧
  (∀ prop_id, prop_id ≠ 1 → prop_id ≠ 2 →
     gtk_tim2_sort_model_set_property E prop_id value w = w) ∧
  (∀ prop_id, ¬ (1 ≤ prop_id ≤ 3) →
     gtk_tim2_sort_model_get_property (self w) prop_id = None).
Proof.
  intros w1 w2. subst w1 w2.
  unfold gtk_tim2_sort_model_set_property, gtk_tim2_sort_model_get_property,
    gtk_tim2_sort_model_get_model, gtk_tim2_sort_model_get_sorter.
  change (property_of_id 1) with (Some PROP_MODEL).
  change (property_of_id 2) with (Some PROP_SORTER). cbv beta iota.
  destruct (set_model_getters E value w) as [Hm Hso].
  destruct (set_sorter_fields E value w) as (Hm2 & Hso2 & _).
  rewrite Hm, Hso, Hm2, Hso2. split_and!; try reflexivity.
  - intros prop_id H1 H2. unfold property_of_id.
    destruct (Z.eqb_spec prop_id 1); [done|].
    destruct (Z.eqb_spec prop_id 2); [done|].
    by destruct (prop_id =? 3).
  - intros prop_id Hout. unfold property_of_id.
    destruct (Z.eqb_spec prop_id 1); [lia|].
    destruct (Z.eqb_spec prop_id 2); [lia|].
    destruct (Z.eqb_spec prop_id 3); [lia|]. reflexivity.
Qed.

(** * Construction *)

(** X13. [gtk_tim2_sort_model_new] returns an object that holds the
    model and the sorter it was given and satisfies the invariant, with
    every entry matching the backing sequence and an idle source only
    while a model or sorter is held; its view is the backing sequence in
    backing order; and it reports "sorting" exactly when it was given a
    model or a sorter. *)
Theorem construction_establishes_invariants E new_model new_sorter :
  let w := gtk_tim2_sort_model_new E new_model new_sorter in
  gtk_tim2_sort_model_get_model (self w) = new_model ∧
  gtk_tim2_sort_model_get_sorter (self w) = new_sorter ∧
  model_inv E (self w) ∧ store_matches E (self w) ∧ session_held (self w) ∧
  view E (self w) = Some <$> backing_list E (self w) ∧
  (gtk_tim2_sort_model_is_sorting (self w) = true
     ↔ new_model ≠ None ∨ new_sorter ≠ None).
Proof.
  intros w. subst w. unfold gtk_tim2_sort_model_new.
  set (w1 := gtk_tim2_sort_model_set_model E new_model gtk_tim2_sort_model_init).
  assert (Hinv1 : model_inv E (self w1)) by apply set_model_inv, init_inv.
  destruct (set_model_getters E new_model gtk_tim2_sort_model_init) as [Hm1 Hso1].
  fold w1 in Hm1, Hso1. simpl in Hso1.
  destruct (set_sorter_fields E new_sorter w1) as (Hm & Hso & Hc).
  pose proof (set_sorter_resets_view_aux E new_sorter w1 Hinv1) as Hview.
  unfold gtk_tim2_sort_model_get_model, gtk_tim2_sort_model_get_sorter.
  split_and!.
  - by rewrite Hm.
  - exact Hso.
  - by apply set_sorter_inv.
  - by apply set_sorter_matches.
  - apply set_sorter_held, set_model_held, init_held.
  - exact Hview.
  - unfold gtk_tim2_sort_model_is_sorting. rewrite negb_true_iff, Z.eqb_neq.
    destruct new_sorter as [srt|].
    + split; [by right | by destruct Hc].
    + rewrite Hso1 in Hc. rewrite Hc.
      destruct (decide (model (self gtk_tim2_sort_model_init) = new_model)) as [Heq|Hne].
      * subst w1 new_model. rewrite set_model_same_reference. simpl.
        split; [done | by intros [H|H]].
      * destruct (set_model_fields E new_model gtk_tim2_sort_model_init Hne)
          as (_ & _ & Hc1). fold w1 in Hc1.
        destruct new_model; [split; [by left | by destruct Hc1] | by destruct Hne].
Qed.

(** * What the edit notification gets right *)

Lemma u32_net_change n_items added removed :
  u32 (n_items - u32 (u32 (n_items - added) + removed)) = u32 (added - removed).
Proof.
  unfold u32. rewrite Zplus_mod_idemp_l, Zminus_mod_idemp_r. f_equal. lia.
Qed.

(** X14. For every edit handled while sorting is enabled (not the empty
    edit), on an object that satisfied the invariant before the edit,
    "items-changed" is emitted exactly once, as some [(p, r, a)]; the view
    before position [p] is what it was; and the net change [a - r] the
    notification reports equals, modulo [2^32], [added - removed], which is
    the change of the length of the view. *)
Theorem edit_notification_prefix_sound E0 E position removed added w :
  same_orders E0 E →
  gtk_tim2_sort_model_should_sort E (self w) = true →
  model_inv E0 (self w) →
  edit_ok (gtk_tim2_sort_model_get_n_items E0 (self w)) position removed added →
  gtk_tim2_sort_model_get_n_items E (self w)
    = gtk_tim2_sort_model_get_n_items E0 (self w) - removed + added →
  ¬ (removed = 0 ∧ added = 0) →
  ∃ w' p r a,
    gtk_tim2_sort_model_items_changed_cb E position removed added w = Some w' ∧
    notifications (events_since w w') = [(p, r, a)] ∧
    take (Z.to_nat p) (view E (self w')) = take (Z.to_nat p) (view E0 (self w)) ∧
    u32 (a - r) = u32 (added - removed) ∧
    Z.of_nat (length (view E (self w'))) - Z.of_nat (length (view E0 (self w)))
      = added - removed.
Proof.
  intros Ho Hss Hinv Hedit Hnew Hne.
  set (n := gtk_tim2_sort_model_get_n_items E0 (self w)) in *.
  assert (Hss0 : gtk_tim2_sort_model_should_sort E0 (self w) = true)
    by (by rewrite (should_sort_same_orders E0 E _ Ho)).
  unfold model_inv in Hinv. rewrite Hss0 in Hinv. fold n in Hinv.
  pose proof Hinv as (Hlen & _ & _). pose proof Hedit as (Hp & Hr & Ha & Hpr & Hn & Hn').
  destruct (items_changed_sorting E n position removed added w Hss Hinv Hedit Hne)
    as (es & Hq & _ & Hrun).
  simpl in Hrun.
  match type of Hrun with _ = Some ?X => set (w' := X) in * end.
  set (l := items (self w)) in *.
  set (P := λ si, ¬ in_removed_range position removed si).
  set (k := prefix_length P (λ si, decide (P si)) l).
  assert (Hmodel : model (self w') = model (self w)) by reflexivity.
  assert (Hsorter : sorter (self w') = sorter (self w)) by reflexivity.
  assert (Hitems : items (self w') = store_after E (self w) position removed added)
    by reflexivity.
  assert (Hss' : gtk_tim2_sort_model_should_sort E (self w') = true).
  { unfold gtk_tim2_sort_model_should_sort. rewrite Hmodel, Hsorter. exact Hss. }
  assert (Hn'' : gtk_tim2_sort_model_get_n_items E (self w') = n - removed + added).
  { rewrite <- Hnew. unfold gtk_tim2_sort_model_get_n_items. by rewrite Hmodel. }
  assert (Hok' : store_ok (gtk_tim2_sort_model_get_n_items E (self w')) (items (self w'))).
  { rewrite Hn'', Hitems. unfold store_after. by apply edited_store_ok. }
  eexists w', _, _, _. split; [exact Hrun|]. split_and!.
  - unfold events_since. subst w'. simpl. rewrite drop_app_length.
    unfold notifications. rewrite !omap_app.
    fold (notifications es). rewrite (quiet_notifications es Hq).
    fold (notifications (replicate (Z.to_nat added) EvStoreAppend)).
    rewrite (quiet_notifications _ (quiet_appends _)).
    replace (omap _ (stop_events (self w))) with (@nil (Z * Z * Z))
      by (unfold stop_events; by destruct (sort_cb (self w) =? 0)).
    destruct (edit_restarts (self w) added); reflexivity.
  - rewrite (view_store E (self w') Hss' Hok'), (view_store E0 (self w) Hss0 Hinv).
    rewrite Hitems. unfold store_after. rewrite fmap_app, reconciled_items.
    fold l. fold P. change (untouched_prefix position removed l) with (Z.of_nat k).
    rewrite Nat2Z.id.
    pose proof (prefix_length_filter P (λ si, decide (P si)) l) as Hk. fold k in Hk.
    rewrite take_app_le by (by rewrite length_fmap).
    destruct (decide (Forall P l)) as [Hall|Hsome].
    + by rewrite (filter_all P l Hall).
    + by destruct (bands_cover P (λ si, decide (P si)) si_item l Hsome) as (_ & Htake & _).
  - apply u32_net_change.
  - rewrite !view_length, Hn''. fold n. lia.
Qed.

Lemma edit_notification_prefix_sound_witness :
  ∃ w' p r a,
    gtk_tim2_sort_model_items_changed_cb sample_replaced 1 1 1 sample_sorted = Some w' ∧
    notifications (events_since sample_sorted w') = [(p, r, a)] ∧
    take (Z.to_nat p) (view sample_replaced (self w'))
      = take (Z.to_nat p) (view sample_total (self sample_sorted)) ∧
    u32 (a - r) = u32 (1 - 1) ∧
    Z.of_nat (length (view sample_replaced (self w')))
      - Z.of_nat (length (view sample_total (self sample_sorted))) = 1 - 1.
Proof.
  apply (edit_notification_prefix_sound sample_total sample_replaced 1 1 1 sample_sorted).
  - intros srt. reflexivity.
  - vm_compute. reflexivity.
  - unfold model_inv. simpl. unfold store_ok. decide_now.
  - unfold edit_ok. decide_now.
  - vm_compute. reflexivity.
  - intros [H _]. discriminate H.
Defined.

(** * The assertion of the scan *)

(** The number of entries the scan keeps is what it compares with
    [n_items - removed]. *)
Lemma remove_items_counts position removed added w :
  let l := items (self w) in
  Z.of_nat (length l) < guint_modulus →
  0 ≤ removed ≤ Z.of_nat (length l) →
  Z.of_nat (length (filter (scan_keeps position removed) l))
    ≠ Z.of_nat (length l) - removed →
  gtk_tim2_sort_model_remove_items position removed added w = None.
Proof.
  intros l Hlen Hrem Hcount.
  unfold gtk_tim2_sort_model_remove_items, sort_array_get_size. fold l.
  rewrite (u32_small (Z.of_nat (length l))) by lia.
  set (acc0 := {| sc_w := w; sc_valid := 0;
                  sc_start := Z.of_nat (length l); sc_end := Z.of_nat (length l) |}).
  destruct (remove_items_scan (Z.of_nat (length l)) position removed added l [] [] acc0)
    as (junk & es & _ & _ & Hvalid & _);
    [done | done | simpl; lia | simpl; lia |].
  simpl in Hvalid.
  set (acc := foldl _ acc0 _) in *.
  rewrite u32_small by lia. rewrite Hvalid.
  destruct (Z.eqb_spec (Z.of_nat (length (filter (scan_keeps position removed) l)))
              (Z.of_nat (length l) - removed)) as [Heq|_]; [|reflexivity].
  by destruct Hcount.
Qed.

(** X17. While sorting is enabled, an edit that is not empty, on a store
    of fewer than [2^32] entries with [removed] at most its size, makes the
    "items-changed" handler abort on the assertion of the scan exactly when
    the number of entries the scan keeps (those whose position is not in
    the removed range) differs from the size of the store less
    [removed]. *)
Theorem items_changed_aborts_on_mismatch E position removed added w :
  let l := items (self w) in
  gtk_tim2_sort_model_should_sort E (self w) = true →
  ¬ (removed = 0 ∧ added = 0) →
  Z.of_nat (length l) < guint_modulus →
  0 ≤ removed ≤ Z.of_nat (length l) →
  (gtk_tim2_sort_model_items_changed_cb E position removed added w = None
   ↔ Z.of_nat (length (filter (scan_keeps position removed) l))
       ≠ Z.of_nat (length l) - removed).
Proof.
  intros l Hss Hne Hlen Hrem.
  unfold gtk_tim2_sort_model_items_changed_cb.
  replace ((removed =? 0) && (added =? 0)) with false
    by (symmetry; apply andb_false_iff; rewrite !Z.eqb_neq; lia).
  rewrite Hss. simpl negb. cbv iota.
  rewrite stop_sorting_eq.
  set (w1 := {| self := set_sort_cb_field 0 (self w);
                trace := trace w ++ stop_events (self w);
                next_source := next_source w |}).
  split.
  - intros Hnone Heq.
    destruct (remove_items_run position removed added w1) as (w2 & s0 & e0 & es & Hrun & _);
      [exact Hlen | exact Hrem | exact Heq |].
    rewrite Hrun in Hnone. discriminate Hnone.
  - intros Hcount.
    by rewrite (remove_items_counts position removed added w1 Hlen Hrem Hcount).
Qed.

Lemma items_changed_aborts_on_mismatch_witness :
  gtk_tim2_sort_model_items_changed_cb sample_total 2 2 0 sample_sorted = None
  ↔ Z.of_nat (length (filter (scan_keeps 2 2) (items (self sample_sorted))))
      ≠ Z.of_nat (length (items (self sample_sorted))) - 2.
Proof.
  apply (items_changed_aborts_on_mismatch sample_total 2 2 0 sample_sorted).
  - vm_compute. reflexivity.
  - intros [H _]. discriminate H.
  - vm_compute. reflexivity.
  - vm_compute. split; discriminate.
Defined.

(** * The "sorting" property *)

Lemma sorting_after_app b es1 es2 :
  sorting_after b (es1 ++ es2) = sorting_after (sorting_after b es1) es2.
Proof. unfold sorting_after. apply foldl_app. Qed.

Lemma sorting_after_plain b es : Forall plain_event es → sorting_after b es = b.
Proof.
  intros Hes. revert b. induction Hes as [|e es He _ IH]; intros b; [reflexivity|].
  change (sorting_after b (e :: es))
    with (sorting_after (match e with EvNotify PROP_SORTING => negb b | _ => b end) es).
  rewrite IH. destruct e as [? ? ?|p| | | | | | | | | | | | | |]; try reflexivity.
  by destruct p.
Qed.

Lemma plain_clear_events l : Forall plain_event (l ≫= sort_item_clear_events).
Proof.
  induction l as [|si l IH]; [constructor|]. rewrite bind_cons.
  apply Forall_app. split; [|exact IH].
  unfold sort_item_clear_events. destruct (si_item si); repeat constructor.
Qed.

Lemma plain_appends k : Forall plain_event (replicate k EvStoreAppend).
Proof. induction k; simpl; by constructor. Qed.

Lemma quiet_plain es : Forall quiet_event es → Forall plain_event es.
Proof. intros H. eapply Forall_impl; [exact H|]. by intros []. Qed.

Lemma sorting_after_stop s :
  sorting_after (gtk_tim2_sort_model_is_sorting s) (stop_events s) = false.
Proof.
  unfold stop_events, gtk_tim2_sort_model_is_sorting.
  by destruct (sort_cb s =? 0).
Qed.

Lemma announces_refl w : announces_sorting w w.
Proof. exists []. by rewrite app_nil_r. Qed.

Lemma announces_trans w1 w2 w3 :
  announces_sorting w1 w2 → announces_sorting w2 w3 → announces_sorting w1 w3.
Proof.
  intros (es1 & H1 & Hs1) (es2 & H2 & Hs2). exists (es1 ++ es2).
  rewrite H2, H1, app_assoc. split; [done|]. by rewrite sorting_after_app, Hs1.
Qed.

Lemma announces_plain w w' es :
  trace w' = trace w ++ es → Forall plain_event es →
  sort_cb (self w') = sort_cb (self w) →
  announces_sorting w w'.
Proof.
  intros Htr Hes Hcb. exists es. split; [exact Htr|].
  rewrite (sorting_after_plain _ es Hes).
  unfold gtk_tim2_sort_model_is_sorting. by rewrite Hcb.
Qed.

Lemma announces_emit w e : plain_event e → announces_sorting w (emit e w).
Proof. intros He. apply (announces_plain _ _ [e]); [done | by constructor | done]. Qed.

Lemma announces_stop w : announces_sorting w (gtk_tim2_sort_model_stop_sorting w).
Proof.
  rewrite stop_sorting_eq. eexists. split; [reflexivity|]. simpl.
  by rewrite sorting_after_stop.
Qed.

Lemma announces_clear_items w : announces_sorting w (gtk_tim2_sort_model_clear_items w).
Proof.
  rewrite clear_items_eq. eexists. split; [reflexivity|]. simpl.
  rewrite sorting_after_app, sorting_after_stop.
  apply sorting_after_plain, Forall_app. split; [apply plain_clear_events|].
  by repeat constructor.
Qed.

Lemma announces_resort already_sorted w :
  announces_sorting w (gtk_tim2_sort_model_resort already_sorted w).
Proof.
  rewrite resort_eq. eexists. split; [reflexivity|]. simpl.
  unfold resort_events. by rewrite sorting_after_app, sorting_after_stop.
Qed.

Lemma announces_create_items E w :
  announces_sorting w (gtk_tim2_sort_model_create_items E w).
Proof.
  rewrite create_items_eq. destruct (gtk_tim2_sort_model_should_sort E (self w)).
  - eapply announces_plain; [reflexivity | apply plain_appends | reflexivity].
  - apply announces_refl.
Qed.

Lemma announces_clear_model w : announces_sorting w (gtk_tim2_sort_model_clear_model w).
Proof.
  unfold gtk_tim2_sort_model_clear_model. destruct (model (self w)) as [m|].
  - eapply announces_trans; [|apply announces_clear_items].
    apply (announces_plain _ _ [EvDisconnect m; EvUnref m]);
      [done | by repeat constructor | done].
  - apply announces_refl.
Qed.

Lemma announces_clear_sorter w : announces_sorting w (gtk_tim2_sort_model_clear_sorter w).
Proof.
  unfold gtk_tim2_sort_model_clear_sorter. destruct (sorter (self w)) as [srt|].
  - eapply announces_trans; [|apply announces_clear_items].
    apply (announces_plain _ _ [EvDisconnect srt; EvUnref srt]);
      [done | by repeat constructor | done].
  - apply announces_refl.
Qed.

Lemma announces_sorter_changed E srt w :
  announces_sorting w (gtk_tim2_sort_model_sorter_changed_cb E srt w).
Proof.
  unfold gtk_tim2_sort_model_sorter_changed_cb.
  set (w1 := match gtk_sorter_get_order E srt with
             | GTK_SORTER_ORDER_NONE => gtk_tim2_sort_model_clear_items w
             | _ => if sort_array_is_empty (items (self w))
                    then gtk_tim2_sort_model_create_items E w else w
             end).
  assert (H1 : announces_sorting w w1).
  { assert (Hkeep : announces_sorting w
              (if sort_array_is_empty (items (self w))
               then gtk_tim2_sort_model_create_items E w else w)).
    { destruct (sort_array_is_empty (items (self w)));
        [apply announces_create_items | apply announces_refl]. }
    subst w1. destruct (gtk_sorter_get_order E srt); try exact Hkeep.
    apply announces_clear_items. }
  assert (H2 : announces_sorting w (gtk_tim2_sort_model_resort 0 w1))
    by (eapply announces_trans; [exact H1 | apply announces_resort]).
  destruct (1 <? _); [|exact H2].
  eapply announces_trans; [exact H2 | by apply announces_emit].
Qed.

Lemma announces_set_model E new_model w :
  announces_sorting w (gtk_tim2_sort_model_set_model E new_model w).
Proof.
  unfold gtk_tim2_sort_model_set_model.
  destruct (decide (model (self w) = new_model)) as [_|_]; [apply announces_refl|].
  pose proof (announces_clear_model w) as H1.
  set (w1 := gtk_tim2_sort_model_clear_model w) in *.
  destruct new_model as [m|].
  - set (w0 := with_self (set_model_field (Some m)) (emits [EvRef m; EvConnect m] w1)).
    assert (H2 : announces_sorting w
              (gtk_tim2_sort_model_resort 0 (gtk_tim2_sort_model_create_items E w0))).
    { apply (announces_trans _ w1); [exact H1|].
      apply (announces_trans _ w0).
      - apply (announces_plain _ _ [EvRef m; EvConnect m]);
          [done | by repeat constructor | done].
      - eapply announces_trans; [apply announces_create_items | apply announces_resort]. }
    simpl. eapply announces_trans; [|by apply announces_emit].
    destruct (_ || _); [|exact H2].
    eapply announces_trans; [exact H2 | by apply announces_emit].
  - simpl. eapply announces_trans; [|by apply announces_emit].
    destruct (_ || _); [|exact H1].
    eapply announces_trans; [exact H1 | by apply announces_emit].
Qed.

Lemma announces_set_sorter E new_sorter w :
  announces_sorting w (gtk_tim2_sort_model_set_sorter E new_sorter w).
Proof.
  unfold gtk_tim2_sort_model_set_sorter.
  pose proof (announces_clear_sorter w) as H1.
  set (w1 := gtk_tim2_sort_model_clear_sorter w) in *.
  eapply announces_trans; [|by apply announces_emit].
  destruct new_sorter as [srt|].
  - set (w0 := with_self (set_sorter_field (Some srt))
                 (emits [EvRef srt; EvConnect srt] w1)).
    apply (announces_trans _ w1); [exact H1|].
    apply (announces_trans _ w0).
    + apply (announces_plain _ _ [EvRef srt; EvConnect srt]);
        [done | by repeat constructor | done].
    + apply announces_sorter_changed.
  - destruct (1 <? _); [|exact H1].
    eapply announces_trans; [exact H1 | by apply announces_emit].
Qed.

Lemma announces_items_changed E E0 position removed added w :
  same_orders E0 E →
  edit_ok (gtk_tim2_sort_model_get_n_items E0 (self w)) position removed added →
  model_inv E0 (self w) →
  ∃ w', gtk_tim2_sort_model_items_changed_cb E position removed added w = Some w' ∧
        announces_sorting w w'.
Proof.
  intros Ho Hedit Hinv.
  unfold model_inv in Hinv. rewrite (should_sort_same_orders E0 E _ Ho) in Hinv.
  destruct (decide (removed = 0 ∧ added = 0)) as [[-> ->]|Hne].
  { exists w. split; [reflexivity | apply announces_refl]. }
  destruct (gtk_tim2_sort_model_should_sort E (self w)) eqn:Hss.
  - destruct (items_changed_sorting E _ position removed added w Hss Hinv Hedit Hne)
      as (es & Hq & _ & Hrun).
    simpl in Hrun. eexists. split; [exact Hrun|].
    eexists. split; [reflexivity|]. simpl.
    rewrite !sorting_after_app, sorting_after_stop.
    rewrite (sorting_after_plain _ es (quiet_plain es Hq)).
    rewrite (sorting_after_plain _ _ (plain_appends _)).
    unfold gtk_tim2_sort_model_is_sorting. simpl.
    by destruct (edit_restarts (self w) added).
  - unfold gtk_tim2_sort_model_items_changed_cb.
    replace ((removed =? 0) && (added =? 0)) with false
      by (symmetry; apply andb_false_iff; rewrite !Z.eqb_neq; lia).
    rewrite Hss. simpl. eexists. split; [reflexivity|]. by apply announces_emit.
Qed.

Lemma announces_sort_cb E w :
  announces_sorting w (gtk_tim2_sort_model_sort_cb E w).1.
Proof.
  unfold gtk_tim2_sort_model_sort_cb.
  destruct (gtk_tim_sort_step E (sort (self w)) (items (self w))) as [[b t] l].
  set (w1 := emit EvSortStep (with_self (λ s, set_items_field l (set_sort_field t s)) w)).
  assert (H1 : announces_sorting w w1).
  { apply (announces_plain _ _ [EvSortStep]); [done | by repeat constructor | done]. }
  destruct b; simpl.
  - eapply announces_trans; [exact H1 | by apply announces_emit].
  - eapply announces_trans; [exact H1 | apply announces_stop].
Qed.

(** X18. Across every public operation, and across a dispatch of the
    idle callback or a dispose after it, the notifications of "sorting"
    account for every change of its value: the value [self->sort_cb != 0]
    at the end is the value at the start flipped once per notification, so
    the property never changes without being notified. *)
Theorem sorting_property_is_announced E op w :
  op_pre E op w →
  ∃ w', run_op E op w = Some w' ∧
        announces_sorting (op_start op w) w' ∧
        announces_sorting w' (gtk_tim2_sort_model_sort_cb E w').1 ∧
        announces_sorting w' (gtk_tim2_sort_model_dispose w').
Proof.
  intros Hpre.
  assert (Hrest : ∀ w', announces_sorting w' (gtk_tim2_sort_model_sort_cb E w').1 ∧
                        announces_sorting w' (gtk_tim2_sort_model_dispose w')).
  { intros w'. split; [apply announces_sort_cb|].
    unfold gtk_tim2_sort_model_dispose.
    eapply announces_trans; [apply announces_clear_model | apply announces_clear_sorter]. }
  destruct op as [m srt|m|srt| |position removed added]; simpl in *.
  - eexists. split; [reflexivity|]. split; [|apply Hrest].
    unfold gtk_tim2_sort_model_new.
    eapply announces_trans; [apply announces_set_model | apply announces_set_sorter].
  - eexists. split; [reflexivity|]. split; [apply announces_set_model | apply Hrest].
  - eexists. split; [reflexivity|]. split; [apply announces_set_sorter | apply Hrest].
  - destruct (sorter (self w)) as [srt|].
    + eexists. split; [reflexivity|].
      split; [apply announces_sorter_changed | apply Hrest].
    + exists w. split; [reflexivity|]. split; [apply announces_refl | apply Hrest].
  - destruct Hpre as (E0 & (Ho & Hedit & Hn) & Hinv).
    destruct (announces_items_changed E E0 position removed added w Ho Hedit Hinv)
      as (w' & Hrun & Hann).
    exists w'. split; [exact Hrun|]. split; [exact Hann | apply Hrest].
Qed.

Lemma sorting_property_is_announced_witness :
  ∃ w', run_op sample_replaced (OpItemsChanged 1 1 1) sample_sorted = Some w' ∧
        announces_sorting (op_start (OpItemsChanged 1 1 1) sample_sorted) w' ∧
        announces_sorting w' (gtk_tim2_sort_model_sort_cb sample_replaced w').1 ∧
        announces_sorting w' (gtk_tim2_sort_model_dispose w').
Proof.
  apply (sorting_property_is_announced sample_replaced (OpItemsChanged 1 1 1)
           sample_sorted).
  exists sample_total. split; [split_and!|].
  - intros srt. reflexivity.
  - unfold edit_ok. decide_now.
  - reflexivity.
  - unfold model_inv. simpl. unfold store_ok. decide_now.
Defined.

(** * References and connections across the accessors *)

Lemma bookkeeping_app es1 es2 :
  bookkeeping (es1 ++ es2) = bookkeeping es1 ++ bookkeeping es2.
Proof. unfold bookkeeping. apply omap_app. Qed.

Lemma bookkeeping_stop s : bookkeeping (stop_events s) = [].
Proof. unfold stop_events. by destruct (sort_cb s =? 0). Qed.

Lemma bookkeeping_store l :
  bookkeeping (l ≫= sort_item_clear_events) = EvUnref <$> omap si_item l.
Proof.
  induction l as [|si l IH]; [reflexivity|].
  rewrite bind_cons, bookkeeping_app, IH.
  unfold sort_item_clear_events. simpl. by destruct (si_item si).
Qed.

Lemma bookkeeping_appends k : bookkeeping (replicate k EvStoreAppend) = [].
Proof. induction k; [reflexivity | exact IHk]. Qed.

Lemma bookkeeping_resort w already_sorted :
  bookkeeping (resort_events w already_sorted) = [].
Proof. unfold resort_events. by rewrite bookkeeping_app, bookkeeping_stop. Qed.

Lemma unbound_refl w : unbound w w.
Proof. exists []. by rewrite app_nil_r. Qed.

Lemma unbound_trans w1 w2 w3 : unbound w1 w2 → unbound w2 w3 → unbound w1 w3.
Proof.
  intros (es1 & H1 & Hs1) (es2 & H2 & Hs2). exists (es1 ++ es2).
  rewrite H2, H1, app_assoc. split; [done|]. by rewrite bookkeeping_app, Hs1, Hs2.
Qed.

Lemma unbound_create_items E w : unbound w (gtk_tim2_sort_model_create_items E w).
Proof.
  rewrite create_items_eq. destruct (gtk_tim2_sort_model_should_sort E (self w)).
  - eexists. split; [reflexivity|]. apply bookkeeping_appends.
  - apply unbound_refl.
Qed.

Lemma unbound_resort already_sorted w :
  unbound w (gtk_tim2_sort_model_resort already_sorted w).
Proof. rewrite resort_eq. eexists. split; [reflexivity|]. apply bookkeeping_resort. Qed.

Lemma unbound_bookkeeping w w1 w2 es :
  trace w1 = trace w ++ es → unbound w1 w2 →
  bookkeeping (events_since w w2) = bookkeeping es.
Proof.
  intros H1 (es2 & H2 & Hs2). unfold events_since.
  rewrite H2, H1, <- app_assoc, drop_app_length, bookkeeping_app, Hs2.
  apply app_nil_r.
Qed.

Lemma clear_model_bookkeeping w :
  ∃ es, trace (gtk_tim2_sort_model_clear_model w) = trace w ++ es ∧
        bookkeeping es = let_go (model (self w)) (self w).
Proof.
  rewrite clear_model_eq. destruct (model (self w)) as [m|].
  - eexists. split; [reflexivity|].
    rewrite !bookkeeping_app, bookkeeping_stop, bookkeeping_store. simpl.
    by rewrite app_nil_r.
  - exists []. by rewrite app_nil_r.
Qed.

Lemma clear_sorter_bookkeeping w :
  ∃ es, trace (gtk_tim2_sort_model_clear_sorter w) = trace w ++ es ∧
        bookkeeping es = let_go (sorter (self w)) (self w).
Proof.
  rewrite clear_sorter_eq. destruct (sorter (self w)) as [srt|].
  - eexists. split; [reflexivity|].
    rewrite !bookkeeping_app, bookkeeping_stop, bookkeeping_store. simpl.
    by rewrite app_nil_r.
  - exists []. by rewrite app_nil_r.
Qed.

Lemma sorter_changed_bookkeeping E srt w :
  ∃ es, trace (gtk_tim2_sort_model_sorter_changed_cb E srt w) = trace w ++ es ∧
        bookkeeping es
        = match gtk_sorter_get_order E srt with
          | GTK_SORTER_ORDER_NONE => EvUnref <$> omap si_item (items (self w))
          | _ => []
          end.
Proof.
  unfold gtk_tim2_sort_model_sorter_changed_cb.
  set (w1 := match gtk_sorter_get_order E srt with
             | GTK_SORTER_ORDER_NONE => gtk_tim2_sort_model_clear_items w
             | _ => if sort_array_is_empty (items (self w))
                    then gtk_tim2_sort_model_create_items E w else w
             end).
  assert (H1 : ∃ es, trace w1 = trace w ++ es ∧
                 bookkeeping es
                 = match gtk_sorter_get_order E srt with
                   | GTK_SORTER_ORDER_NONE => EvUnref <$> omap si_item (items (self w))
                   | _ => []
                   end).
  { assert (Hkeep : ∃ es, trace (if sort_array_is_empty (items (self w))
                                 then gtk_tim2_sort_model_create_items E w else w)
                          = trace w ++ es ∧ bookkeeping es = []).
    { destruct (sort_array_is_empty (items (self w)));
        [apply unbound_create_items | apply unbound_refl]. }
    subst w1. destruct (gtk_sorter_get_order E srt); try exact Hkeep.
    rewrite clear_items_eq. eexists. split; [reflexivity|].
    rewrite !bookkeeping_app, bookkeeping_stop, bookkeeping_store. simpl.
    by rewrite app_nil_r. }
  destruct H1 as (es1 & Htr1 & Hb1).
  destruct (unbound_resort 0 w1) as (es2 & Htr2 & Hb2).
  destruct (1 <? _).
  - exists (es1 ++ es2 ++ [EvItemsChanged 0
       (gtk_tim2_sort_model_get_n_items E (self (gtk_tim2_sort_model_resort 0 w1)))
       (gtk_tim2_sort_model_get_n_items E (self (gtk_tim2_sort_model_resort 0 w1)))]).
    simpl. rewrite Htr2, Htr1, <- !app_assoc. split; [reflexivity|].
    rewrite !bookkeeping_app, Hb1, Hb2. simpl. by rewrite app_nil_r.
  - exists (es1 ++ es2). rewrite Htr2, Htr1, <- !app_assoc. split; [reflexivity|].
    rewrite !bookkeeping_app, Hb1, Hb2. by rewrite app_nil_r.
Qed.

(** X19. On an object that satisfies the invariant,
    [gtk_tim2_sort_model_set_model] with another model disconnects from
    the model held and drops its reference, releases every item of the
    store once, then takes one reference on the new model and connects to
    it, and touches no other reference or connection.
    [gtk_tim2_sort_model_set_sorter] does the same with the sorters, also
    when given the sorter it holds, whose reference is dropped before it is
    taken again.  The sorter's "changed" handler releases every item of
    the store when the new order is [GTK_SORTER_ORDER_NONE] and touches no
    reference otherwise. *)
Theorem accessors_bookkeeping E new_model new_sorter w :
  model_inv E (self w) →
  (model (self w) ≠ new_model →
   bookkeeping (events_since w (gtk_tim2_sort_model_set_model E new_model w))
   = let_go (model (self w)) (self w) ++ take_hold new_model) ∧
  bookkeeping (events_since w (gtk_tim2_sort_model_set_sorter E new_sorter w))
  = let_go (sorter (self w)) (self w) ++ take_hold new_sorter ∧
  (∀ srt,
     bookkeeping (events_since w (gtk_tim2_sort_model_sorter_changed_cb E srt w))
     = match gtk_sorter_get_order E srt with
       | GTK_SORTER_ORDER_NONE => EvUnref <$> omap si_item (items (self w))
       | _ => []
       end).
Proof.
  intros Hinv. split_and!.
  - intros Hne. unfold gtk_tim2_sort_model_set_model. rewrite decide_False by exact Hne.
    destruct (clear_model_bookkeeping w) as (es1 & Htr1 & Hb1).
    set (w1 := gtk_tim2_sort_model_clear_model w) in *.
    destruct new_model as [m|].
    + set (w0 := with_self (set_model_field (Some m)) (emits [EvRef m; EvConnect m] w1)).
      set (w2 := gtk_tim2_sort_model_resort 0 (gtk_tim2_sort_model_create_items E w0)).
      assert (H0 : trace w0 = trace w ++ es1 ++ [EvRef m; EvConnect m])
        by (simpl; by rewrite Htr1, <- app_assoc).
      assert (H2 : unbound w0 w2)
        by (eapply unbound_trans; [apply unbound_create_items | apply unbound_resort]).
      simpl.
      assert (H3 : unbound w0 (emit (EvNotify PROP_MODEL)
                (if (0 <? gtk_tim2_sort_model_get_n_items E (self w))
                    || (0 <? g_list_model_get_n_items E m)
                 then emit (EvItemsChanged 0 (gtk_tim2_sort_model_get_n_items E (self w))
                              (g_list_model_get_n_items E m)) w2
                 else w2))).
      { eapply unbound_trans; [exact H2|]. destruct (_ || _).
        - exists [EvItemsChanged 0 (gtk_tim2_sort_model_get_n_items E (self w))
                    (g_list_model_get_n_items E m); EvNotify PROP_MODEL].
          split; [simpl; by rewrite <- app_assoc | reflexivity].
        - by exists [EvNotify PROP_MODEL]. }
      rewrite (unbound_bookkeeping w w0 _ _ H0 H3), bookkeeping_app, Hb1. reflexivity.
    + simpl.
      assert (H3 : unbound w1 (emit (EvNotify PROP_MODEL)
                (if (0 <? gtk_tim2_sort_model_get_n_items E (self w)) || (0 <? 0)
                 then emit (EvItemsChanged 0 (gtk_tim2_sort_model_get_n_items E (self w)) 0)
                        w1
                 else w1))).
      { destruct (_ || _).
        - exists [EvItemsChanged 0 (gtk_tim2_sort_model_get_n_items E (self w)) 0;
                  EvNotify PROP_MODEL].
          split; [simpl; by rewrite <- app_assoc | reflexivity].
        - by exists [EvNotify PROP_MODEL]. }
      rewrite (unbound_bookkeeping w w1 _ _ Htr1 H3), Hb1. by rewrite app_nil_r.
  - unfold gtk_tim2_sort_model_set_sorter.
    destruct (clear_sorter_bookkeeping w) as (es1 & Htr1 & Hb1).
    destruct (clear_sorter_obs E w Hinv) as (_ & _ & Hit1).
    set (w1 := gtk_tim2_sort_model_clear_sorter w) in *.
    destruct new_sorter as [srt|].
    + set (w0 := with_self (set_sorter_field (Some srt))
                   (emits [EvRef srt; EvConnect srt] w1)).
      assert (H0 : trace w0 = trace w ++ es1 ++ [EvRef srt; EvConnect srt])
        by (simpl; by rewrite Htr1, <- app_assoc).
      destruct (sorter_changed_bookkeeping E srt w0) as (es2 & Htr2 & Hb2).
      assert (Hb2' : bookkeeping es2 = []).
      { rewrite Hb2. replace (items (self w0)) with (items (self w1)) by reflexivity.
        rewrite Hit1. by destruct (gtk_sorter_get_order E srt). }
      assert (H3 : unbound w0 (emit (EvNotify PROP_SORTER)
                                 (gtk_tim2_sort_model_sorter_changed_cb E srt w0))).
      { exists (es2 ++ [EvNotify PROP_SORTER]). simpl. rewrite Htr2, <- app_assoc.
        split; [reflexivity|]. by rewrite bookkeeping_app, Hb2'. }
      rewrite (unbound_bookkeeping w w0 _ _ H0 H3), bookkeeping_app, Hb1. reflexivity.
    + assert (H3 : unbound w1 (emit (EvNotify PROP_SORTER)
                (if 1 <? gtk_tim2_sort_model_get_n_items E (self w1)
                 then emit (EvItemsChanged 0 (gtk_tim2_sort_model_get_n_items E (self w1))
                              (gtk_tim2_sort_model_get_n_items E (self w1))) w1
                 else w1))).
      { destruct (1 <? _).
        - exists [EvItemsChanged 0 (gtk_tim2_sort_model_get_n_items E (self w1))
                    (gtk_tim2_sort_model_get_n_items E (self w1)); EvNotify PROP_SORTER].
          split; [simpl; by rewrite <- app_assoc | reflexivity].
        - by exists [EvNotify PROP_SORTER]. }
      rewrite (unbound_bookkeeping w w1 _ _ Htr1 H3), Hb1. by rewrite app_nil_r.
  - intros srt. destruct (sorter_changed_bookkeeping E srt w) as (es & Htr & Hb).
    unfold events_since. by rewrite Htr, drop_app_length.
Qed.

Lemma accessors_bookkeeping_witness :
  (model (self sample_sorted) ≠ Some 101 →
   bookkeeping (events_since sample_sorted
                  (gtk_tim2_sort_model_set_model sample_total (Some 101) sample_sorted))
   = let_go (model (self sample_sorted)) (self sample_sorted) ++ take_hold (Some 101)) ∧
  bookkeeping (events_since sample_sorted
                 (gtk_tim2_sort_model_set_sorter sample_total (Some 200) sample_sorted))
  = let_go (sorter (self sample_sorted)) (self sample_sorted) ++ take_hold (Some 200) ∧
  (∀ srt,
     bookkeeping (events_since sample_sorted
                    (gtk_tim2_sort_model_sorter_changed_cb sample_total srt sample_sorted))
     = match gtk_sorter_get_order sample_total srt with
       | GTK_SORTER_ORDER_NONE => EvUnref <$> omap si_item (items (self sample_sorted))
       | _ => []
       end).
Proof.
  apply (accessors_bookkeeping sample_total (Some 101) (Some 200) sample_sorted).
  unfold model_inv. simpl. unfold store_ok. decide_now.
Defined.
